(** * node-closurebuilder: require checker and module deps writer

    A shallow embedding of [RequireChecker] (namespace usage extraction,
    namespace matching, per-file require checking) and of
    [ModuleDepsWriter] (loader script synthesis, serialized artifact
    writing, the asynchronous loader of the generated script), together
    with the properties the specification states about them.

    Modelling conventions.
    - A JavaScript string is a [string]; every [ascii] stands for one
      UTF-16 code unit (sources are taken in the Latin-1 range, where the
      default [sort] order, [indexOf] and [\w] coincide with the byte-wise
      ones).
    - A JavaScript object that is only used as a set of keys (every value
      is [1]) is the list of its own keys in insertion order, which is the
      order of [for ... in] for non-numeric keys.  Every result that leaves
      the checker is sorted, so this order is never observable.  Such an
      object is created by [{}] and inherits the members of
      [Object.prototype]: a read [obj[k]] is truthy for an own key and for
      the name of an inherited member, [for ... in] goes over the own keys
      only, and the assignment [obj["__proto__"] = 1] runs the inherited
      setter, which ignores a value that is neither an object nor [null].
    - The two memo objects [_jsCache] and [_docCache] hold their own
      properties in finite maps ([gmap]) from strings to [option string]:
      [None] is [null], [Some p] is the string [p]; a key that is absent
      reads as the inherited member when it names one, and [undefined]
      otherwise.
    - Callbacks are invoked exactly once by the collaborators
      ([utils.writeFile], [parser.parse], [cache.save]); a continuation is
      modelled by sequencing. *)

From Stdlib Require Import Ascii.
From Stdlib Require String.
From stdpp Require Import base list strings sorting gmap pretty.


(** ** JavaScript string primitives *)

Module Js.

(** [\w] of a regular expression without the unicode flag: [A-Za-z0-9_]. *)
Definition isWordChar (c : ascii) : bool :=
  let n := N_of_ascii c in
  ((65 <=? n) && (n <=? 90) || (97 <=? n) && (n <=? 122)
   || (48 <=? n) && (n <=? 57) || (n =? 95))%N.

(** [/[^\w\$]/.test(c)] for a one-character string [c]. *)
Definition isBoundaryChar (c : ascii) : bool :=
  negb (isWordChar c || Ascii.eqb c "$").

(** [s.indexOf(pat)]: the first position of [pat] in [s]; [None] is [-1]. *)
Definition indexOf (s pat : string) : option nat := String.index 0 pat s.

(** [s] starts with [p]. *)
Definition startsWith (s p : string) : Prop := ∃ rest, s = p +:+ rest.

(** [s[i]]: the character at position [i]; [None] is [undefined]. *)
Definition charAt (s : string) (i : nat) : option ascii := String.get i s.

(** [arr.indexOf(x)] on an array of strings. *)
Fixpoint arrayIndexOf (x : string) (arr : list string) : option nat :=
  match arr with
  | [] => None
  | y :: arr' =>
      if String.eqb y x then Some 0 else S <$> arrayIndexOf x arr'
  end.

(** [arr.join(sep)]. *)
Definition join (sep : string) (arr : list string) : string :=
  String.concat sep arr.

(** [s.replace(c, repl)] with a one-character string pattern [c] and a
    replacement without special patterns: only the first occurrence is
    replaced. *)
Fixpoint replaceFirstChar (c : ascii) (repl : string) (s : string) : string :=
  match s with
  | EmptyString => EmptyString
  | String a s' =>
      if Ascii.eqb a c then repl +:+ s'
      else String a (replaceFirstChar c repl s')
  end.

(** Truthiness of a string value. *)
Definition truthy (s : string) : bool := negb (String.eqb s EmptyString).

(** [arr.sort()]: ascending in code-unit order. *)
Definition sort (arr : list string) : list string :=
  merge_sort String.le arr.

(** [arr.sort(function(a, b) { return a < b ? 1 : a > b ? -1 : 0; })]:
    descending in code-unit order. *)
Definition sortDescending (arr : list string) : list string :=
  merge_sort (flip String.le) arr.

(** The names of the members of [Object.prototype], which every object
    created by [{}] inherits; none of them is enumerable. *)
Definition objectPrototypeNames : list string :=
  ["constructor"; "__defineGetter__"; "__defineSetter__"; "hasOwnProperty";
   "__lookupGetter__"; "__lookupSetter__"; "isPrototypeOf";
   "propertyIsEnumerable"; "toString"; "valueOf"; "__proto__";
   "toLocaleString"].

(** [k] names a member that an object without an own key [k] inherits. *)
Definition inherited (k : string) : bool :=
  bool_decide (k ∈ objectPrototypeNames).

(** The inherited member named [k] as a property key: the text of a
    native function, as V8 prints it, and of [Object.prototype] itself
    for the accessor [__proto__]. *)
Definition memberText (k : string) : string :=
  if String.eqb k "__proto__" then "[object Object]"
  else "function "
       +:+ (if String.eqb k "constructor" then "Object" else k)
       +:+ "() { [native code] }".

(** A key set: [obj[k] = 1] on an object whose values are all [1].  The
    key [__proto__] is not added: the inherited setter ignores [1]. *)
Definition setKey (k : string) (obj : list string) : list string :=
  if String.eqb k "__proto__" then obj
  else if decide (k ∈ obj) then obj else obj ++ [k].

(** [obj[k]] read as a condition on such an object: an own key or an
    inherited member. *)
Definition hasKey (obj : list string) (k : string) : bool :=
  bool_decide (k ∈ obj) || inherited k.

(** [delete obj[k]]. *)
Definition deleteKey (k : string) (obj : list string) : list string :=
  filter (λ x, x ≠ k) obj.

(** The replacement text of one match of a pattern without capture
    groups: [$$], [$&], [$`] and [$'] are expanded, any other [$] is kept. *)
Fixpoint expandReplacement (matched before after repl : string) : string :=
  match repl with
  | EmptyString => EmptyString
  | String a tail =>
      if Ascii.eqb a "$" then
        match tail with
        | String c rest =>
            if Ascii.eqb c "$" then
              String "$" (expandReplacement matched before after rest)
            else if Ascii.eqb c "&" then
              matched +:+ expandReplacement matched before after rest
            else if Ascii.eqb c "`" then
              before +:+ expandReplacement matched before after rest
            else if Ascii.eqb c "'" then
              after +:+ expandReplacement matched before after rest
            else String "$" (expandReplacement matched before after tail)
        | EmptyString => String "$" EmptyString
        end
      else String a (expandReplacement matched before after tail)
  end.

Fixpoint dropChars (n : nat) (s : string) : string :=
  match n, s with
  | S n', String _ s' => dropChars n' s'
  | _, _ => s
  end.

(** The scan of [replaceAll]: [before] is the text already passed and
    [skip] the number of characters of the current match still to pass. *)
Fixpoint replaceAllGo (pat repl before : string) (skip : nat) (s : string)
    : string :=
  match s with
  | EmptyString => EmptyString
  | String a s' =>
      match skip with
      | S k => replaceAllGo pat repl (before +:+ String a EmptyString) k s'
      | 0 =>
          if String.prefix pat s then
            expandReplacement pat before (dropChars (String.length pat) s) repl
            +:+ replaceAllGo pat repl (before +:+ String a EmptyString)
                  (String.length pat - 1) s'
          else
            String a
              (replaceAllGo pat repl (before +:+ String a EmptyString) 0 s')
      end
  end.

(** [s.replace(/pat/g, repl)] for a non-empty pattern [pat] of literal
    characters: every match, left to right and without overlap, is
    replaced by the expansion of [repl]. *)
Definition replaceAll (pat repl s : string) : string :=
  replaceAllGo pat repl EmptyString 0 s.

(** Whether the character [c] occurs in [s]. *)
Fixpoint hasChar (c : ascii) (s : string) : bool :=
  match s with
  | EmptyString => false
  | String a s' => Ascii.eqb a c || hasChar c s'
  end.

(** The double quote and the line feed. *)
Definition dq : string := String "034" EmptyString.
Definition nl : string := String "010" EmptyString.

(** Lines, each closed by a line feed. *)
Definition unlines (ls : list string) : string :=
  foldr (λ l acc, l +:+ nl +:+ acc) EmptyString ls.

End Js.

(** ** A regular-expression engine for candidate patterns

    The checker builds one pattern per candidate namespace.  This engine
    covers the syntax those patterns use: a sequence of literal characters,
    escaped punctuation, [.], [$] and bracket classes with ranges.  Any
    other source is outside its syntax and searches to [false]. *)

Module RegExp.

Inductive Atom :=
  | Lit (c : ascii)
  | AnyChar
  | EndOfInput
  | Class (negated : bool) (ranges : list (ascii * ascii)).

Definition isSyntaxChar (c : ascii) : bool :=
  bool_decide (c ∈ ["^"; "*"; "+"; "?"; "("; ")"; "]"; "{"; "}"; "|"]%char).

(** The parser; [cls] holds the class being read, if any. *)
Fixpoint parseGo (cls : option (bool * list (ascii * ascii))) (s : string)
    : option (list Atom) :=
  match cls, s with
  | None, EmptyString => Some []
  | Some _, EmptyString => None
  | None, String c rest =>
      if Ascii.eqb c "\" then
        match rest with
        | String e rest' =>
            if Js.isWordChar e then None else cons (Lit e) <$> parseGo None rest'
        | EmptyString => None
        end
      else if Ascii.eqb c "." then cons AnyChar <$> parseGo None rest
      else if Ascii.eqb c "$" then cons EndOfInput <$> parseGo None rest
      else if Ascii.eqb c "[" then
        match rest with
        | String "^" rest' => parseGo (Some (true, [])) rest'
        | _ => parseGo (Some (false, [])) rest
        end
      else if isSyntaxChar c then None
      else cons (Lit c) <$> parseGo None rest
  | Some (neg, rs), String c rest =>
      if Ascii.eqb c "]" then cons (Class neg (reverse rs)) <$> parseGo None rest
      else if Ascii.eqb c "\" then
        match rest with
        | String e rest' =>
            if Js.isWordChar e then None
            else parseGo (Some (neg, (e, e) :: rs)) rest'
        | EmptyString => None
        end
      else
        match rest with
        | String "-" (String b rest') =>
            if Ascii.eqb b "]" || Ascii.eqb b "\"
            then parseGo (Some (neg, (c, c) :: rs)) rest
            else parseGo (Some (neg, (c, b) :: rs)) rest'
        | _ => parseGo (Some (neg, (c, c) :: rs)) rest
        end
  end.

Definition parse (source : string) : option (list Atom) := parseGo None source.

Definition inRange (c : ascii) (r : ascii * ascii) : bool :=
  (N_of_ascii (fst r) <=? N_of_ascii c)%N && (N_of_ascii c <=? N_of_ascii (snd r))%N.

Definition isLineTerminator (c : ascii) : bool :=
  Ascii.eqb c "010" || Ascii.eqb c "013".

(** Whether an atom that consumes a character accepts [c]. *)
Definition accepts (a : Atom) (c : ascii) : bool :=
  match a with
  | Lit l => Ascii.eqb l c
  | AnyChar => negb (isLineTerminator c)
  | EndOfInput => false
  | Class neg rs => xorb neg (existsb (inRange c) rs)
  end.

(** A match of the whole sequence starting at the head of [s]. *)
Fixpoint matchHere (atoms : list Atom) (s : string) : bool :=
  match atoms with
  | [] => true
  | EndOfInput :: atoms' =>
      match s with
      | EmptyString => matchHere atoms' s
      | String _ _ => false
      end
  | a :: atoms' =>
      match s with
      | EmptyString => false
      | String c s' => accepts a c && matchHere atoms' s'
      end
  end.

(** A match starting anywhere in [s]. *)
Fixpoint matchAnywhere (atoms : list Atom) (s : string) : bool :=
  matchHere atoms s
  || match s with
     | EmptyString => false
     | String _ s' => matchAnywhere atoms s'
     end.

(** [-1 < subject.search(new RegExp(source))]. *)
Definition search (source subject : string) : bool :=
  match parse source with
  | Some atoms => matchAnywhere atoms subject
  | None => false
  end.

End RegExp.

(** ** RequireChecker *)

Module RequireChecker.

Record Token := mkToken { ttype : string; tvalue : string }.

Record Comment := mkComment { ctype : string; cvalue : string }.

Record SyntaxTree := mkSyntaxTree {
  tokens : option (list Token);
  comments : option (list Comment)
}.

Record Source := mkSource {
  path : string;
  provides : list string;
  requires : list string;
  syntaxTree : option SyntaxTree
}.

(** *** [RequireChecker.getFileIdsMap] *)

Definition isIdentifier (t : Token) : bool := String.eqb "Identifier" (ttype t).

Definition isDot (t : Token) : bool :=
  String.eqb "Punctuator" (ttype t) && String.eqb "." (tvalue t).

(** [id.splice(index, id.length - index)] at the first ["prototype"]. *)
Definition truncatePrototype (id : list string) : list string :=
  match Js.arrayIndexOf "prototype" id with
  | Some index => take index id
  | None => id
  end.

(** The state of the scan: the object [idsMap] and the array [id]. *)
Definition ScanState : Type := list string * list string.

(** [if (!idsMap[fullId]) { idsMap[fullId] = 1; }]: the key is added
    unless the read finds an own key or an inherited member. *)
Definition recordId (fullId : string) (idsMap : list string) : list string :=
  if Js.hasKey idsMap fullId then idsMap else Js.setKey fullId idsMap.

(** The body of the [forEach] callback. *)
Definition scanToken (st : ScanState) (token : Token) : ScanState :=
  let '(idsMap, id) := st in
  if isIdentifier token then (idsMap, id ++ [tvalue token])
  else if negb (isDot token) && negb (Nat.eqb (length id) 0) then
    let fullId := Js.join "." (truncatePrototype id) in
    (recordId fullId idsMap, [])
  else (idsMap, id).

Definition scanTokens (st : ScanState) (toks : list Token) : ScanState :=
  foldl scanToken st toks.

Definition getFileIdsMap (toks : list Token) : list string :=
  fst (scanTokens ([], []) toks).

(** The array [id] left pending after a token stream. *)
Definition pendingId (toks : list Token) : list string :=
  snd (scanTokens ([], []) toks).

(** A token that ends a chain: neither an identifier nor a [.]. *)
Definition isTerminator (t : Token) : bool :=
  negb (isIdentifier t) && negb (isDot t).

(** The identifier values of a run of tokens. *)
Definition chainSegments (chain : list Token) : list string :=
  omap (λ t, if isIdentifier t then Some (tvalue t) else None) chain.

(** *** Namespace matching *)

(** The test of the [provides.every] callback for code identifiers:
    [0 == id.indexOf(provide) && (id.length == provide.length ||
    /[^\w\$]/.test(id[provide.length]))].  Past the end of [id] the index
    reads [undefined], which [test] turns into a word. *)
Definition jsMatches (id provide : string) : bool :=
  bool_decide (Js.indexOf id provide = Some 0)
  && (Nat.eqb (String.length id) (String.length provide)
      || match Js.charAt id (String.length provide) with
         | Some c => Js.isBoundaryChar c
         | None => false
         end).

(** [provide.replace('.', '\\.').replace('$', '\\$')]: a string pattern
    replaces its first occurrence only. *)
Definition escapeProvide (provide : string) : string :=
  Js.replaceFirstChar "$" "\$" (Js.replaceFirstChar "." "\." provide).

(** The source text handed to [new RegExp] for a candidate. *)
Definition docRegExpSource (provide : string) : string :=
  "[^A-Za-z0-9_.$]" +:+ escapeProvide provide +:+ "[^A-Za-z0-9_$]".

(** A memo object: raw usage string to resolved namespace or [null]. *)
Abbreviation Cache := (gmap string (option string)).

Record Checker := mkChecker {
  _docCache : Cache;
  _excludeProvides : option (list string);
  _jsCache : Cache
}.

(** [new RequireChecker(jsFiles, opt_externFiles)]. *)
Definition newChecker : Checker :=
  {| _docCache := ∅; _excludeProvides := None; _jsCache := ∅ |}.

Definition setExcludeProvides (this : Checker) (ps : list string) : Checker :=
  {| _docCache := _docCache this; _excludeProvides := Some ps;
     _jsCache := _jsCache this |}.

(** The [provides.every] loop: the first candidate, in the order of the
    array, that [matches] accepts for [id]. *)
Definition firstMatch (matches : string → string → bool)
    (provides : list string) (id : string) : option string :=
  List.find (matches id) provides.

(** What [cache[id]] reads on a memo object. *)
Inductive MemoValue :=
  | ReadUndefined
  | ReadNull
  | ReadString (s : string)
  | ReadMember (k : string).

Definition readMemo (cache : Cache) (id : string) : MemoValue :=
  match cache !! id with
  | Some (Some s) => ReadString s
  | Some None => ReadNull
  | None => if Js.inherited id then ReadMember id else ReadUndefined
  end.

(** One round of the [for (id in ...)] loops of [getWrongRequiresInFile]:
    a truthy value read from the memo is used as a key, be it a cached
    string or an inherited member; an [undefined] entry is first set to
    [null] and then to the first candidate accepted by [matches], if any;
    a [null] (or empty) entry contributes nothing. *)
Definition resolveUsage (matches : string → string → bool)
    (provides : list string) (st : Cache * list string) (id : string)
    : Cache * list string :=
  let '(cache, map) := st in
  match readMemo cache id with
  | ReadString cached =>
      if Js.truthy cached then (cache, Js.setKey cached map) else (cache, map)
  | ReadMember k => (cache, Js.setKey (Js.memberText k) map)
  | ReadNull => (cache, map)
  | ReadUndefined =>
      match firstMatch matches provides id with
      | Some provide => (<[id := Some provide]> cache, Js.setKey provide map)
      | None => (<[id := None]> cache, map)
      end
  end.

Definition resolveUsages (matches : string → string → bool)
    (provides : list string) (cache : Cache) (ids : list string)
    : Cache * list string :=
  foldl (resolveUsage matches provides) (cache, []) ids.

(** A memo object agrees with a candidate array when each entry is what
    the loop over that array finds; it is coherent when, moreover, no entry
    is the empty string, which reads as false. *)
Definition cacheAgrees (matches : string → string → bool)
    (provides : list string) (cache : Cache) : Prop :=
  ∀ id v, cache !! id = Some v → v = firstMatch matches provides id.

Definition cacheCoherent (matches : string → string → bool)
    (provides : list string) (cache : Cache) : Prop :=
  cacheAgrees matches provides cache
  ∧ ∀ id, cache !! id ≠ Some (Some EmptyString).

(** The invariant of the resolution loop: the memo agrees with the
    candidates, and an empty-string entry has already been counted in the
    key set. *)
Definition loopInv (matches : string → string → bool)
    (provides : list string) (st : Cache * list string) : Prop :=
  cacheAgrees matches provides st.1
  ∧ ∀ id, st.1 !! id = Some (Some EmptyString) → EmptyString ∈ st.2.

(** ['Block' == comment.type && /^\*[^\*]/.test(comment.value)]. *)
Definition isDocComment (c : Comment) : bool :=
  String.eqb "Block" (ctype c)
  && match cvalue c with
     | String "*" (String c1 _) => negb (Ascii.eqb c1 "*")
     | _ => false
     end.

Record WrongRequires := mkWrongRequires {
  missingRequires : list string;
  unnecessaryRequires : list string
}.

Section Checking.

(** [jsdocParser.getTypes]: the doc-type extractor, a collaborator. *)
Context (getTypes : string → list string).

(** The regular-expression engine: [regExpSearch source subject] is
    [-1 < subject.search(new RegExp(source))]. *)
Context (regExpSearch : string → string → bool).

(** The test of the [provides.every] callback for doc types. *)
Definition docMatches (id provide : string) : bool :=
  regExpSearch (docRegExpSource provide) (" " +:+ id +:+ " ").

(** The first [jsdocTypesMap]: all types of all doc comments. *)
Definition collectTypes (cs : list Comment) : list string :=
  foldl (λ m c,
           if isDocComment c
           then foldl (λ m' type, Js.setKey type m') m (getTypes (cvalue c))
           else m)
        [] cs.

(** The raw usages of a file: identifier chains and doc types. *)
Definition codeUsages (jsSource : Source) : list string :=
  match syntaxTree jsSource with
  | Some tree => from_option getFileIdsMap [] (tokens tree)
  | None => []
  end.

Definition docUsages (jsSource : Source) : list string :=
  match syntaxTree jsSource with
  | Some tree => from_option collectTypes [] (comments tree)
  | None => []
  end.

(** [p] is the resolution of a code-identifier usage of the file. *)
Definition usedInCode (provides' : list string) (jsSource : Source)
    (p : string) : Prop :=
  ∃ id, id ∈ codeUsages jsSource ∧ firstMatch jsMatches provides' id = Some p.

(** [p] is the resolution of a doc-type usage of the file. *)
Definition usedInDocs (provides' : list string) (jsSource : Source)
    (p : string) : Prop :=
  ∃ id, id ∈ docUsages jsSource ∧ firstMatch docMatches provides' id = Some p.

(** [type] is written in a doc comment of the tree: a comment of type
    [Block] whose text starts with a [*] that a character other than [*]
    follows, and from which [getTypes] returns [type]. *)
Definition docTypeOf (tree : SyntaxTree) (type : string) : Prop :=
  ∃ cs c c1 rest,
    comments tree = Some cs ∧ c ∈ cs
    ∧ ctype c = "Block"
    ∧ cvalue c = String "*" (String c1 rest) ∧ c1 ≠ "*"%char
    ∧ type ∈ getTypes (cvalue c).

(** Both memo objects of a checker are coherent with the candidates. *)
Definition checkerCoherent (provides' : list string) (this : Checker) : Prop :=
  cacheCoherent jsMatches provides' (_jsCache this)
  ∧ cacheCoherent docMatches provides' (_docCache this).

(** *** [RequireChecker.prototype.getWrongRequiresInFile] *)

Definition getWrongRequiresInFile (this : Checker) (jsSource : Source)
    (provides' : list string) : Checker * WrongRequires :=
  match syntaxTree jsSource with
  | None => (this, mkWrongRequires [] [])
  | Some tree =>
      let '(jsCache, usedNamespacesMap) :=
        match tokens tree with
        | Some toks =>
            resolveUsages jsMatches provides' (_jsCache this)
              (getFileIdsMap toks)
        | None => (_jsCache this, [])
        end in
      let '(docCache, jsdocTypesMap) :=
        match comments tree with
        | Some cs =>
            resolveUsages docMatches provides' (_docCache this)
              (collectTypes cs)
        | None => (_docCache this, [])
        end in
      let unnecessary :=
        filter (λ require,
                  negb (Js.hasKey usedNamespacesMap require)
                  && negb (Js.hasKey jsdocTypesMap require))
               (requires jsSource) in
      let provideRequireMap :=
        foldl (λ m id, Js.setKey id m) []
              (provides jsSource ++ requires jsSource) in
      let missing :=
        filter (λ id, negb (Js.hasKey provideRequireMap id))
               usedNamespacesMap in
      ({| _docCache := docCache;
          _excludeProvides := _excludeProvides this;
          _jsCache := jsCache |},
       mkWrongRequires (Js.sort missing) (Js.sort unnecessary))
  end.

(** *** [RequireChecker.prototype.getWrongRequires] *)

(** [providesMap]: every provide of every source, once. *)
Definition collectProvides (sources : list Source) : list string :=
  foldl (λ m src, foldl (λ m' provide, Js.setKey provide m') m (provides src))
        [] sources.

(** The candidate array: [providesMap] without the excluded provides,
    sorted in descending order. *)
Definition provideRegistry (this : Checker) (sources : list Source)
    : list string :=
  let providesMap := collectProvides sources in
  let providesMap :=
    match _excludeProvides this with
    | Some excluded =>
        foldl (λ m provide,
                 if Js.hasKey m provide then Js.deleteKey provide m else m)
              providesMap excluded
    | None => providesMap
    end in
  Js.sortDescending providesMap.

(** [obj[path] = value] on the own entries of a path-keyed object. *)
Fixpoint setOwnProp (k : string) (v : list string)
    (obj : list (string * list string)) : list (string * list string) :=
  match obj with
  | [] => [(k, v)]
  | (k', v') :: obj' =>
      if String.eqb k' k then (k, v) :: obj'
      else (k', v') :: setOwnProp k v obj'
  end.

(** [obj[path] = value] for an array [value]: an own entry, except for
    the path [__proto__], where the inherited setter takes the array as
    the prototype and no entry is made. *)
Definition setProp (k : string) (v : list string)
    (obj : list (string * list string)) : list (string * list string) :=
  if String.eqb k "__proto__" then obj else setOwnProp k v obj.

Record WrongRequiresMaps := mkWrongRequiresMaps {
  missingRequiresMap : list (string * list string);
  unnecessaryRequiresMap : list (string * list string)
}.

(** The [jsSources.forEach] loop of [getWrongRequires]. *)
Definition checkSource (provides' : list string)
    (st : Checker * WrongRequiresMaps) (jsSource : Source)
    : Checker * WrongRequiresMaps :=
  let '(this, maps) := st in
  let '(this', info) := getWrongRequiresInFile this jsSource provides' in
  let missing := missingRequires info in
  let unnecessary := unnecessaryRequires info in
  (this',
   {| missingRequiresMap :=
        if Nat.eqb (length missing) 0 then missingRequiresMap maps
        else setProp (path jsSource) missing (missingRequiresMap maps);
      unnecessaryRequiresMap :=
        if Nat.eqb (length unnecessary) 0 then unnecessaryRequiresMap maps
        else setProp (path jsSource) unnecessary
               (unnecessaryRequiresMap maps) |}).

(** [utils.findSourcesByJsFiles], a collaborator: it throws or returns
    the parsed sources. *)
Context {Err : Type} (findSourcesByJsFiles : list string → Err + list Source).

(** What reaches the callback: the error, or the two maps. *)
Definition getWrongRequires (this : Checker) (jsFiles externFiles : list string)
    : Checker * (Err + WrongRequiresMaps) :=
  match findSourcesByJsFiles jsFiles with
  | inl e => (this, inl e)
  | inr jsSources =>
      match
        (if Nat.eqb (length externFiles) 0 then inr []
         else findSourcesByJsFiles externFiles)
      with
      | inl e => (this, inl e)
      | inr externSources =>
          let provides' := provideRegistry this (jsSources ++ externSources) in
          let '(this', maps) :=
            foldl (checkSource provides') (this, mkWrongRequiresMaps [] [])
                  jsSources in
          (this', inr maps)
      end
  end.

End Checking.

End RequireChecker.

(** ** The loader routine of a generated artifact

    The routine that [_getDepFileContentInternal] emits runs in the
    browser.  Its state is modelled here: the scripts appended to the head
    element and the calls of the completion hook form one event log. *)

Module Loader.

Record Dep := mkDep { src : string; isModule : bool }.

Inductive Event :=
  | ScriptInjected (scriptText : string)
  | SourceLoadHook.

(** [writeScript(scriptText, src, isModule)]; [None] is [null].  A script
    element is identified with its text. *)
Definition writeScript (log : list Event) (scriptText : option string)
    (src' : string) (isModule' : bool) : list Event :=
  match scriptText with
  | None => log
  | Some text =>
      if Js.truthy text then
        log ++ [ScriptInjected
                  (if isModule' then
                     "goog.loadModule(function(exports) {"
                     +:+ Js.dq +:+ "use strict" +:+ Js.dq +:+ ";" +:+ text
                     +:+ Js.nl +:+ ";return exports" +:+ "});"
                     +:+ Js.nl +:+ "//# sourceURL=" +:+ src' +:+ Js.nl
                   else text +:+ Js.nl +:+ "//# sourceURL=" +:+ src')]
      else log
  end.

(** The outcome of one request. *)
Record Response := mkResponse { status : Z; responseText : string }.

(** *** Synchronous strategy *)

(** [loadFileSync(src)]; a request that throws is [None]. *)
Definition loadFileSync (xhr : string → option Response) (src' : string)
    : option string :=
  match xhr src' with
  | Some r =>
      if (status r =? 0)%Z || (status r =? 200)%Z
      then Some (responseText r) else None
  | None => None
  end.

Definition loadSync (xhr : string → option Response) (deps : list Dep)
    : list Event :=
  foldl (λ log dep,
           writeScript log (loadFileSync xhr (src dep)) (src dep) (isModule dep))
        [] deps.

(** *** Asynchronous strategy *)

(** An element of [scriptTexts]: still [undefined], or the stored text
    ([null] when the request failed or came back empty). *)
Inductive Slot :=
  | Undefined
  | Stored (scriptText : option string).

Record State := mkState {
  scriptTexts : list Slot;
  loadedIndex : nat;
  log : list Event
}.

Section Async.

Context (deps : list Dep).

(** ['function' == typeof window.onGoogleClosureSourceLoad]. *)
Context (hookIsFunction : bool).

Definition initial : State :=
  {| scriptTexts := replicate (length deps) Undefined;
     loadedIndex := 0;
     log := [] |}.

(** [writeNextScript], with the depth of its self-calls bounded by
    [fuel]. *)
Fixpoint writeNextScriptRec (fuel : nat) (st : State) : State :=
  if length deps <=? loadedIndex st then
    if hookIsFunction
    then {| scriptTexts := scriptTexts st; loadedIndex := loadedIndex st;
            log := log st ++ [SourceLoadHook] |}
    else st
  else
    match scriptTexts st !! loadedIndex st, deps !! loadedIndex st with
    | Some (Stored text), Some dep =>
        match fuel with
        | 0 => st
        | S fuel' =>
            writeNextScriptRec fuel'
              {| scriptTexts := scriptTexts st;
                 loadedIndex := S (loadedIndex st);
                 log := writeScript (log st) text (src dep) (isModule dep) |}
        end
    | _, _ => st
    end.

(** [writeNextScript()]: every self-call increments [loadedIndex], which
    stays below [deps.length], so this fuel is never used up. *)
Definition writeNextScript (st : State) : State :=
  writeNextScriptRec (length deps - loadedIndex st) st.

(** [scriptTexts[index] = scriptText]; an index past the end extends the
    array with holes. *)
Definition store (index : nat) (v : Slot) (arr : list Slot) : list Slot :=
  if index <? length arr then <[index := v]> arr
  else arr ++ replicate (index - length arr) Undefined ++ [v].

(** [400 > xhr.status && xhr.responseText ? xhr.responseText : null]. *)
Definition responseTextOrNull (r : Response) : option string :=
  if (status r <? 400)%Z && Js.truthy (responseText r)
  then Some (responseText r) else None.

(** The [onreadystatechange] handler of request [index] at
    [readyState] 4, followed by the callback given to [loadFile]. *)
Definition onLoad (st : State) (ev : nat * Response) : State :=
  let '(index, r) := ev in
  writeNextScript
    {| scriptTexts := store index (Stored (responseTextOrNull r)) (scriptTexts st);
       loadedIndex := loadedIndex st;
       log := log st |}.

(** The routine run against a sequence of request completions. *)
Definition run (completions : list (nat * Response)) : State :=
  foldl onLoad initial completions.

(** The array after a sequence of completions, each text stored at the
    index of its request. *)
Definition slotsAfter (completions : list (nat * Response)) : list Slot :=
  foldl (λ arr ev, store ev.1 (Stored (responseTextOrNull ev.2)) arr)
        (replicate (length deps) Undefined) completions.

(** The first unavailable index: the number of leading stored slots. *)
Fixpoint available (arr : list Slot) : nat :=
  match arr with
  | Stored _ :: arr' => S (available arr')
  | _ => 0
  end.

(** The calls of [writeScript] for a run of slots with their
    dependencies, in the order of the list. *)
Definition writesFrom (log0 : list Event) (entries : list (Slot * Dep))
    : list Event :=
  foldl (λ l e,
           match e.1 with
           | Stored text => writeScript l text (src e.2) (isModule e.2)
           | Undefined => l
           end)
        log0 entries.

(** The log once the slots below [k] are written; the hook is called
    when [k] has reached the end of a non-empty list. *)
Definition logUpTo (arr : list Slot) (k : nat) : list Event :=
  writesFrom [] (take k (zip arr deps))
  ++ (if hookIsFunction && (length deps <=? k) && (0 <? length deps)
      then [SourceLoadHook] else []).

End Async.

End Loader.

(** ** ModuleDepsWriter *)

Module ModuleDepsWriter.

Local Unset Elimination Schemes.

(** A JSON value, as handed to [JSON.stringify]. *)
Inductive Json :=
  | JNull
  | JBool (b : bool)
  | JNumber (n : Z)
  | JString (s : string)
  | JArray (items : list Json)
  | JObject (fields : list (string * Json)).

(** A dependency of a module: a source with its path and format. *)
Record DepSource := mkDepSource { spath : string; sIsModule : bool }.

(** A module of the tree.  [wrapper] names the custom renderer, if any. *)
Inductive JsModule := mkJsModule {
  name : string;
  parent : option string;
  deps : list DepSource;
  wrapper : option string;
  subModules : list JsModule
}.

Local Set Elimination Schemes.

(** The module parser, reduced to what the writer reads from it. *)
Record ModuleParser := mkModuleParser {
  outputPathPrefix : string;
  productionUri : string;
  jsonModuleInfo : Json;
  jsonModuleUris : Json
}.

Record Writer := mkWriter {
  _loadAsync : bool;
  _cache : option string;
  _definesMap : option Json;
  _parser : ModuleParser
}.

(** The head of the generated routine, up to [writeScript]. *)
Definition scriptPrologue : string :=
  Js.unlines
    [ "(function(deps) {";
      "  var headElement = document.getElementsByTagName('head')[0];";
      EmptyString;
      "  if (!headElement) {";
      "    return;";
      "  }";
      EmptyString;
      "  var writeScript = function(scriptText, src, isModule) {";
      "    if (!scriptText) {";
      "      return;";
      "    }";
      EmptyString;
      "    if (isModule) {";
      "      scriptText = 'goog.loadModule(function(exports) {' +";
      "          '" +:+ Js.dq +:+ "use strict" +:+ Js.dq +:+ ";' + scriptText +";
      "          '\n' +  // terminate any trailing single line comment.";
      "          ';return exports' +";
      "          '});' +";
      "          '\n//# sourceURL=' + src + '\n';";
      "    } else {";
      "      scriptText += '\n//# sourceURL=' + src;";
      "    }";
      EmptyString;
      "    var scriptElement = document.createElement('script');";
      EmptyString;
      "    try {";
      "      // doesn't work on ie...";
      "      scriptElement.appendChild(document.createTextNode(scriptText));";
      "    } catch(e) {";
      "      // IE has funky script nodes";
      "      scriptElement.text = data;";
      "    }";
      EmptyString;
      "    headElement.appendChild(scriptElement);";
      "  };" ].

(** The tail of the routine under the asynchronous strategy. *)
Definition asyncLoader : string :=
  Js.unlines
    [ "  var loadFile = function(src, index, callback) {";
      "    var xhr = new XMLHttpRequest();";
      "    xhr.open('get', src);";
      "    xhr.send();";
      "    xhr.onreadystatechange = function() {";
      "      if (4 != xhr.readyState) {";
      "        return;";
      "      }";
      EmptyString;
      "      var responseText = 400 > xhr.status && xhr.responseText ?";
      "          xhr.responseText : null;";
      "      callback(index, responseText);";
      "    };";
      "  };";
      EmptyString;
      "  var loadedIndex = 0;";
      "  var scriptTexts = [];";
      "  scriptTexts.length = deps.length;";
      "  var writeNextScript = function() {";
      "    if (loadedIndex >= deps.length) {";
      "      if ('function' == typeof window.onGoogleClosureSourceLoad) {";
      "        window.onGoogleClosureSourceLoad();";
      "      }";
      EmptyString;
      "      return;";
      "    }";
      EmptyString;
      "    if (undefined === scriptTexts[loadedIndex]) {";
      "      return;";
      "    }";
      EmptyString;
      "    writeScript(scriptTexts[loadedIndex], deps[loadedIndex][0],";
      "        deps[loadedIndex][1]);";
      "    loadedIndex++;";
      "    writeNextScript();";
      "  };";
      EmptyString;
      "  for (var i = 0; i < deps.length; i++) {";
      "    loadFile(deps[i][0], i, function(index, scriptText) {";
      "      scriptTexts[index] = scriptText;";
      "      writeNextScript();";
      "    });";
      "  }" ].

(** The tail of the routine under the synchronous strategy. *)
Definition syncLoader : string :=
  Js.unlines
    [ "  var loadFileSync = function(src) {";
      "    try {";
      "      var xhr = new XMLHttpRequest();";
      "      xhr.open('get', src, false);";
      "      xhr.send();";
      EmptyString;
      "      return xhr.status == 0 || xhr.status == 200 ?";
      "          xhr.responseText : null;";
      "    } catch (err) {";
      "      return null;";
      "    }";
      "  };";
      EmptyString;
      "  for (var i = 0; i < deps.length; i++) {";
      "    var src = deps[i][0];";
      "    var isModule = deps[i][1];";
      "    var scriptText = loadFileSync(src);";
      "    writeScript(scriptText, src, isModule);";
      "  }" ].

(** The header of the root artifact. *)
Definition rootHeader : string :=
  "CLOSURE_DEFINES=%defines%;" +:+ Js.nl
  +:+ "CLOSURE_NO_DEPS=true;" +:+ Js.nl
  +:+ "MODULE_USE_DEBUG_MODE=true;" +:+ Js.nl
  +:+ "MODULE_INFO=%moduleInfo%;" +:+ Js.nl
  +:+ "MODULE_URIS=%moduleUris%;" +:+ Js.nl +:+ Js.nl.

(** How a save of the cache ends: its callback gets [null], its callback
    gets an error, or the call itself throws. *)
Inductive SaveOutcome (Err : Type) :=
  | SaveDone
  | SaveFailed (err : Err)
  | SaveThrown (err : Err).
Arguments SaveDone {Err}.
Arguments SaveFailed {Err} err.
Arguments SaveThrown {Err} err.

(** One call of [utils.writeFile]: the name and the content. *)
Definition Attempt : Type := string * string.

(** What a run of [build] leaves behind: the errors printed with
    [console.error], the writes attempted in order, and the argument of
    the caller's callback ([None] is [null]). *)
Record BuildResult (Err : Type) := mkBuildResult {
  logged : list Err;
  attempted : list Attempt;
  reported : option Err
}.
Arguments mkBuildResult {Err}.
Arguments logged {Err}.
Arguments attempted {Err}.
Arguments reported {Err}.

Section Writing.

(** Built-ins of the platform. *)
Context (JSON_stringify : Json → string).
Context (path_dirname path_resolve : string → string).
Context (path_relative : string → string → string).

(** The custom renderers: [runWrapper w this module] is the text that the
    wrapper named [w] returns for [(this, module)]. *)
Context (runWrapper : string → Writer → JsModule → string).

(** Collaborators.  [writeFile history content filename] is the error
    passed to the callback of [utils.writeFile], given the writes
    attempted before; [parse] is what [ModuleParser.parse] passes to its
    callback; [save] is how [Cache.save] ends. *)
Context {Err : Type}.
Context (writeFile : list Attempt → string → string → option Err).
Context (parse : ModuleParser → Err + JsModule).
Context (save : string → SaveOutcome Err).

(** *** [_getDepFileContentInternal] *)

Definition _getDepFileContentInternal (this : Writer) (module : JsModule)
    : string :=
  let result :=
    match parent module with
    | Some _ => EmptyString
    | None => rootHeader
    end in
  let webUriPrefix :=
    path_dirname (productionUri (_parser this) +:+ name module +:+ ".js") in
  let depFilename :=
    path_dirname
      (path_resolve (outputPathPrefix (_parser this) +:+ name module +:+ ".js")) in
  let depsArr :=
    JSON_stringify
      (JArray
         (map (λ source,
                 JArray
                   [JString (webUriPrefix +:+ "/"
                             +:+ path_relative depFilename (spath source));
                    JBool (sIsModule source)])
              (deps module))) in
  result +:+ scriptPrologue
  +:+ (if _loadAsync this then asyncLoader else syncLoader)
  +:+ "})(" +:+ depsArr +:+ ");" +:+ Js.nl.

(** *** [_getDepFileContent] *)

(** The chain of six [replace] calls. *)
Definition substitute (this : Writer) (module : JsModule) (text : string)
    : string :=
  let jsonDefines :=
    JSON_stringify (default (JObject []) (_definesMap this)) in
  let jsonModuleInfo' := JSON_stringify (jsonModuleInfo (_parser this)) in
  let jsonModuleUris' := JSON_stringify (jsonModuleUris (_parser this)) in
  let webUriPrefix :=
    path_dirname (productionUri (_parser this) +:+ name module +:+ ".js") in
  let depFilename :=
    path_dirname
      (path_resolve (outputPathPrefix (_parser this) +:+ name module +:+ ".js")) in
  let files :=
    JSON_stringify
      (JArray
         (map (λ source,
                 JString (webUriPrefix +:+ "/"
                          +:+ path_relative depFilename (spath source)))
              (deps module))) in
  Js.replaceAll "%files%" files
    (Js.replaceAll "%productionUri%" (productionUri (_parser this))
       (Js.replaceAll "%name%" (name module)
          (Js.replaceAll "%moduleUris%" jsonModuleUris'
             (Js.replaceAll "%moduleInfo%" jsonModuleInfo'
                (Js.replaceAll "%defines%" jsonDefines text))))).

Definition _getDepFileContent (this : Writer) (module : JsModule) : string :=
  let wrapper' :=
    match wrapper module with
    | Some w => runWrapper w this module
    | None => _getDepFileContentInternal this module
    end in
  substitute this module wrapper'.

(** *** [_createDepFiles] *)

Definition filename (this : Writer) (module : JsModule) : string :=
  outputPathPrefix (_parser this) +:+ name module +:+ ".js".

(** The write of the module's artifact, then [async.eachSeries] over the
    sub-modules: one after the other, stopping at the first error. *)
Fixpoint _createDepFiles (this : Writer) (module : JsModule)
    (history : list Attempt) : list Attempt * option Err :=
  let content := _getDepFileContent this module in
  let history' := history ++ [(filename this module, content)] in
  match writeFile history content (filename this module) with
  | Some err => (history', Some err)
  | None =>
      (fix eachSeries (subs : list JsModule) (h : list Attempt)
         : list Attempt * option Err :=
         match subs with
         | [] => (h, None)
         | subModule :: subs' =>
             match _createDepFiles this subModule h with
             | (h', Some err) => (h', Some err)
             | (h', None) => eachSeries subs' h'
             end
         end) (subModules module) history'
  end.

Definition _build (this : Writer) (rootModule : JsModule)
    : list Attempt * option Err :=
  _createDepFiles this rootModule [].

(** *** [build] *)

Definition build (this : Writer) : BuildResult Err :=
  match parse (_parser this) with
  | inl err => mkBuildResult [] [] (Some err)
  | inr rootModule =>
      let '(logged', err) :=
        match _cache this with
        | Some file =>
            match save file with
            | SaveDone => ([], None)
            | SaveFailed e => ([e], None)
            | SaveThrown e => ([], Some e)
            end
        | None => ([], None)
        end in
      match err with
      | None =>
          let '(history, r) := _build this rootModule in
          mkBuildResult logged' history r
      | Some e => mkBuildResult logged' [] (Some e)
      end
  end.

(** The artifact of a module: its file name and its content. *)
Definition artifact (this : Writer) (module : JsModule) : Attempt :=
  (filename this module, _getDepFileContent this module).

(** Writes in strict sequence: each artifact is attempted after the one
    before it has succeeded, and the first failure ends the sequence. *)
Fixpoint writeSerial (history : list Attempt) (artifacts : list Attempt)
    : list Attempt * option Err :=
  match artifacts with
  | [] => (history, None)
  | a :: rest =>
      match writeFile history a.2 a.1 with
      | Some err => (history ++ [a], Some err)
      | None => writeSerial (history ++ [a]) rest
      end
  end.

End Writing.

(** The modules of a tree, each parent before its sub-modules, the
    sub-modules in their order, depth first. *)
Fixpoint preorder (module : JsModule) : list JsModule :=
  module :: flat_map preorder (subModules module).

End ModuleDepsWriter.

(** ** Sample inputs *)

Module Examples.

Import RequireChecker.

(** Modelled from the spec: [jsdocParser.getTypes], which is not among
    the sources; the spec has it map a comment body to the list of its raw
    type-expression substrings.  This stand-in returns the texts written
    between braces. *)
Fixpoint bracedTypesGo (cur : option string) (s : string) : list string :=
  match s with
  | EmptyString => []
  | String c s' =>
      match cur with
      | None =>
          if Ascii.eqb c "{" then bracedTypesGo (Some EmptyString) s'
          else bracedTypesGo None s'
      | Some acc =>
          if Ascii.eqb c "}" then acc :: bracedTypesGo None s'
          else bracedTypesGo (Some (acc +:+ String c EmptyString)) s'
      end
  end.

Definition bracedTypes (comment : string) : list string :=
  bracedTypesGo None comment.

Definition ident (v : string) : Token := mkToken "Identifier" v.
Definition punct (v : string) : Token := mkToken "Punctuator" v.
Definition keyword (v : string) : Token := mkToken "Keyword" v.

(** [/** @param {Array.<ns.Foo>} x */ function f(x) {}] *)
Definition docOnlySource : Source :=
  {| path := "doc.js";
     provides := [];
     requires := [];
     syntaxTree :=
       Some {| tokens :=
                 Some [keyword "function"; ident "f"; punct "("; ident "x";
                       punct ")"; punct "{"; punct "}"];
               comments :=
                 Some [mkComment "Block" "* @param {Array.<ns.Foo>} x "] |} |}.

(** [a.b.C.prototype.method = function() {};] *)
Definition prototypeTokens : list Token :=
  [ident "a"; punct "."; ident "b"; punct "."; ident "C"; punct ".";
   ident "prototype"; punct "."; ident "method"; punct "=";
   keyword "function"; punct "("; punct ")"; punct "{"; punct "}"; punct ";"].

Definition prototypeSource : Source :=
  {| path := "proto.js";
     provides := [];
     requires := [];
     syntaxTree := Some {| tokens := Some prototypeTokens; comments := None |} |}.

(** [goog.require('ns.Unused'); /**** banner ****/ var x = ns.Used.y;] with
    the two calls of [goog.require] left out of the tokens. *)
Definition unusedRequireSource : Source :=
  {| path := "unused.js";
     provides := [];
     requires := ["ns.Unused"; "ns.Used"];
     syntaxTree :=
       Some {| tokens :=
                 Some [keyword "var"; ident "x"; punct "="; ident "ns";
                       punct "."; ident "Used"; punct "."; ident "y";
                       punct ";"];
               comments := Some [mkComment "Block" "*** banner ***"] |} |}.

(** Three requires: [ns.Used] is used in the code, [ns.DocOnly] in a doc
    comment only, and [ns.Unused] only in a banner and in a line comment,
    which are no doc comments. *)
Definition docRequireSource : Source :=
  {| path := "docreq.js";
     provides := [];
     requires := ["ns.DocOnly"; "ns.Unused"; "ns.Used"];
     syntaxTree :=
       Some {| tokens :=
                 Some [keyword "var"; ident "x"; punct "="; ident "ns";
                       punct "."; ident "Used"; punct "."; ident "y";
                       punct ";"];
               comments :=
                 Some [mkComment "Block" "* @param {ns.DocOnly} x ";
                       mkComment "Block" "*** {ns.Unused} ***";
                       mkComment "Line" "* {ns.Unused}"] |} |}.

(** [goog.require('valueOf'); this.constructor.prototype.x = 1;
    toString.x;] with the call of [goog.require] left out of the tokens:
    chains and a require that are named like members of
    [Object.prototype]. *)
Definition memberNamesSource : Source :=
  {| path := "members.js";
     provides := [];
     requires := ["valueOf"];
     syntaxTree :=
       Some {| tokens :=
                 Some [keyword "this"; punct "."; ident "constructor";
                       punct "."; ident "prototype"; punct "."; ident "x";
                       punct "="; mkToken "Numeric" "1"; punct ";";
                       ident "toString"; punct "."; ident "x"; punct ";"];
               comments := None |} |}.

(** A file that could not be parsed. *)
Definition unparsedSource : Source :=
  {| path := "broken.js";
     provides := ["ns.Broken"];
     requires := ["ns.Used"];
     syntaxTree := None |}.

(** Two files that provide [a.b] and [a.b.C]. *)
Definition providerSources : list Source :=
  [ {| path := "b.js"; provides := ["a.b"]; requires := [];
       syntaxTree := None |};
    {| path := "c.js"; provides := ["a.b.C"]; requires := ["a.b"];
       syntaxTree := None |} ].

(** Three dependencies, the second in module format, and the requests
    completing in the order 2, 0, 1. *)
Definition threeDeps : list Loader.Dep :=
  [Loader.mkDep "/js/a.js" false; Loader.mkDep "/js/b.js" true;
   Loader.mkDep "/js/c.js" false].

Definition threeResponses : list Loader.Response :=
  [Loader.mkResponse 200 "var a;"; Loader.mkResponse 200 "var b;";
   Loader.mkResponse 200 "var c;"].

Definition completions201 : list (nat * Loader.Response) :=
  [(2, Loader.mkResponse 200 "var c;"); (0, Loader.mkResponse 200 "var a;");
   (1, Loader.mkResponse 200 "var b;")].

(** A root module with one child; both use the wrapper [w]. *)
Definition childModule : ModuleDepsWriter.JsModule :=
  ModuleDepsWriter.mkJsModule "C" (Some "R")
    [ModuleDepsWriter.mkDepSource "src/f1.js" false;
     ModuleDepsWriter.mkDepSource "src/f2.js" false;
     ModuleDepsWriter.mkDepSource "src/f3.js" true]
    (Some "w") [].

Definition rootModule : ModuleDepsWriter.JsModule :=
  ModuleDepsWriter.mkJsModule "R" None
    [ModuleDepsWriter.mkDepSource "src/f1.js" false;
     ModuleDepsWriter.mkDepSource "src/f2.js" false]
    (Some "w") [childModule].

Definition cachedWriter : ModuleDepsWriter.Writer :=
  ModuleDepsWriter.mkWriter false (Some "cache.json") None
    (ModuleDepsWriter.mkModuleParser "out/" "/static/"
       (ModuleDepsWriter.JObject []) (ModuleDepsWriter.JObject [])).

(** A stand-in for [JSON.stringify] that tells the kinds of values
    apart, and stand-ins for the functions of [path]. *)
Definition stubStringify (j : ModuleDepsWriter.Json) : string :=
  match j with
  | ModuleDepsWriter.JArray items =>
      "[" +:+ String.concat ","
                (map (λ item,
                        match item with
                        | ModuleDepsWriter.JString s => s
                        | _ => "?"
                        end) items) +:+ "]"
  | ModuleDepsWriter.JObject _ => "{}"
  | _ => "null"
  end.

Definition stubDirname (p : string) : string := "/static".
Definition stubResolve (p : string) : string := p.
Definition stubRelative (from to : string) : string := to.

(** A wrapper that uses every placeholder. *)
Definition placeholderWrapper (w : string) (this : ModuleDepsWriter.Writer)
    (module : ModuleDepsWriter.JsModule) : string :=
  "%defines%|%moduleInfo%|%moduleUris%|%name%|%productionUri%|%files%".

(** Every write succeeds; the write of [out/R.js] fails. *)
Definition writeOk (history : list ModuleDepsWriter.Attempt)
    (content filename : string) : option string := None.

Definition writeRootFails (history : list ModuleDepsWriter.Attempt)
    (content filename : string) : option string :=
  if String.eqb filename "out/R.js" then Some "EACCES" else None.

Definition parseOk (parser : ModuleDepsWriter.ModuleParser)
    : string + ModuleDepsWriter.JsModule :=
  inr rootModule.

(** The call of [save] throws; its callback gets an error. *)
Definition saveThrows (file : string) : ModuleDepsWriter.SaveOutcome string :=
  ModuleDepsWriter.SaveThrown "ENOSPC".

Definition saveFails (file : string) : ModuleDepsWriter.SaveOutcome string :=
  ModuleDepsWriter.SaveFailed "ENOSPC".

End Examples.

(** ** The console report of the require checker *)

Module Report.

Import RequireChecker.

(** An element of the two info arrays: a path with its namespaces. *)
Definition Item : Type := string * list string.

(** The order of the comparator given to [sort]:
    [a.path > b.path ? 1 : a.path < b.path ? -1 : 0]. *)
Definition byPath (a b : Item) : Prop := String.le a.1 b.1.

Global Instance byPath_dec : RelDecision byPath.
Proof. intros a b. unfold byPath. apply _. Defined.

(** The info array of a map: one item per key, sorted by path. *)
Definition infoOf (map : list Item) : list Item := merge_sort byPath map.

(** The tab character of ['\t' + require]. *)
Definition tab : string := String "009" EmptyString.

(** What the [forEach] over an info array prints for one item. *)
Definition itemLines (item : Item) : list string :=
  item.1 :: map (λ require, tab +:+ require) item.2.

(** [RequireChecker.prototype._printResult]: the arguments of the calls
    of [console.log], in order. *)
Definition _printResult (missingRequiresMap unnecessaryRequiresMap : list Item)
    : list string :=
  let missingRequiresInfo := infoOf missingRequiresMap in
  let unnecessaryRequiresInfo := infoOf unnecessaryRequiresMap in
  ["Missing requires: " +:+ pretty (length missingRequiresInfo)]
  ++ flat_map itemLines missingRequiresInfo
  ++ (if Nat.eqb (length missingRequiresInfo) 0 then [] else [Js.nl])
  ++ ["Unnecessary requires: " +:+ pretty (length unnecessaryRequiresInfo)]
  ++ flat_map itemLines unnecessaryRequiresInfo.

End Report.

(** ** Sample runs *)

Module RunExamples.

Import RequireChecker Examples.

(** A discovery that knows two lists of files and fails on any other. *)
Definition findSample (files : list string) : string + list Source :=
  if bool_decide (files = ["src"]) then
    inr [prototypeSource; unusedRequireSource; docOnlySource]
  else if bool_decide (files = ["externs"]) then inr providerSources
  else inl "ENOENT".

(** Two maps of a report, the first one in two orders of insertion. *)
Definition sampleMissing : list Report.Item :=
  [("b.js", ["ns.B"; "ns.C"]); ("a.js", ["ns.A"])].

Definition sampleMissingReordered : list Report.Item :=
  [("a.js", ["ns.A"]); ("b.js", ["ns.B"; "ns.C"])].

Definition sampleUnnecessary : list Report.Item := [("c.js", ["ns.D"])].

End RunExamples.

(** ** The scripts of a dependency list *)

Module LoaderViews.

Import Loader.

(** The script element made for a dependency whose file holds [text]:
    for a module the text as the body of a [goog.loadModule] callback in
    strict mode, otherwise the text itself, each followed by the comment
    that names the source. *)
Definition scriptFor (dep : Dep) (text : string) : Event :=
  ScriptInjected
    (if isModule dep
     then "goog.loadModule(function(exports) {" +:+ Js.dq +:+ "use strict"
          +:+ Js.dq +:+ ";" +:+ text +:+ Js.nl +:+ ";return exports});"
          +:+ Js.nl +:+ "//# sourceURL=" +:+ src dep +:+ Js.nl
     else text +:+ Js.nl +:+ "//# sourceURL=" +:+ src dep).

(** What one call of [writeScript] adds to the log for a dependency. *)
Definition scriptsOf (text : option string) (dep : Dep) : list Event :=
  writeScript [] text (src dep) (isModule dep).

(** What a slot with its dependency adds to the log. *)
Definition entryScripts (e : Slot * Dep) : list Event :=
  match e.1 with
  | Stored text => scriptsOf text e.2
  | Undefined => []
  end.

(** The scripts of a dependency list in its order, each dependency with
    the response of its request under the asynchronous strategy. *)
Definition scriptsInOrder (deps : list Dep) (responses : list Response)
    : list Event :=
  flat_map (λ e, scriptsOf (responseTextOrNull e.2) e.1) (zip deps responses).

(** The requests of [Examples.threeDeps], answered as in
    [Examples.threeResponses]; any other request throws. *)
Definition xhrSample (src' : string) : option Response :=
  if String.eqb src' "/js/a.js" then Some (mkResponse 200 "var a;")
  else if String.eqb src' "/js/b.js" then Some (mkResponse 200 "var b;")
  else if String.eqb src' "/js/c.js" then Some (mkResponse 200 "var c;")
  else None.

End LoaderViews.

(** ** Texts with placeholders *)

Module Templates.

Import Js.

(** A text in which the pattern has no match: the scan of [replaceAll]
    leaves it as it is, whatever the replacement and the text passed
    before it are. *)
Definition unmatched (pat s : string) : Prop :=
  ∀ repl before, replaceAllGo pat repl before 0 s = s.

End Templates.

(** * Properties *)

Module JsFacts.
Import Js.

Lemma inherited_not_proto (k : string) :
  inherited k = false → k ≠ "__proto__".
Proof. by intros Hk ->. Qed.

Lemma elem_of_setKey (k x : string) (obj : list string) :
  x ∈ setKey k obj ↔ (x = k ∧ k ≠ "__proto__") ∨ x ∈ obj.
Proof.
  unfold setKey. destruct (String.eqb_spec k "__proto__") as [->|Hp].
  - split; [auto|]. by intros [[_ ?]|?].
  - case_decide as Hk.
    + split; [auto|]. by intros [[-> _]|?].
    + rewrite elem_of_app, list_elem_of_singleton. tauto.
Qed.

Lemma NoDup_setKey (k : string) (obj : list string) :
  NoDup obj → NoDup (setKey k obj).
Proof.
  intros Hnd. unfold setKey. destruct (String.eqb k "__proto__"); [done|].
  case_decide as Hk; [done|].
  apply NoDup_app. split_and!; [done| |apply NoDup_singleton].
  intros x Hx ->%list_elem_of_singleton. done.
Qed.

Lemma hasKey_true (obj : list string) (k : string) :
  hasKey obj k = true ↔ k ∈ obj ∨ inherited k = true.
Proof. unfold hasKey. by rewrite orb_true_iff, bool_decide_eq_true. Qed.

Lemma hasKey_false (obj : list string) (k : string) :
  hasKey obj k = false ↔ (k ∉ obj) ∧ inherited k = false.
Proof. unfold hasKey. by rewrite orb_false_iff, bool_decide_eq_false. Qed.

Lemma elem_of_foldl_setKey (ks obj : list string) (x : string) :
  x ∈ foldl (λ m k, setKey k m) obj ks
  ↔ (x ∈ ks ∧ x ≠ "__proto__") ∨ x ∈ obj.
Proof.
  revert obj. induction ks as [|k ks IH]; intros obj; simpl.
  - rewrite elem_of_nil. tauto.
  - rewrite IH, elem_of_setKey, elem_of_cons. split.
    + intros [?|[[-> ?]|?]]; tauto.
    + intros [[[->|?] ?]|?]; tauto.
Qed.

Lemma NoDup_foldl_setKey (ks obj : list string) :
  NoDup obj → NoDup (foldl (λ m k, setKey k m) obj ks).
Proof.
  revert obj. induction ks as [|k ks IH]; intros obj Hnd; simpl; [done|].
  apply IH, NoDup_setKey, Hnd.
Qed.

Lemma elem_of_sort (l : list string) (x : string) : x ∈ sort l ↔ x ∈ l.
Proof. unfold sort. by rewrite merge_sort_Permutation. Qed.

Lemma elem_of_sortDescending (l : list string) (x : string) :
  x ∈ sortDescending l ↔ x ∈ l.
Proof. unfold sortDescending. by rewrite merge_sort_Permutation. Qed.

Lemma sort_sorted (l : list string) : StronglySorted String.le (sort l).
Proof. apply StronglySorted_merge_sort; apply _. Qed.

Lemma sortDescending_sorted (l : list string) :
  StronglySorted (flip String.le) (sortDescending l).
Proof.
  apply StronglySorted_merge_sort.
  - intros x y z Hxy Hyz. unfold flip in *. by etrans.
  - intros x y. unfold flip. destruct (total String.le x y); auto.
Qed.

Lemma append_cons (a : ascii) (s t : string) :
  String a s +:+ t = String a (s +:+ t).
Proof. reflexivity. Qed.

Lemma append_nil (t : string) : EmptyString +:+ t = t.
Proof. reflexivity. Qed.

Lemma prefix_startsWith (p s : string) :
  String.prefix p s = true ↔ startsWith s p.
Proof.
  revert s. induction p as [|a p IH]; intros s.
  - split; [intros _; by exists s|]. intros _. by destruct s.
  - destruct s as [|b s]; simpl.
    + split; [done|]. intros [rest Hr]. done.
    + destruct (ascii_dec a b) as [->|Hab].
      * rewrite IH. split; intros [rest Hr]; exists rest;
          rewrite append_cons in *; congruence.
      * split; [done|]. intros [rest Hr]. rewrite append_cons in Hr. congruence.
Qed.

Lemma indexOf_zero (s p : string) :
  indexOf s p = Some 0 ↔ startsWith s p.
Proof.
  rewrite <-prefix_startsWith. unfold indexOf.
  destruct s as [|b s].
  - destruct p; simpl; split; congruence.
  - change (String.index 0 p (String b s))
      with (if String.prefix p (String b s) then Some 0
            else match String.index 0 p s with
                 | Some n => Some (S n)
                 | None => None
                 end).
    destruct (String.prefix p (String b s)); [done|].
    destruct (String.index 0 p s); split; congruence.
Qed.

Lemma startsWith_le (s p : string) : startsWith s p → String.le p s.
Proof.
  intros [rest ->]. unfold String.le, String.leb.
  induction p as [|a p IH]; rewrite ?append_cons, ?append_nil; simpl.
  - by destruct rest.
  - assert (Ascii.compare a a = Eq) as ->; [|done].
    unfold Ascii.compare. apply N.compare_refl.
Qed.



End JsFacts.

Module ReplaceFacts.
Import Js JsFacts.

Lemma append_assoc (s t u : string) : (s +:+ t) +:+ u = s +:+ t +:+ u.
Proof.
  induction s as [|a s IH]; [done|]. rewrite !append_cons. by f_equal.
Qed.

Lemma append_empty_r (s : string) : s +:+ EmptyString = s.
Proof.
  induction s as [|a s IH]; [done|]. rewrite append_cons. by f_equal.
Qed.

Lemma prefix_append (p s : string) : String.prefix p (p +:+ s) = true.
Proof. apply prefix_startsWith. by exists s. Qed.

Lemma dropChars_append (p s : string) :
  dropChars (String.length p) (p +:+ s) = s.
Proof.
  induction p as [|a p IH]; [by destruct s|]. by rewrite append_cons.
Qed.

(** A replacement without [$] stands for itself. *)
Lemma expandReplacement_plain (matched before after repl : string) :
  hasChar "$" repl = false →
  expandReplacement matched before after repl = repl.
Proof.
  induction repl as [|a repl IH]; [done|]. simpl.
  intros [Ha Hr]%orb_false_iff. rewrite Ha. f_equal. by apply IH.
Qed.

(** A text without the first character of the pattern has no match. *)
Lemma replaceAllGo_no_match (c : ascii) (pat' repl before s : string) :
  hasChar c s = false →
  replaceAllGo (String c pat') repl before 0 s = s.
Proof.
  revert before. induction s as [|a s IH]; intros before; [done|]. simpl.
  intros [Ha Hs]%orb_false_iff.
  destruct (ascii_dec c a) as [->|_];
    [by rewrite Ascii.eqb_refl in Ha|].
  f_equal. by apply IH.
Qed.

(** The characters of a match are passed over. *)
Lemma replaceAllGo_skip (pat repl before t s : string) :
  replaceAllGo pat repl before (String.length t) (t +:+ s)
  = replaceAllGo pat repl (before +:+ t) 0 s.
Proof.
  revert before. induction t as [|a t IH]; intros before.
  - by rewrite append_nil, append_empty_r.
  - rewrite append_cons. simpl. rewrite IH.
    by rewrite append_assoc, append_cons, append_nil.
Qed.

(** A placeholder after a text without its first character is replaced
    there, and the scan goes on behind it. *)
Lemma replaceAllGo_placeholder (c : ascii)
    (pat' repl before pre post : string) :
  hasChar c pre = false →
  replaceAllGo (String c pat') repl before 0 (pre +:+ String c pat' +:+ post)
  = pre
    +:+ expandReplacement (String c pat') (before +:+ pre) post repl
    +:+ replaceAllGo (String c pat') repl (before +:+ pre +:+ String c pat') 0
          post.
Proof.
  revert before. induction pre as [|a pre IH]; intros before Hpre.
  - rewrite !append_nil, append_empty_r.
    change (String c pat' +:+ post) with (String c (pat' +:+ post)).
    cbn [replaceAllGo].
    change (String c (pat' +:+ post)) with (String c pat' +:+ post).
    rewrite prefix_append, dropChars_append.
    f_equal.
    change (String.length (String c pat') - 1) with (String.length pat' - 0).
    rewrite Nat.sub_0_r.
    rewrite replaceAllGo_skip. by rewrite append_assoc, append_cons, append_nil.
  - simpl in Hpre. apply orb_false_iff in Hpre as [Ha Hpre].
    rewrite !append_cons. cbn [replaceAllGo String.prefix].
    destruct (ascii_dec c a) as [->|_];
      [by rewrite Ascii.eqb_refl in Ha|].
    f_equal. rewrite (IH _ Hpre).
    by rewrite !append_assoc, !append_cons, !append_nil.
Qed.

Lemma hasChar_append (c : ascii) (s t : string) :
  hasChar c (s +:+ t) = hasChar c s || hasChar c t.
Proof.
  induction s as [|a s IH]; [done|]. rewrite append_cons. simpl.
  by rewrite IH, orb_assoc.
Qed.

End ReplaceFacts.

Module ScanFacts.
Import Js JsFacts RequireChecker.

Lemma scanTokens_app (st : ScanState) (l k : list Token) :
  scanTokens st (l ++ k) = scanTokens (scanTokens st l) k.
Proof. apply foldl_app. Qed.

Lemma scanTokens_snoc (st : ScanState) (l : list Token) (t : Token) :
  scanTokens st (l ++ [t]) = scanToken (scanTokens st l) t.
Proof. apply foldl_snoc. Qed.

Lemma isTerminator_true (t : Token) :
  isTerminator t = true ↔ isIdentifier t = false ∧ isDot t = false.
Proof.
  unfold isTerminator. rewrite andb_true_iff, !negb_true_iff. tauto.
Qed.

Lemma isTerminator_false (t : Token) :
  isTerminator t = false ↔ isIdentifier t = true ∨ isDot t = true.
Proof.
  unfold isTerminator. destruct (isIdentifier t), (isDot t); simpl; intuition.
Qed.

Lemma elem_of_recordId (k x : string) (idsMap : list string) :
  x ∈ recordId k idsMap ↔ (x = k ∧ inherited k = false) ∨ x ∈ idsMap.
Proof.
  unfold recordId. destruct (hasKey idsMap k) eqn:Hk.
  - apply hasKey_true in Hk. split; [auto|].
    intros [[-> Hi]|?]; [|done]. destruct Hk as [?|Hk]; [done|congruence].
  - apply hasKey_false in Hk as [Hk Hi]. rewrite elem_of_setKey.
    pose proof (inherited_not_proto _ Hi). split; intros [[-> ?]|?]; auto.
Qed.


Lemma NoDup_recordId (k : string) (idsMap : list string) :
  NoDup idsMap → NoDup (recordId k idsMap).
Proof.
  intros Hnd. unfold recordId. destruct (hasKey idsMap k); [done|].
  by apply NoDup_setKey.
Qed.

(** A token that is not a terminator leaves [idsMap] alone. *)
Lemma scanToken_chain (idsMap id : list string) (t : Token) :
  isTerminator t = false →
  scanToken (idsMap, id) t = (idsMap, id ++ chainSegments [t]).
Proof.
  intros Ht. unfold scanToken, chainSegments. simpl.
  destruct (isIdentifier t) eqn:Hi; [done|].
  apply isTerminator_false in Ht as [Ht|Ht]; [congruence|].
  rewrite Ht. simpl. by rewrite app_nil_r.
Qed.

Lemma chainSegments_app (l k : list Token) :
  chainSegments (l ++ k) = chainSegments l ++ chainSegments k.
Proof. unfold chainSegments. apply omap_app. Qed.

Lemma scanTokens_chain (idsMap id : list string) (chain : list Token) :
  Forall (λ t, isTerminator t = false) chain →
  scanTokens (idsMap, id) chain = (idsMap, id ++ chainSegments chain).
Proof.
  intros Hc. revert id. induction Hc as [|t chain Ht _ IH]; intros id.
  - simpl. by rewrite app_nil_r.
  - change (scanTokens (idsMap, id) (t :: chain))
      with (scanTokens (scanToken (idsMap, id) t) chain).
    rewrite (scanToken_chain _ _ _ Ht), IH.
    change (t :: chain) with ([t] ++ chain).
    by rewrite chainSegments_app, app_assoc.
Qed.

Lemma scanToken_terminator (idsMap id : list string) (t : Token) :
  isTerminator t = true →
  scanToken (idsMap, id) t =
    match id with
    | [] => (idsMap, [])
    | _ :: _ => (recordId (join "." (truncatePrototype id)) idsMap, [])
    end.
Proof.
  intros [Hi Hd]%isTerminator_true. unfold scanToken. rewrite Hi, Hd.
  by destruct id.
Qed.



Lemma arrayIndexOf_Some (x : string) (arr : list string) (i : nat) :
  arrayIndexOf x arr = Some i →
  arr !! i = Some x ∧ x ∉ take i arr.
Proof.
  revert i. induction arr as [|y arr IH]; intros i; simpl; [done|].
  destruct (String.eqb_spec y x) as [->|Hne].
  - intros [= <-]. split; [done|]. simpl. apply not_elem_of_nil.
  - destruct (arrayIndexOf x arr) as [j|]; [|done].
    intros [= <-]. destruct (IH j eq_refl) as [Hj Hn]. split; [done|].
    simpl. rewrite not_elem_of_cons. split; [congruence|done].
Qed.

Lemma arrayIndexOf_None (x : string) (arr : list string) :
  arrayIndexOf x arr = None → x ∉ arr.
Proof.
  induction arr as [|y arr IH]; simpl; [intros _; apply not_elem_of_nil|].
  destruct (String.eqb_spec y x) as [->|Hne]; [done|].
  destruct (arrayIndexOf x arr); [done|]. intros _.
  rewrite not_elem_of_cons. split; [congruence|auto].
Qed.


(** The truncated chain holds no [prototype] segment. *)
Lemma truncatePrototype_free (id : list string) :
  "prototype" ∉ truncatePrototype id.
Proof.
  unfold truncatePrototype.
  destruct (arrayIndexOf "prototype" id) as [i|] eqn:Hi.
  - by apply arrayIndexOf_Some in Hi as [_ Hi].
  - by apply arrayIndexOf_None.
Qed.


Lemma truncatePrototype_id (id : list string) :
  "prototype" ∉ id → truncatePrototype id = id.
Proof.
  intros Hn. unfold truncatePrototype.
  destruct (arrayIndexOf "prototype" id) as [i|] eqn:Hi; [|done].
  apply arrayIndexOf_Some in Hi as [Hi _].
  apply list_elem_of_lookup_2 in Hi. done.
Qed.

(** Where a key of [idsMap] comes from: it was there before, or a
    terminator closed a pending chain. *)
Lemma scanTokens_origin (st : ScanState) (toks : list Token) (k : string) :
  k ∈ (scanTokens st toks).1 →
  k ∈ st.1
  ∨ ∃ pre t post,
      toks = pre ++ t :: post
      ∧ isTerminator t = true
      ∧ (scanTokens st pre).2 ≠ []
      ∧ k = join "." (truncatePrototype (scanTokens st pre).2).
Proof.
  induction toks as [|t toks IH] using rev_ind; [auto|].
  rewrite scanTokens_snoc.
  destruct (scanTokens st toks) as [m id] eqn:Hst.
  destruct (isTerminator t) eqn:Ht.
  - rewrite (scanToken_terminator _ _ _ Ht). destruct id as [|x id].
    + simpl. intros Hk. destruct (IH Hk) as [?|(pre & t' & post & -> & ? & ? & ?)];
        [auto|]. right. exists pre, t', (post ++ [t]).
      by rewrite <-app_assoc.
    + simpl. rewrite elem_of_recordId. intros [[-> _]|Hk].
      * right. exists toks, t, []. rewrite Hst. done.
      * destruct (IH Hk) as [?|(pre & t' & post & -> & ? & ? & ?)]; [auto|].
        right. exists pre, t', (post ++ [t]). by rewrite <-app_assoc.
  - rewrite (scanToken_chain _ _ _ Ht). simpl. intros Hk.
    destruct (IH Hk) as [?|(pre & t' & post & -> & ? & ? & ?)]; [auto|].
    right. exists pre, t', (post ++ [t]). by rewrite <-app_assoc.
Qed.

Lemma scanToken_NoDup (st : ScanState) (t : Token) :
  NoDup st.1 → NoDup (scanToken st t).1.
Proof.
  destruct st as [m id]. unfold scanToken. simpl.
  destruct (isIdentifier t); [done|].
  destruct (negb (isDot t) && negb (length id =? 0)); [|done].
  simpl. apply NoDup_recordId.
Qed.

Lemma getFileIdsMap_NoDup (toks : list Token) : NoDup (getFileIdsMap toks).
Proof.
  unfold getFileIdsMap.
  assert (∀ st, NoDup st.1 → NoDup (scanTokens st toks).1) as H.
  { induction toks as [|t toks IH]; intros st Hst; [done|].
    apply (IH (scanToken st t)), scanToken_NoDup, Hst. }
  apply H. simpl. apply NoDup_nil_2.
Qed.


(** No recorded key is the name of an inherited member. *)
Lemma scanTokens_plain (st : ScanState) (toks : list Token) :
  Forall (λ k, inherited k = false) st.1 →
  Forall (λ k, inherited k = false) (scanTokens st toks).1.
Proof.
  revert st. induction toks as [|t toks IH]; intros st Hst; [done|].
  apply (IH (scanToken st t)). destruct st as [m id]. unfold scanToken.
  cbn [fst] in *. destruct (isIdentifier t); [done|].
  destruct (negb (isDot t) && negb (length id =? 0)); [|done].
  cbn [fst]. apply Forall_forall. intros x.
  rewrite elem_of_recordId. intros [[-> ?]|Hx]; [done|].
  by apply (proj1 (Forall_forall _ _) Hst).
Qed.

Lemma getFileIdsMap_plain (toks : list Token) :
  Forall (λ k, inherited k = false) (getFileIdsMap toks).
Proof. apply scanTokens_plain. constructor. Qed.


End ScanFacts.

Module MatchFacts.
Import Js JsFacts RequireChecker.

Lemma isBoundaryChar_true (c : ascii) :
  isBoundaryChar c = true ↔ isWordChar c = false ∧ c ≠ "$"%char.
Proof.
  unfold isBoundaryChar. rewrite negb_true_iff, orb_false_iff.
  by rewrite Ascii.eqb_neq.
Qed.

(** The matching rule of code identifiers. *)
Lemma jsMatches_spec (id provide : string) :
  jsMatches id provide = true
  ↔ startsWith id provide
    ∧ (String.length id = String.length provide
       ∨ ∃ c, charAt id (String.length provide) = Some c
              ∧ isWordChar c = false ∧ c ≠ "$"%char).
Proof.
  unfold jsMatches.
  rewrite andb_true_iff, bool_decide_eq_true, indexOf_zero, orb_true_iff.
  rewrite Nat.eqb_eq.
  destruct (charAt id (String.length provide)) as [c|].
  - rewrite isBoundaryChar_true. split; intros [Hs Hb]; (split; [done|]).
    + destruct Hb as [?|?]; [auto|]. right. by exists c.
    + destruct Hb as [?|(c' & [= <-] & ?)]; auto.
  - split; intros [Hs Hb]; (split; [done|]).
    + destruct Hb as [?|?]; [auto|done].
    + destruct Hb as [?|(c' & ? & ?)]; [auto|done].
Qed.


(** The first accepted candidate, spelled out. *)
Lemma firstMatch_Some (matches : string → string → bool)
    (provides : list string) (id p : string) :
  firstMatch matches provides id = Some p
  ↔ ∃ l1 l2, provides = l1 ++ p :: l2
             ∧ matches id p = true
             ∧ ∀ q, q ∈ l1 → matches id q = false.
Proof.
  unfold firstMatch. induction provides as [|q ps IH]; simpl.
  - split; [done|]. intros (l1 & l2 & Hl & _). by destruct l1.
  - destruct (matches id q) eqn:Hq.
    + split.
      * intros [= ->]. exists [], ps. split_and!; [done..|].
        intros q' Hq'. by apply elem_of_nil in Hq'.
      * intros (l1 & l2 & Hl & Hp & Hn). destruct l1 as [|q' l1].
        -- simpl in Hl. congruence.
        -- simpl in Hl. injection Hl as <- _.
           rewrite (Hn q) in Hq; [done|]. apply list_elem_of_here.
    + rewrite IH. split.
      * intros (l1 & l2 & -> & Hp & Hn). exists (q :: l1), l2.
        split_and!; [done..|]. intros q' [->|?]%elem_of_cons; auto.
      * intros (l1 & l2 & Hl & Hp & Hn). destruct l1 as [|q' l1].
        -- simpl in Hl. injection Hl as -> _. congruence.
        -- simpl in Hl. injection Hl as <- ->. exists l1, l2.
           split_and!; [done..|]. intros q' Hq'. apply Hn.
           by apply list_elem_of_further.
Qed.

Lemma firstMatch_None (matches : string → string → bool)
    (provides : list string) (id : string) :
  firstMatch matches provides id = None
  ↔ ∀ q, q ∈ provides → matches id q = false.
Proof.
  unfold firstMatch. induction provides as [|q ps IH]; simpl.
  - split; [|done]. intros _ q Hq. by apply elem_of_nil in Hq.
  - destruct (matches id q) eqn:Hq.
    + split; [done|]. intros Hn. rewrite (Hn q) in Hq; [done|].
      apply list_elem_of_here.
    + rewrite IH. split.
      * intros Hn q' [->|?]%elem_of_cons; auto.
      * intros Hn q' Hq'. apply Hn. by apply list_elem_of_further.
Qed.

Lemma firstMatch_elem_of (matches : string → string → bool)
    (provides : list string) (id p : string) :
  firstMatch matches provides id = Some p → p ∈ provides ∧ matches id p = true.
Proof.
  intros (l1 & l2 & -> & Hp & _)%firstMatch_Some. split; [|done].
  apply elem_of_app. right. apply list_elem_of_here.
Qed.

(** In a descending candidate array, the accepted candidates of a usage
    come longest first: the resolution is the longest accepted one. *)
Lemma firstMatch_longest (provides : list string) (id p q : string) :
  StronglySorted (flip String.le) provides →
  firstMatch jsMatches provides id = Some p →
  q ∈ provides → jsMatches id q = true →
  String.length q ≤ String.length p.
Proof.
  intros Hs (l1 & l2 & -> & Hp & Hn)%firstMatch_Some Hq Hm.
  apply elem_of_app in Hq as [Hq|Hq].
  { rewrite (Hn q Hq) in Hm. done. }
  apply elem_of_cons in Hq as [->|Hq]; [done|].
  apply StronglySorted_app_1_r in Hs.
  apply StronglySorted_inv in Hs as [_ Hall].
  rewrite Forall_forall in Hall. specialize (Hall q Hq). unfold flip in Hall.
  apply jsMatches_spec in Hp as [[rp ->] _].
  apply jsMatches_spec in Hm as [[rq Hrq] _].
  (* both are heads of [id]; the smaller one is the shorter one *)
  clear -Hall Hrq. unfold String.le, String.leb in Hall.
  revert q rq rp Hall Hrq. induction p as [|a p IH]; intros q rq rp Hall Hrq.
  - destruct q; [done|]. simpl in Hall. done.
  - destruct q as [|b q]; [simpl; lia|].
    rewrite !append_cons in Hrq. injection Hrq as -> Hrq.
    simpl in Hall.
    assert (Ascii.compare b b = Eq) as Hb
      by (unfold Ascii.compare; apply N.compare_refl).
    rewrite Hb in Hall. simpl. apply le_n_S. by eapply IH.
Qed.


End MatchFacts.

Module ResolveFacts.
Import Js JsFacts RequireChecker MatchFacts.

Section Resolve.

Context (matches : string → string → bool) (provides : list string).

Abbreviation loopInv := (RequireChecker.loopInv matches provides).

Lemma truthy_false (s : string) : truthy s = false ↔ s = EmptyString.
Proof. unfold truthy. by rewrite negb_false_iff, String.eqb_eq. Qed.

(** The read of a key that names no inherited member finds the own
    entry, or [undefined]. *)
Lemma readMemo_plain (cache : Cache) (id : string) :
  inherited id = false →
  readMemo cache id
  = match cache !! id with
    | Some (Some s) => ReadString s
    | Some None => ReadNull
    | None => ReadUndefined
    end.
Proof. intros Hid. unfold readMemo. by rewrite Hid. Qed.

Lemma readMemo_undefined (cache : Cache) (id : string) :
  readMemo cache id = ReadUndefined ↔ cache !! id = None ∧ inherited id = false.
Proof.
  unfold readMemo. destruct (cache !! id) as [[s|]|]; [by split; [|intros []]..|].
  destruct (inherited id); by split; [|intros []].
Qed.

Lemma resolveUsage_step (st : Cache * list string) (id : string) :
  loopInv st →
  inherited id = false →
  loopInv (resolveUsage matches provides st id)
  ∧ ∀ p, p ∈ (resolveUsage matches provides st id).2
         ↔ p ∈ st.2
           ∨ (firstMatch matches provides id = Some p ∧ p ≠ "__proto__").
Proof.
  destruct st as [cache map]. intros [Hag He] Hid. cbn [fst snd] in *.
  unfold resolveUsage, RequireChecker.loopInv.
  rewrite (readMemo_plain _ _ Hid).
  destruct (cache !! id) as [[cached|]|] eqn:Hc.
  - pose proof (Hag _ _ Hc) as Hf.
    destruct (truthy cached) eqn:Ht; cbn [fst snd].
    + split; [split; [done|]|].
      * intros i Hi. apply elem_of_setKey. right. by apply (He i).
      * intros p. rewrite elem_of_setKey, <-Hf.
        split; intros [?|?]; auto; [right|left]; destruct_and?;
          split; congruence.
    + apply truthy_false in Ht as ->. split; [done|].
      intros p. rewrite <-Hf. split; [auto|]. intros [?|[[= <-] _]]; [done|].
      by apply (He id).
  - pose proof (Hag _ _ Hc) as Hf. cbn [fst snd]. split; [done|].
    intros p. rewrite <-Hf. split; [auto|]. by intros [?|[? _]].
  - destruct (firstMatch matches provides id) as [q|] eqn:Hf; cbn [fst snd].
    + split; [split|].
      * intros i v. rewrite lookup_insert. case_decide as Hi.
        -- subst i. by intros [= <-].
        -- apply Hag.
      * intros i. rewrite lookup_insert, elem_of_setKey. case_decide as Hi.
        -- intros [= ->]. by left.
        -- intros Hi'. right. by apply (He i).
      * intros p. rewrite elem_of_setKey.
        split; intros [?|?]; auto; [right|left]; destruct_and?;
          split; congruence.
    + split; [split|].
      * intros i v. rewrite lookup_insert. case_decide as Hi.
        -- subst i. by intros [= <-].
        -- apply Hag.
      * intros i. rewrite lookup_insert. case_decide as Hi; [done|].
        apply He.
      * intros p. split; [auto|]. by intros [?|[? _]].
Qed.

Lemma resolveUsages_loop (st : Cache * list string) (ids : list string) :
  loopInv st →
  Forall (λ id, inherited id = false) ids →
  loopInv (foldl (resolveUsage matches provides) st ids)
  ∧ ∀ p, p ∈ (foldl (resolveUsage matches provides) st ids).2
         ↔ p ∈ st.2
           ∨ (p ≠ "__proto__"
              ∧ ∃ id, id ∈ ids ∧ firstMatch matches provides id = Some p).
Proof.
  intros Hinv Hids. revert st Hinv.
  induction Hids as [|id ids Hid _ IH]; intros st Hinv; simpl.
  - split; [done|]. intros p. split; [auto|].
    intros [?|(_ & id & Hid & _)]; [done|]. by apply elem_of_nil in Hid.
  - destruct (resolveUsage_step st id Hinv Hid) as [Hinv' Hstep].
    destruct (IH _ Hinv') as [Hinv'' Hrest]. split; [done|].
    intros p. rewrite Hrest, Hstep. split.
    + intros [[?|[? ?]]|(? & i & ? & ?)]; [auto|right|right];
        (split; [done|]); [exists id|exists i];
        (split; [|done]); [apply list_elem_of_here|by apply list_elem_of_further].
    + intros [?|(? & i & [->|?]%elem_of_cons & ?)]; [auto|auto|].
      right. split; [done|]. by exists i.
Qed.

(** What the loop leaves in its key set, from a coherent memo: the
    resolutions of the usages, nothing else. *)
Lemma resolveUsages_keys (cache : Cache) (ids : list string) (p : string) :
  cacheCoherent matches provides cache →
  Forall (λ id, inherited id = false) ids →
  p ∈ (resolveUsages matches provides cache ids).2
  ↔ p ≠ "__proto__"
    ∧ ∃ id, id ∈ ids ∧ firstMatch matches provides id = Some p.
Proof.
  intros [Hag Hne] Hids. unfold resolveUsages.
  destruct (resolveUsages_loop (cache, []) ids) as [_ Hk]; [|done|].
  { split; [done|]. intros id Hid. by destruct (Hne id). }
  rewrite Hk. cbn [snd]. rewrite elem_of_nil. tauto.
Qed.

Lemma resolveUsage_agrees (st : Cache * list string) (id : string) :
  cacheAgrees matches provides st.1 →
  cacheAgrees matches provides (resolveUsage matches provides st id).1.
Proof.
  destruct st as [c m]. cbn [fst]. intros Hst. unfold resolveUsage, readMemo.
  destruct (c !! id) as [[cached|]|] eqn:Hc.
  - by destruct (truthy cached).
  - done.
  - destruct (inherited id); [done|].
    destruct (firstMatch matches provides id) as [q|] eqn:Hf; cbn [fst];
      intros i v; rewrite lookup_insert; case_decide as Hi;
      try apply Hst; subst i; by intros [= <-].
Qed.

(** The entries of the memo agree with the candidates after the loop,
    whatever the usages are. *)
Lemma resolveUsages_agrees (cache : Cache) (ids : list string) :
  cacheAgrees matches provides cache →
  cacheAgrees matches provides (resolveUsages matches provides cache ids).1.
Proof.
  intros Hag. unfold resolveUsages.
  assert (∀ st, cacheAgrees matches provides st.1 →
            cacheAgrees matches provides
              (foldl (resolveUsage matches provides) st ids).1) as H.
  { induction ids as [|id ids IH]; intros st Hst; [done|]. simpl. apply IH.
    by apply resolveUsage_agrees. }
  by apply H.
Qed.

(** From a memo that agrees with the candidates, every key that the
    loop over plain usages adds is a candidate. *)
Lemma resolveUsages_candidates (cache : Cache) (ids : list string)
    (p : string) :
  cacheAgrees matches provides cache →
  Forall (λ id, inherited id = false) ids →
  p ∈ (resolveUsages matches provides cache ids).2 → p ∈ provides.
Proof.
  intros Hag Hids. unfold resolveUsages.
  assert (∀ st, cacheAgrees matches provides st.1 →
            (∀ q, q ∈ st.2 → q ∈ provides) →
            ∀ q, q ∈ (foldl (resolveUsage matches provides) st ids).2 →
                 q ∈ provides) as H.
  { induction Hids as [|id ids Hid _ IH]; intros st Hst Hsub; [done|].
    simpl. apply IH; [by apply resolveUsage_agrees|].
    destruct st as [c m]. cbn [fst snd] in *. unfold resolveUsage.
    rewrite (readMemo_plain _ _ Hid).
    destruct (c !! id) as [[cached|]|] eqn:Hc.
    - destruct (truthy cached); [|done]. cbn [snd]. intros q.
      rewrite elem_of_setKey. intros [[-> _]|?]; [|auto].
      pose proof (Hst _ _ Hc) as Hf. symmetry in Hf.
      by apply firstMatch_elem_of in Hf as [? _].
    - done.
    - destruct (firstMatch matches provides id) as [r|] eqn:Hf; [|done].
      cbn [snd]. intros q. rewrite elem_of_setKey. intros [[-> _]|?]; [|auto].
      by apply firstMatch_elem_of in Hf as [? _]. }
  apply H; [done|]. intros q Hq. by apply elem_of_nil in Hq.
Qed.

(** Without an empty candidate, coherence lasts. *)
Lemma resolveUsages_coherent (cache : Cache) (ids : list string) :
  EmptyString ∉ provides →
  cacheCoherent matches provides cache →
  cacheCoherent matches provides (resolveUsages matches provides cache ids).1.
Proof.
  intros Hne [Hag Hn]. split; [by apply resolveUsages_agrees|].
  intros id Hid.
  apply (resolveUsages_agrees cache ids Hag) in Hid. symmetry in Hid.
  by apply firstMatch_elem_of in Hid as [Hid _].
Qed.

End Resolve.

End ResolveFacts.

Module CheckerFacts.
Import Js JsFacts RequireChecker ScanFacts MatchFacts ResolveFacts.

Section DocTypes.

Context (getTypes : string → list string).

Lemma isDocComment_spec (c : Comment) :
  isDocComment c = true
  ↔ ctype c = "Block"
    ∧ ∃ c1 rest, cvalue c = String "*" (String c1 rest) ∧ c1 ≠ "*"%char.
Proof.
  unfold isDocComment. rewrite andb_true_iff, String.eqb_eq.
  split; intros [Ht Hv]; (split; [done|]).
  - destruct (cvalue c) as [|a [|c1 rest]]; try done;
      [by destruct a as [[] [] [] [] [] [] [] []]|].
    destruct (ascii_dec a "*") as [->|Ha].
    + exists c1, rest. split; [done|]. intros ->. by vm_compute in Hv.
    + exfalso. by destruct a as [[] [] [] [] [] [] [] []].
  - destruct Hv as (c1 & rest & -> & Hc1). apply negb_true_iff.
    by apply Ascii.eqb_neq.
Qed.

(** The first [jsdocTypesMap] holds the types of the doc comments, but
    for [__proto__]. *)
Lemma elem_of_collectTypes (cs : list Comment) (type : string) :
  type ∈ collectTypes getTypes cs
  ↔ type ≠ "__proto__"
    ∧ ∃ c, c ∈ cs ∧ isDocComment c = true ∧ type ∈ getTypes (cvalue c).
Proof.
  unfold collectTypes.
  assert (∀ m, type ∈ foldl (λ m c,
                               if isDocComment c
                               then foldl (λ m' t, setKey t m') m
                                      (getTypes (cvalue c))
                               else m) m cs
               ↔ type ∈ m
                 ∨ (type ≠ "__proto__"
                    ∧ ∃ c, c ∈ cs ∧ isDocComment c = true
                           ∧ type ∈ getTypes (cvalue c))) as H.
  { induction cs as [|c cs IH]; intros m; simpl.
    - split; [auto|]. intros [?|(_ & c & Hc & _)]; [done|].
      by apply elem_of_nil in Hc.
    - rewrite IH. destruct (isDocComment c) eqn:Hc.
      + rewrite elem_of_foldl_setKey. split.
        * intros [[[? ?]|?]|(? & c' & ? & ? & ?)]; [right|auto|right];
            (split; [done|]); [exists c|exists c'];
            (split_and!; [|done..]);
            [apply list_elem_of_here|by apply list_elem_of_further].
        * intros [?|(? & c' & [->|?]%elem_of_cons & ? & ?)]; [auto|auto|].
          right. split; [done|]. by exists c'.
      + split.
        * intros [?|(? & c' & ? & ? & ?)]; [auto|right].
          split; [done|]. exists c'. split_and!; [|done..].
          by apply list_elem_of_further.
        * intros [?|(? & c' & [->|?]%elem_of_cons & ? & ?)];
            [auto|congruence|].
          right. split; [done|]. by exists c'. }
  rewrite H, elem_of_nil. tauto.
Qed.

(** The doc usages of a parsed file are the types written in its doc
    comments, but for [__proto__]. *)
Lemma elem_of_docUsages (jsSource : Source) (tree : SyntaxTree)
    (type : string) :
  syntaxTree jsSource = Some tree →
  type ∈ docUsages getTypes jsSource
  ↔ type ≠ "__proto__" ∧ docTypeOf getTypes tree type.
Proof.
  intros Htree. unfold docUsages, docTypeOf. rewrite Htree.
  destruct (comments tree) as [cs|]; simpl.
  - rewrite elem_of_collectTypes. split.
    + intros (Hp & c & Hc & Hd & Ht). split; [done|].
      apply isDocComment_spec in Hd as (Hb & c1 & rest & Hv & Hc1).
      by exists cs, c, c1, rest.
    + intros (Hp & cs' & c & c1 & rest & [= <-] & Hc & Hb & Hv & Hc1 & Ht).
      split; [done|]. exists c. split_and!; [done| |done].
      apply isDocComment_spec. split; [done|]. by exists c1, rest.
  - rewrite elem_of_nil. split; [done|].
    by intros (_ & cs & c & c1 & rest & ? & _).
Qed.

End DocTypes.

Section Checking.

Context (getTypes : string → list string).
Context (regExpSearch : string → string → bool).

Abbreviation check := (getWrongRequiresInFile getTypes regExpSearch).
Abbreviation inDocs := (usedInDocs getTypes regExpSearch).
Abbreviation coherent := (checkerCoherent regExpSearch).

(** The two lists of a parsed file, by membership.  A namespace that
    names an inherited member is in neither list; the doc types enter the
    second one as the resolutions of the types that name no inherited
    member. *)
Lemma getWrongRequiresInFile_parsed (this : Checker) (jsSource : Source)
    (provides' : list string) (tree : SyntaxTree) :
  syntaxTree jsSource = Some tree →
  coherent provides' this →
  (∀ p, p ∈ missingRequires (snd (check this jsSource provides'))
        ↔ usedInCode provides' jsSource p
          ∧ (p ∉ provides jsSource) ∧ (p ∉ requires jsSource)
          ∧ inherited p = false)
  ∧ (Forall (λ id, inherited id = false) (docUsages getTypes jsSource) →
     ∀ r, r ∈ unnecessaryRequires (snd (check this jsSource provides'))
          ↔ r ∈ requires jsSource
            ∧ inherited r = false
            ∧ ¬ usedInCode provides' jsSource r
            ∧ ¬ inDocs provides' jsSource r).
Proof.
  intros Htree [Hjs Hdoc].
  assert (∀ p, p ∈ match tokens tree with
                   | Some toks =>
                       resolveUsages jsMatches provides' (_jsCache this)
                         (getFileIdsMap toks)
                   | None => (_jsCache this, [])
                   end.2
               ↔ p ≠ "__proto__" ∧ usedInCode provides' jsSource p) as Hused.
  { intros p. unfold usedInCode, codeUsages. rewrite Htree.
    destruct (tokens tree) as [toks|]; simpl.
    - apply resolveUsages_keys; [done|apply getFileIdsMap_plain].
    - rewrite elem_of_nil. split; [done|]. intros (_ & id & Hid & _).
      by apply elem_of_nil in Hid. }
  assert (Forall (λ id, inherited id = false) (docUsages getTypes jsSource) →
          ∀ p, p ∈ match comments tree with
                   | Some cs =>
                       resolveUsages (docMatches regExpSearch) provides'
                         (_docCache this) (collectTypes getTypes cs)
                   | None => (_docCache this, [])
                   end.2
               ↔ p ≠ "__proto__" ∧ inDocs provides' jsSource p) as Hdocs.
  { intros Hplain p. unfold usedInDocs, docUsages in *. rewrite Htree in *.
    destruct (comments tree) as [cs|]; simpl in *.
    - by apply resolveUsages_keys.
    - rewrite elem_of_nil. split; [done|]. intros (_ & id & Hid & _).
      by apply elem_of_nil in Hid. }
  unfold getWrongRequiresInFile. rewrite Htree.
  destruct (match tokens tree with
            | Some toks => _
            | None => _
            end) as [jsCache used].
  destruct (match comments tree with
            | Some cs => _
            | None => _
            end) as [docCache docs].
  cbn [fst snd missingRequires unnecessaryRequires] in *. split.
  - intros p. rewrite elem_of_sort, list_elem_of_filter, Hused.
    rewrite Is_true_true, negb_true_iff, hasKey_false.
    rewrite elem_of_foldl_setKey, elem_of_app, elem_of_nil.
    split.
    + intros [(Hn & Hi) (Hp & Hu)]. tauto.
    + intros (Hu & Hp & Hr & Hi).
      pose proof (inherited_not_proto _ Hi). tauto.
  - intros Hplain r. specialize (Hdocs Hplain).
    rewrite elem_of_sort, list_elem_of_filter, Is_true_true.
    rewrite andb_true_iff, !negb_true_iff, !hasKey_false, Hused, Hdocs.
    split.
    + intros [[[Hu Hi] [Hd _]] Hr].
      pose proof (inherited_not_proto _ Hi). tauto.
    + tauto.
Qed.

(** The memo objects after a file still agree with the candidates, and
    stay coherent when no candidate is the empty string. *)
Lemma getWrongRequiresInFile_coherent (this : Checker) (jsSource : Source)
    (provides' : list string) :
  EmptyString ∉ provides' →
  coherent provides' this →
  coherent provides' (fst (check this jsSource provides')).
Proof.
  intros Hne [Hjs Hdoc]. unfold getWrongRequiresInFile.
  destruct (syntaxTree jsSource) as [tree|]; [|done].
  pose proof (resolveUsages_coherent jsMatches provides' (_jsCache this)) as Hj.
  pose proof (resolveUsages_coherent (docMatches regExpSearch) provides'
                (_docCache this)) as Hd.
  destruct (tokens tree) as [toks|];
    [specialize (Hj (getFileIdsMap toks) Hne Hjs);
     destruct (resolveUsages jsMatches provides' (_jsCache this) _)
       as [jsCache used]|];
    (destruct (comments tree) as [cs|];
     [specialize (Hd (collectTypes getTypes cs) Hne Hdoc);
      destruct (resolveUsages (docMatches regExpSearch) provides'
                  (_docCache this) _) as [docCache docs]|]);
    by split.
Qed.

(** Over the files of a run the memo objects stay coherent, so every
    file is checked from coherent memo objects. *)
Lemma checkSource_coherent (provides' : list string)
    (st : Checker * WrongRequiresMaps) (jsSource : Source) :
  EmptyString ∉ provides' →
  coherent provides' st.1 →
  coherent provides' (fst (checkSource getTypes regExpSearch provides' st jsSource)).
Proof.
  intros Hne Hcoh. destruct st as [this maps]. unfold checkSource.
  pose proof (getWrongRequiresInFile_coherent this jsSource provides' Hne Hcoh)
    as Hc.
  by destruct (check this jsSource provides') as [this' info].
Qed.

Lemma checkSources_coherent (provides' : list string)
    (st : Checker * WrongRequiresMaps) (jsSources : list Source) :
  EmptyString ∉ provides' →
  coherent provides' st.1 →
  coherent provides'
    (fst (foldl (checkSource getTypes regExpSearch provides') st jsSources)).
Proof.
  intros Hne. revert st.
  induction jsSources as [|jsSource jsSources IH]; intros st Hcoh; [done|].
  simpl. apply IH. by apply checkSource_coherent.
Qed.

End Checking.

Lemma newChecker_coherent (regExpSearch : string → string → bool)
    (provides' : list string) :
  checkerCoherent regExpSearch provides' newChecker.
Proof.
  split; (split; [intros id v Hv|intros id Hv]);
    cbn in Hv; by rewrite lookup_empty in Hv.
Qed.

(** The candidate array of a run is in descending order. *)
Lemma provideRegistry_sorted (this : Checker) (sources : list Source) :
  StronglySorted (flip String.le) (provideRegistry this sources).
Proof. unfold provideRegistry. apply sortDescending_sorted. Qed.

Lemma sortDescending_Permutation (l1 l2 : list string) :
  l1 ≡ₚ l2 → sortDescending l1 = sortDescending l2.
Proof.
  intros Hp.
  assert (AntiSymm eq (flip String.le)) as Ha.
  { intros x y Hxy Hyx. unfold flip in *. by apply (anti_symm String.le). }
  apply (StronglySorted_unique (flip String.le));
    [apply sortDescending_sorted..|].
  unfold sortDescending. by rewrite !merge_sort_Permutation.
Qed.

End CheckerFacts.

Module RequireCheckerSpec.
Import Js JsFacts RequireChecker ScanFacts MatchFacts ResolveFacts CheckerFacts.
Import Examples.

(** C1, as stated, fails: the doc comment of [docOnlySource] uses the
    type [Array.<ns.Foo>], which resolves to the declared provide
    [ns.Foo]; the file neither provides nor requires [ns.Foo]; yet its
    [missing] list is empty, whatever the doc-type extractor and the
    regular-expression engine return. *)
Lemma doc_type_usage_not_missing :
  usedInDocs bracedTypes RegExp.search ["ns.Foo"] docOnlySource "ns.Foo"
  ∧ ("ns.Foo" ∉ provides docOnlySource)
  ∧ ("ns.Foo" ∉ requires docOnlySource)
  ∧ ∀ getTypes regExpSearch,
      missingRequires
        (snd (getWrongRequiresInFile getTypes regExpSearch newChecker
                docOnlySource ["ns.Foo"])) = [].
Proof.
  split_and!.
  - exists "Array.<ns.Foo>". split; [|by vm_compute].
    vm_compute. apply list_elem_of_here.
  - apply not_elem_of_nil.
  - apply not_elem_of_nil.
  - intros getTypes regExpSearch. unfold getWrongRequiresInFile.
    cbn [syntaxTree docOnlySource tokens comments].
    destruct (resolveUsages (docMatches regExpSearch) _ _ _) as [dc dm].
    by vm_compute.
Qed.

(** C1, amended: for every parsed file checked with coherent memo
    objects, and every namespace that is not the name of a member of
    [Object.prototype], [missing] holds the namespace exactly when it is
    the resolution of a code-identifier usage of the file and the file
    neither provides nor requires it.  Doc-comment type usages do not
    enter [missing]. *)
Theorem missing_iff_code_usage_undeclared
    (getTypes : string → list string) (regExpSearch : string → string → bool)
    (this : Checker) (jsSource : Source) (provides' : list string)
    (tree : SyntaxTree) (p : string) :
  syntaxTree jsSource = Some tree →
  checkerCoherent regExpSearch provides' this →
  inherited p = false →
  p ∈ missingRequires
        (snd (getWrongRequiresInFile getTypes regExpSearch this jsSource
                provides'))
  ↔ usedInCode provides' jsSource p
    ∧ (p ∉ provides jsSource) ∧ (p ∉ requires jsSource).
Proof.
  intros Htree Hcoh Hp.
  destruct (getWrongRequiresInFile_parsed getTypes regExpSearch this
              jsSource provides' tree Htree Hcoh) as [Hm _].
  rewrite Hm. tauto.
Qed.

Lemma missing_iff_code_usage_undeclared_witness :
  "a.b.C" ∈ missingRequires
              (snd (getWrongRequiresInFile bracedTypes RegExp.search newChecker
                      prototypeSource ["a.b.C"; "a.b"])).
Proof.
  apply (missing_iff_code_usage_undeclared bracedTypes RegExp.search newChecker
           prototypeSource ["a.b.C"; "a.b"]
           {| tokens := Some prototypeTokens; comments := None |}).
  - reflexivity.
  - apply newChecker_coherent.
  - reflexivity.
  - split_and!.
    + exists "a.b.C". split; [|by vm_compute].
      vm_compute. apply list_elem_of_here.
    + apply not_elem_of_nil.
    + apply not_elem_of_nil.
Defined.



(** C8: a source without a syntax tree yields two empty lists; the call
    returns, and leaves the checker as it was. *)
Theorem unparsed_file_yields_empty_lists
    (getTypes : string → list string) (regExpSearch : string → string → bool)
    (this : Checker) (jsSource : Source) (provides' : list string) :
  syntaxTree jsSource = None →
  getWrongRequiresInFile getTypes regExpSearch this jsSource provides'
  = (this, {| missingRequires := []; unnecessaryRequires := [] |}).
Proof. intros Hn. unfold getWrongRequiresInFile. by rewrite Hn. Qed.

Lemma unparsed_file_yields_empty_lists_witness :
  getWrongRequiresInFile bracedTypes RegExp.search newChecker unparsedSource
    ["ns.Used"; "ns.Broken"]
  = (newChecker, {| missingRequires := []; unnecessaryRequires := [] |}).
Proof.
  apply (unparsed_file_yields_empty_lists bracedTypes RegExp.search).
  reflexivity.
Defined.



(** C10: tokens that are identifiers or [.] add nothing at the end of a
    stream, so a chain that runs to the end is not recorded; and every
    recorded key was closed by a terminator that follows a non-empty
    pending chain. *)
Theorem chain_recorded_only_at_terminator (pre chain : list Token) :
  Forall (λ c, isTerminator c = false) chain →
  getFileIdsMap (pre ++ chain) = getFileIdsMap pre
  ∧ ∀ k, k ∈ getFileIdsMap (pre ++ chain) →
         ∃ before t after,
           pre = before ++ t :: after
           ∧ isTerminator t = true
           ∧ pendingId before ≠ []
           ∧ k = join "." (truncatePrototype (pendingId before)).
Proof.
  intros Hchain.
  assert (getFileIdsMap (pre ++ chain) = getFileIdsMap pre) as Heq.
  { unfold getFileIdsMap. rewrite scanTokens_app.
    destruct (scanTokens ([], []) pre) as [m id].
    by rewrite (scanTokens_chain _ _ _ Hchain). }
  split; [done|]. rewrite Heq. intros k Hk.
  apply scanTokens_origin in Hk as [Hk|Hk]; [by apply elem_of_nil in Hk|].
  done.
Qed.

Lemma chain_recorded_only_at_terminator_witness :
  getFileIdsMap ([ident "x"; punct ";"] ++ [ident "a"; punct "."; ident "b"])
  = ["x"].
Proof.
  destruct (chain_recorded_only_at_terminator [ident "x"; punct ";"]
              [ident "a"; punct "."; ident "b"]) as [Heq _].
  - repeat constructor.
  - rewrite Heq. reflexivity.
Defined.

(** C2: the candidate array of a run is in descending order; a usage
    for which the memo reads [undefined] (no entry, and not the name of a
    member that the memo object inherits) resolves to the first candidate
    of the array, in its order, that matches; a candidate matches a usage exactly when the
    usage starts with it and either has its length or continues with a
    character that is neither a word character nor [$]; and with the
    provides [a.b] and [a.b.C], in whatever order they were collected, the
    usage [a.b.C.d] resolves to [a.b.C]. *)
Theorem candidates_descending_first_match :
  (∀ this sources,
     StronglySorted (flip String.le) (provideRegistry this sources))
  ∧ (∀ (cache : Cache) map candidates u p l1 l2,
       cache !! u = None →
       inherited u = false →
       candidates = l1 ++ p :: l2 →
       jsMatches u p = true →
       (∀ q, q ∈ l1 → jsMatches u q = false) →
       resolveUsage jsMatches candidates (cache, map) u
       = (<[u := Some p]> cache, setKey p map))
  ∧ (∀ u p,
       jsMatches u p = true
       ↔ startsWith u p
         ∧ (String.length u = String.length p
            ∨ ∃ c, charAt u (String.length p) = Some c
                   ∧ isWordChar c = false ∧ c ≠ "$"%char))
  ∧ (∀ collected,
       collected ≡ₚ ["a.b"; "a.b.C"] →
       firstMatch jsMatches (sortDescending collected) "a.b.C.d"
       = Some "a.b.C").
Proof.
  split_and!.
  - apply provideRegistry_sorted.
  - intros cache map candidates u p l1 l2 Hfresh Hu Hc Hp Hn.
    unfold resolveUsage, readMemo. rewrite Hfresh, Hu.
    assert (firstMatch jsMatches candidates u = Some p) as ->; [|done].
    apply firstMatch_Some. by exists l1, l2.
  - apply jsMatches_spec.
  - intros collected Hp. rewrite (sortDescending_Permutation _ _ Hp).
    by vm_compute.
Qed.

Lemma candidates_descending_first_match_witness :
  resolveUsage jsMatches (provideRegistry newChecker providerSources)
    (∅, []) "a.b.C.d"
  = (<["a.b.C.d" := Some "a.b.C"]> ∅, ["a.b.C"])
  ∧ firstMatch jsMatches (sortDescending ["a.b.C"; "a.b"]) "a.b.C.d"
    = Some "a.b.C".
Proof.
  destruct candidates_descending_first_match as (_ & Hfirst & _ & Hex).
  split.
  - apply (Hfirst ∅ [] _ "a.b.C.d" "a.b.C" [] ["a.b"]).
    + reflexivity.
    + reflexivity.
    + by vm_compute.
    + by vm_compute.
    + intros q Hq. by apply elem_of_nil in Hq.
  - apply Hex. apply Permutation_swap.
Defined.

End RequireCheckerSpec.

Module LoaderFacts.
Import Loader.

Lemma available_le (arr : list Slot) : available arr ≤ length arr.
Proof.
  induction arr as [|[|t] arr IH]; simpl; lia.
Qed.

Lemma available_stored (arr : list Slot) (i : nat) :
  i < available arr → ∃ t, arr !! i = Some (Stored t).
Proof.
  revert i. induction arr as [|[|t] arr IH]; intros i; simpl; [lia..|].
  destruct i as [|i]; [by exists t|]. intros Hi. apply IH. lia.
Qed.

Lemma available_undefined (arr : list Slot) :
  available arr < length arr → arr !! available arr = Some Undefined.
Proof.
  induction arr as [|[|t] arr IH]; simpl; [lia|done|].
  intros Hl. apply IH. lia.
Qed.

Lemma available_ge (arr : list Slot) (k : nat) :
  (∀ i, i < k → ∃ t, arr !! i = Some (Stored t)) → k ≤ available arr.
Proof.
  revert k. induction arr as [|s arr IH]; intros k Hk.
  - destruct k; [done|]. destruct (Hk 0) as [t Ht]; [lia|done].
  - destruct k as [|k]; [lia|].
    destruct (Hk 0) as [t Ht]; [lia|]. injection Ht as ->. simpl.
    apply le_n_S, IH. intros i Hi. apply (Hk (S i)). lia.
Qed.

Lemma writeScript_no_hook (l : list Event) (text : option string)
    (s : string) (m : bool) :
  SourceLoadHook ∉ l → SourceLoadHook ∉ writeScript l text s m.
Proof.
  intros Hl. unfold writeScript. destruct text as [t|]; [|done].
  destruct (Js.truthy t); [|done].
  rewrite elem_of_app, list_elem_of_singleton. intros [?|?]; done.
Qed.

Section Async.

Context (deps : list Dep) (hookIsFunction : bool).

Abbreviation n := (length deps).
Abbreviation writesFrom := (Loader.writesFrom).
Abbreviation hookPart k :=
  (if hookIsFunction && (n <=? k) then [SourceLoadHook] else []).

Lemma writesFrom_no_hook (l : list Event) (entries : list (Slot * Dep)) :
  SourceLoadHook ∉ l → SourceLoadHook ∉ writesFrom l entries.
Proof.
  revert l. induction entries as [|[s d] entries IH]; intros l Hl; [done|].
  simpl. apply IH. destruct s; [done|]. by apply writeScript_no_hook.
Qed.

Lemma writesFrom_app (l : list Event) (e1 e2 : list (Slot * Dep)) :
  writesFrom l (e1 ++ e2) = writesFrom (writesFrom l e1) e2.
Proof. apply foldl_app. Qed.

(** [writeNextScript] from an index at most the first unavailable one:
    it writes the slots up to there, in order, then stops, calling the
    hook when the end is reached. *)
Lemma writeNextScriptRec_spec (k fuel : nat) (st : State) :
  length (scriptTexts st) = n →
  loadedIndex st + k = available (scriptTexts st) →
  n - loadedIndex st ≤ fuel →
  writeNextScriptRec deps hookIsFunction fuel st
  = {| scriptTexts := scriptTexts st;
       loadedIndex := available (scriptTexts st);
       log := writesFrom (log st)
                (take k (drop (loadedIndex st) (zip (scriptTexts st) deps)))
              ++ hookPart (available (scriptTexts st)) |}.
Proof.
  revert fuel st. induction k as [|k IH]; intros fuel [arr L lg];
    cbn [scriptTexts loadedIndex log]; intros Hlen HA Hfuel.
  - rewrite Nat.add_0_r in HA. subst L. rewrite take_0. cbn [Loader.writesFrom foldl].
    destruct fuel; cbn [writeNextScriptRec scriptTexts loadedIndex log];
      (destruct (n <=? available arr) eqn:Hn;
       [ rewrite andb_true_r; destruct hookIsFunction; [done|by rewrite app_nil_r]
       | rewrite andb_false_r, app_nil_r;
         apply Nat.leb_gt in Hn;
         rewrite available_undefined by lia; done ]).
  - pose proof (available_le arr) as Hle.
    destruct (available_stored arr L) as [t Ht]; [lia|].
    assert (L < n) as HL by lia.
    destruct (lookup_lt_is_Some_2 deps L HL) as [dep Hdep].
    destruct fuel as [|fuel]; [lia|].
    cbn [writeNextScriptRec scriptTexts loadedIndex log].
    assert ((n <=? L) = false) as -> by (apply Nat.leb_gt; lia).
    rewrite Ht, Hdep.
    rewrite (IH fuel); cbn [scriptTexts loadedIndex log]; [|done|lia|lia].
    f_equal. f_equal.
    rewrite (drop_S (zip arr deps) (Stored t, dep) L).
    + done.
    + by apply lookup_zip_Some.
Qed.

Lemma writeNextScript_spec (st : State) :
  length (scriptTexts st) = n →
  loadedIndex st ≤ available (scriptTexts st) →
  writeNextScript deps hookIsFunction st
  = {| scriptTexts := scriptTexts st;
       loadedIndex := available (scriptTexts st);
       log := writesFrom (log st)
                (take (available (scriptTexts st) - loadedIndex st)
                   (drop (loadedIndex st) (zip (scriptTexts st) deps)))
              ++ hookPart (available (scriptTexts st)) |}.
Proof.
  intros Hlen HL. unfold writeNextScript.
  apply writeNextScriptRec_spec; [done|lia|done].
Qed.

Lemma store_length (i : nat) (v : Slot) (arr : list Slot) :
  i < length arr → length (store i v arr) = length arr.
Proof.
  intros Hi. unfold store. apply Nat.ltb_lt in Hi as ->. apply length_insert.
Qed.

Lemma store_in_range (i : nat) (v : Slot) (arr : list Slot) :
  i < length arr → store i v arr = <[i := v]> arr.
Proof. intros Hi. unfold store. by apply Nat.ltb_lt in Hi as ->. Qed.

Lemma slotsAfter_snoc (cs : list (nat * Response)) (i : nat) (r : Response) :
  slotsAfter deps (cs ++ [(i, r)])
  = store i (Stored (responseTextOrNull r)) (slotsAfter deps cs).
Proof. unfold slotsAfter. by rewrite foldl_snoc. Qed.

(** Splits the range and distinctness facts of [cs ++ [(j, r)]]. *)
Ltac snoc_facts Hr Hr' Hj :=
  match type of Hr with
  | ∀ i, i ∈ (?cs ++ [(?j, ?r)]).*1 → _ =>
      rewrite fmap_app in Hr;
      assert (∀ i, i ∈ cs.*1 → i < n) as Hr'
        by (intros ? ?; apply Hr, elem_of_app; by left);
      assert (j < n) as Hj
        by (apply Hr, elem_of_app; right; apply list_elem_of_here)
  end.

Lemma slotsAfter_length (cs : list (nat * Response)) :
  (∀ i, i ∈ cs.*1 → i < n) → length (slotsAfter deps cs) = n.
Proof.
  induction cs as [|[i r] cs IH] using rev_ind; intros Hr.
  - apply length_replicate.
  - snoc_facts Hr Hr' Hi.
    rewrite slotsAfter_snoc, store_length; rewrite (IH Hr'); done.
Qed.

(** A request that has not completed leaves its slot [undefined]. *)
Lemma slotsAfter_undefined (cs : list (nat * Response)) (i : nat) :
  (∀ j, j ∈ cs.*1 → j < n) → i ∉ cs.*1 → i < n →
  slotsAfter deps cs !! i = Some Undefined.
Proof.
  intros Hr Hfresh Hi.
  induction cs as [|[j r] cs IH] using rev_ind.
  - unfold slotsAfter. simpl. by apply lookup_replicate_2.
  - snoc_facts Hr Hr' Hj. rewrite fmap_app in Hfresh.
    apply not_elem_of_app in Hfresh as [Hfresh Hij].
    rewrite slotsAfter_snoc, store_in_range
      by (by rewrite slotsAfter_length).
    rewrite list_lookup_insert_ne; [by apply IH|].
    intros ->. apply Hij, list_elem_of_here.
Qed.

(** A request that has completed has left its text in its slot. *)
Lemma slotsAfter_stored (cs : list (nat * Response)) (i : nat) (r : Response) :
  (∀ j, j ∈ cs.*1 → j < n) → NoDup cs.*1 → (i, r) ∈ cs →
  slotsAfter deps cs !! i = Some (Stored (responseTextOrNull r)).
Proof.
  intros Hr Hnd Hin.
  induction cs as [|[j r'] cs IH] using rev_ind.
  - by apply elem_of_nil in Hin.
  - snoc_facts Hr Hr' Hj. rewrite fmap_app in Hnd.
    apply NoDup_app in Hnd as (Hnd & Hdis & _).
    rewrite slotsAfter_snoc, store_in_range
      by (by rewrite slotsAfter_length).
    apply elem_of_app in Hin as [Hin|Hin].
    + rewrite list_lookup_insert_ne; [by apply IH|].
      intros Hij. subst j. apply (Hdis i); [|apply list_elem_of_here].
      apply list_elem_of_fmap. by exists (i, r).
    + apply list_elem_of_singleton in Hin. injection Hin as Hij Hrr.
      subst j r'. apply list_lookup_insert_eq. by rewrite slotsAfter_length.
Qed.

(** The state after any sequence of completions, each request
    completing at most once. *)
Lemma run_spec (cs : list (nat * Response)) :
  (∀ i, i ∈ cs.*1 → i < n) → NoDup cs.*1 →
  run deps hookIsFunction cs
  = {| scriptTexts := slotsAfter deps cs;
       loadedIndex := available (slotsAfter deps cs);
       log := logUpTo deps hookIsFunction (slotsAfter deps cs)
                (available (slotsAfter deps cs)) |}.
Proof.
  induction cs as [|[i r] cs IH] using rev_ind; intros Hr Hnd.
  - unfold run, initial, slotsAfter, logUpTo. simpl.
    assert (available (replicate n Undefined) = 0) as ->
      by (by destruct n).
    rewrite take_0. simpl.
    destruct n; simpl; by rewrite ?andb_false_r.
  - snoc_facts Hr Hr' Hi. rewrite fmap_app in Hnd.
    pose proof Hnd as Hnd'. apply NoDup_app in Hnd' as (Hnd0 & Hdis & _).
    assert (i ∉ cs.*1) as Hfresh.
    { intros Hin. apply (Hdis i Hin), list_elem_of_here. }
    specialize (IH Hr' Hnd0).
    unfold run in *. rewrite foldl_snoc, IH. clear IH.
    pose proof (slotsAfter_length cs Hr') as Hlen.
    pose proof (slotsAfter_undefined cs i Hr' Hfresh Hi) as Hslot.
    set (arr := slotsAfter deps cs) in *.
    assert (available arr ≤ i) as HAi.
    { destruct (decide (available arr ≤ i)) as [|Hgt]; [done|].
      destruct (available_stored arr i) as [t Ht]; [lia|]. congruence. }
    rewrite slotsAfter_snoc. fold arr. rewrite store_in_range by lia.
    unfold onLoad. cbn [scriptTexts loadedIndex log]. rewrite store_in_range by lia.
    set (arr' := <[i := Stored (responseTextOrNull r)]> arr).
    assert (length arr' = n) as Hlen' by (unfold arr'; by rewrite length_insert).
    assert (available arr ≤ available arr') as Hmono.
    { apply available_ge. intros j Hj. unfold arr'.
      rewrite list_lookup_insert_ne by lia. by apply available_stored. }
    rewrite writeNextScript_spec; cbn [scriptTexts loadedIndex log];
      [|done|done].
    f_equal. unfold logUpTo.
    assert ((n <=? available arr) = false) as -> by (apply Nat.leb_gt; lia).
    assert ((0 <? n) = true) as -> by (apply Nat.ltb_lt; lia).
    rewrite andb_false_r, app_nil_r, andb_true_r. f_equal.
    rewrite <-writesFrom_app. f_equal.
    assert (take (available arr) (zip arr deps)
            = take (available arr) (zip arr' deps)) as ->.
    { unfold arr'. rewrite !zip_with_take. f_equal.
      by rewrite take_insert_ge. }
    rewrite take_take_drop. f_equal. lia.
Qed.

(** The array depends on which requests have completed, not on the
    order in which they did. *)
Lemma slotsAfter_Permutation (cs1 cs2 : list (nat * Response)) :
  (∀ i, i ∈ cs1.*1 → i < n) → NoDup cs1.*1 → cs1 ≡ₚ cs2 →
  slotsAfter deps cs1 = slotsAfter deps cs2.
Proof.
  intros Hr1 Hnd1 Hperm.
  assert (∀ i, i ∈ cs2.*1 → i < n) as Hr2.
  { intros i Hi. apply Hr1. by rewrite Hperm. }
  assert (NoDup cs2.*1) as Hnd2 by (by rewrite <-Hperm).
  apply list_eq_same_length with n; [by apply slotsAfter_length..|].
  intros i x y Hi Hx Hy.
  destruct (decide (i ∈ cs1.*1)) as [Hin|Hout].
  - apply list_elem_of_fmap in Hin as ([j r] & -> & Hin). cbn [fst] in *.
    rewrite (slotsAfter_stored cs1 j r Hr1 Hnd1 Hin) in Hx.
    rewrite Hperm in Hin.
    rewrite (slotsAfter_stored cs2 j r Hr2 Hnd2 Hin) in Hy. congruence.
  - rewrite (slotsAfter_undefined cs1 i Hr1 Hout Hi) in Hx.
    rewrite Hperm in Hout.
    rewrite (slotsAfter_undefined cs2 i Hr2 Hout Hi) in Hy. congruence.
Qed.

Lemma run_Permutation (cs1 cs2 : list (nat * Response)) :
  (∀ i, i ∈ cs1.*1 → i < n) → NoDup cs1.*1 → cs1 ≡ₚ cs2 →
  run deps hookIsFunction cs1 = run deps hookIsFunction cs2.
Proof.
  intros Hr1 Hnd1 Hperm.
  assert (∀ i, i ∈ cs2.*1 → i < n) as Hr2.
  { intros i Hi. apply Hr1. by rewrite Hperm. }
  assert (NoDup cs2.*1) as Hnd2 by (by rewrite <-Hperm).
  rewrite (run_spec cs1 Hr1 Hnd1), (run_spec cs2 Hr2 Hnd2).
  by rewrite (slotsAfter_Permutation cs1 cs2 Hr1 Hnd1 Hperm).
Qed.

End Async.

End LoaderFacts.

Module LoaderSpec.
Import Loader LoaderFacts Examples.

(** C3: under the asynchronous strategy, whatever the order in which the
    requests complete (each at most once), every completion has stored
    its text at the index of its request; [loadedIndex] is the first
    index whose slot is still [undefined]; the log holds the scripts of
    the slots below it in index order; the completion hook is in the log
    only when [loadedIndex] has reached the end of the list, and then as
    its last entry; the same completions in any other order lead to the
    same state; and once every request has completed the log is the one
    of the dependency list written in index order. *)
Theorem async_loader_writes_in_index_order (deps : list Dep)
    (hookIsFunction : bool) (completions : list (nat * Response)) :
  NoDup completions.*1 →
  (∀ i, i ∈ completions.*1 → i < length deps) →
  let st := run deps hookIsFunction completions in
  (∀ i r, (i, r) ∈ completions →
          scriptTexts st !! i = Some (Stored (responseTextOrNull r)))
  ∧ loadedIndex st = available (scriptTexts st)
  ∧ log st = logUpTo deps hookIsFunction (scriptTexts st) (loadedIndex st)
  ∧ (SourceLoadHook ∈ log st → loadedIndex st = length deps)
  ∧ (∀ reordered,
       reordered ≡ₚ completions → run deps hookIsFunction reordered = st)
  ∧ (∀ responses,
       length responses = length deps →
       completions ≡ₚ imap (λ i r, (i, r)) responses →
       loadedIndex st = length deps
       ∧ log st
         = logUpTo deps hookIsFunction
             ((λ r, Stored (responseTextOrNull r)) <$> responses)
             (length deps)).
Proof.
  intros Hnd Hr st. unfold st. rewrite (run_spec deps _ _ Hr Hnd).
  cbn [scriptTexts loadedIndex log].
  pose proof (slotsAfter_length deps completions Hr) as Hlen.
  split_and!; [|done|done| | |].
  - intros i r Hin. by apply slotsAfter_stored.
  - unfold logUpTo. rewrite elem_of_app. intros [Hw|Hh].
    + exfalso. revert Hw. apply writesFrom_no_hook, not_elem_of_nil.
    + destruct (length deps <=? available (slotsAfter deps completions))
        eqn:Hle.
      * apply Nat.leb_le in Hle.
        pose proof (available_le (slotsAfter deps completions)). lia.
      * rewrite andb_false_r in Hh. by apply elem_of_nil in Hh.
  - intros reordered Hperm.
    rewrite <-(run_spec deps _ _ Hr Hnd). symmetry.
    by apply run_Permutation.
  - intros responses Hlr Hperm.
    assert (slotsAfter deps completions
            = (λ r, Stored (responseTextOrNull r)) <$> responses) as ->.
    { apply list_eq_same_length with (length deps);
        [by rewrite length_fmap|done|].
      intros i x y Hi Hx Hy.
      destruct (lookup_lt_is_Some_2 responses i) as [r Hri]; [lia|].
      rewrite list_lookup_fmap, Hri in Hy. injection Hy as <-.
      rewrite (slotsAfter_stored deps completions i r Hr Hnd) in Hx;
        [congruence|].
      rewrite Hperm. apply elem_of_lookup_imap. by exists i, r. }
    assert (∀ l : list Response,
              available ((λ r, Stored (responseTextOrNull r)) <$> l)
              = length l) as Hav.
    { induction l as [|r l IH]; [done|]. rewrite fmap_cons. simpl.
      by rewrite IH. }
    rewrite Hav, Hlr. done.
Qed.

Lemma async_loader_writes_in_index_order_witness :
  log (run threeDeps true completions201)
  = [ScriptInjected
       ("var a;" +:+ Js.nl +:+ "//# sourceURL=/js/a.js");
     ScriptInjected
       ("goog.loadModule(function(exports) {" +:+ Js.dq +:+ "use strict"
        +:+ Js.dq +:+ ";var b;" +:+ Js.nl +:+ ";return exports});" +:+ Js.nl
        +:+ "//# sourceURL=/js/b.js" +:+ Js.nl);
     ScriptInjected
       ("var c;" +:+ Js.nl +:+ "//# sourceURL=/js/c.js");
     SourceLoadHook].
Proof.
  destruct (async_loader_writes_in_index_order threeDeps true completions201)
    as (_ & _ & _ & _ & _ & Hall).
  - apply (bool_decide_unpack _). by vm_compute.
  - intros i Hi. simpl in Hi.
    repeat (apply elem_of_cons in Hi as [->|Hi]; [simpl; lia|]).
    by apply elem_of_nil in Hi.
  - destruct (Hall threeResponses) as [_ ->].
    + reflexivity.
    + unfold completions201, threeResponses. simpl.
      etrans; [apply Permutation_swap|]. apply perm_skip, Permutation_swap.
    + by vm_compute.
Defined.

End LoaderSpec.

Module WriterFacts.
Import ModuleDepsWriter.

(** Induction over a module tree, with the property at hand for every
    sub-module. *)
Lemma JsModule_tree_ind (P : JsModule → Prop) :
  (∀ n p d w subs, Forall P subs → P (mkJsModule n p d w subs)) →
  ∀ module, P module.
Proof.
  intros Hstep. fix IH 1. intros [n p d w subs]. apply Hstep.
  induction subs as [|sub subs IHsubs]; constructor; [apply IH|apply IHsubs].
Qed.

Section Writing.

Context (JSON_stringify : Json → string).
Context (path_dirname path_resolve : string → string).
Context (path_relative : string → string → string).
Context (runWrapper : string → Writer → JsModule → string).
Context {Err : Type}.
Context (writeFile : list Attempt → string → string → option Err).

Abbreviation content :=
  (_getDepFileContent JSON_stringify path_dirname path_resolve path_relative
     runWrapper).
Abbreviation create :=
  (_createDepFiles JSON_stringify path_dirname path_resolve path_relative
     runWrapper writeFile).
Abbreviation art :=
  (artifact JSON_stringify path_dirname path_resolve path_relative runWrapper).
Abbreviation serial := (writeSerial writeFile).

Lemma writeSerial_app (history : list Attempt) (a1 a2 : list Attempt) :
  serial history (a1 ++ a2)
  = match serial history a1 with
    | (h, Some err) => (h, Some err)
    | (h, None) => serial h a2
    end.
Proof.
  revert history. induction a1 as [|a a1 IH]; intros history; [done|].
  simpl. destruct (writeFile history a.2 a.1); [done|]. apply IH.
Qed.

(** The tree walk is the strict sequence over the modules in preorder. *)
Lemma _createDepFiles_serial (this : Writer) (module : JsModule)
    (history : list Attempt) :
  create this module history
  = serial history (art this <$> preorder module).
Proof.
  revert history.
  induction module as [n p d w subs IH] using JsModule_tree_ind.
  intros history.
  change (preorder (mkJsModule n p d w subs))
    with (mkJsModule n p d w subs :: flat_map preorder subs).
  rewrite fmap_cons.
  cbn [_createDepFiles writeSerial artifact fst snd subModules].
  destruct (writeFile history _ _) as [err|]; [done|].
  match goal with
  | |- _ _ ?h1 = writeSerial _ ?h2 _ => change h2 with h1; generalize h1
  end.
  clear history.
  induction IH as [|sub subs Hsub _ IHsubs]; intros history; [done|].
  simpl. rewrite fmap_app, writeSerial_app, <-Hsub.
  destruct (create this sub history) as [h [err|]]; [done|].
  apply IHsubs.
Qed.

(** A strict sequence attempts a head of the list; every attempt but the
    last succeeded, and the last one yields the result. *)
Lemma writeSerial_prefix (history artifacts : list Attempt) :
  ∃ k, k ≤ length artifacts
       ∧ (serial history artifacts).1 = history ++ take k artifacts
       ∧ (∀ i a, i < k → artifacts !! i = Some a →
                 writeFile (history ++ take i artifacts) a.2 a.1
                 = if decide (S i = k) then (serial history artifacts).2
                   else None)
       ∧ ((serial history artifacts).2 = None → k = length artifacts)
       ∧ (is_Some (serial history artifacts).2 → 0 < k).
Proof.
  revert history. induction artifacts as [|a rest IH]; intros history.
  - exists 0. simpl. split_and!; [done|by rewrite app_nil_r| |done|].
    + intros i a' Hi. lia.
    + by intros [e He].
  - simpl. destruct (writeFile history a.2 a.1) as [err|] eqn:Hw.
    + exists 1. cbn [fst snd]. split_and!; [simpl; lia|done| |done|lia].
      intros i a' Hi Ha. assert (i = 0) as -> by lia.
      injection Ha as <-. simpl. by rewrite app_nil_r.
    + destruct (IH (history ++ [a])) as (k & Hk & Hh & Hout & Hnone & Hsome).
      exists (S k). split_and!; [simpl; lia| | |intros ?; f_equal; auto|lia].
      * rewrite Hh. simpl. by rewrite <-app_assoc.
      * intros i a' Hi Ha. destruct i as [|i].
        -- injection Ha as <-. simpl. rewrite app_nil_r, Hw.
           case_decide as Hd; [|done].
           assert (k = 0) as -> by lia. symmetry.
           destruct (serial (history ++ [a]) rest).2 eqn:Hs; [|done].
           exfalso. assert (0 < 0); [|lia]. apply Hsome. by eexists.
        -- simpl in Ha. simpl. rewrite (cons_middle a history), app_assoc.
           rewrite (Hout i a') by (done || lia).
           repeat case_decide; (done || lia).
Qed.

End Writing.

End WriterFacts.

Module WriterSpec.
Import ModuleDepsWriter WriterFacts ReplaceFacts Examples.

Section Writing.

Context (JSON_stringify : Json → string).
Context (path_dirname path_resolve : string → string).
Context (path_relative : string → string → string).
Context (runWrapper : string → Writer → JsModule → string).
Context {Err : Type}.
Context (writeFile : list Attempt → string → string → option Err).
Context (parse : ModuleParser → Err + JsModule).
Context (save : string → SaveOutcome Err).

Abbreviation content :=
  (_getDepFileContent JSON_stringify path_dirname path_resolve path_relative
     runWrapper).
Abbreviation create :=
  (_createDepFiles JSON_stringify path_dirname path_resolve path_relative
     runWrapper writeFile).
Abbreviation art :=
  (artifact JSON_stringify path_dirname path_resolve path_relative runWrapper).
Abbreviation subst :=
  (substitute JSON_stringify path_dirname path_resolve path_relative).

(** C4: the walk of [_createDepFiles] is the strict sequence of writes
    over the modules in preorder, where a module comes before the
    preorders of its sub-modules, taken in their order.  So the attempted
    writes are a head of that list; every attempt but the last succeeded;
    the result passed to the callback is the outcome of the last attempt;
    and nothing after a failed write is attempted. *)
Theorem artifacts_written_serially_parent_first (this : Writer)
    (rootModule : JsModule) (history : list Attempt) :
  let artifacts := art this <$> preorder rootModule in
  let result := create this rootModule history in
  preorder rootModule
  = rootModule :: flat_map preorder (subModules rootModule)
  ∧ result = writeSerial writeFile history artifacts
  ∧ ∃ k, k ≤ length artifacts
         ∧ result.1 = history ++ take k artifacts
         ∧ (∀ i a, i < k → artifacts !! i = Some a →
                   writeFile (history ++ take i artifacts) a.2 a.1
                   = if decide (S i = k) then result.2 else None)
         ∧ (result.2 = None → k = length artifacts)
         ∧ (is_Some result.2 → 0 < k).
Proof.
  intros artifacts result. split_and!.
  - by destruct rootModule.
  - apply _createDepFiles_serial.
  - unfold result. rewrite _createDepFiles_serial. apply writeSerial_prefix.
Qed.

(** C7, amended: with a cache configured and the tree parsed, a failure
    that [save] reports to its callback is logged and nothing else
    changes: the artifacts are written and the callback receives the
    result of the writing, as when the save succeeds.  An exception
    thrown by the call of [save] is not logged: it is passed to the
    callback and no artifact is written. *)
Theorem save_callback_failure_logged_not_propagated (this : Writer)
    (rootModule : JsModule) (file : string) :
  parse (_parser this) = inr rootModule →
  _cache this = Some file →
  let writing :=
    _build JSON_stringify path_dirname path_resolve path_relative runWrapper
      writeFile this rootModule in
  let result :=
    build JSON_stringify path_dirname path_resolve path_relative runWrapper
      writeFile parse save this in
  match save file with
  | SaveDone => result = mkBuildResult [] writing.1 writing.2
  | SaveFailed err => result = mkBuildResult [err] writing.1 writing.2
  | SaveThrown err => result = mkBuildResult [] [] (Some err)
  end.
Proof.
  intros Hparse Hcache writing result. unfold result, build, writing.
  rewrite Hparse, Hcache.
  destruct (save file) as [|err|err]; try done;
    by destruct (_build _ _ _ _ _ _ _ _).
Qed.

(** C9: the content of a module that has a wrapper is the text returned
    by the wrapper after the six substitutions, and that is the content
    handed to [utils.writeFile] for the module. *)
Theorem custom_wrapper_output_is_substituted (this : Writer)
    (module : JsModule) (w : string) (history : list Attempt) :
  wrapper module = Some w →
  content this module = subst this module (runWrapper w this module)
  ∧ (create this module history).1 !! length history
    = Some (filename this module,
            subst this module (runWrapper w this module)).
Proof.
  intros Hw.
  assert (content this module = subst this module (runWrapper w this module))
    as Hc by (unfold _getDepFileContent; by rewrite Hw).
  split; [done|]. rewrite <-Hc.
  rewrite _createDepFiles_serial.
  destruct (writeSerial_prefix writeFile history (art this <$> preorder module))
    as (k & _ & -> & _ & Hnone & Hsome).
  assert (preorder module = module :: flat_map preorder (subModules module))
    as Hpre by (by destruct module).
  rewrite Hpre, fmap_cons in *.
  assert (0 < k) as Hk.
  { destruct (writeSerial writeFile history _).2 as [err|].
    - apply Hsome. by eexists.
    - rewrite Hnone by done. simpl. lia. }
  destruct k as [|k]; [lia|].
  by rewrite lookup_app_r, Nat.sub_diag.
Qed.

(** The substitution at work on a wrapper: a [%defines%] placeholder in
    an otherwise plain text is replaced by the JSON of the defines. *)
Lemma wrapper_defines_placeholder_replaced (this : Writer)
    (module : JsModule) (w pre post : string) :
  wrapper module = Some w →
  runWrapper w this module = pre +:+ "%defines%" +:+ post →
  Js.hasChar "%" pre = false →
  Js.hasChar "%" post = false →
  let jsonDefines :=
    JSON_stringify (default (JObject []) (_definesMap this)) in
  Js.hasChar "%" jsonDefines = false →
  Js.hasChar "$" jsonDefines = false →
  content this module = pre +:+ jsonDefines +:+ post.
Proof.
  intros Hw Htext Hpre Hpost jsonDefines Hd Hdollar.
  unfold _getDepFileContent, substitute. rewrite Hw, Htext.
  fold jsonDefines.
  assert (Js.replaceAll "%defines%" jsonDefines
            (pre +:+ "%defines%" +:+ post)
          = pre +:+ jsonDefines +:+ post) as ->.
  { unfold Js.replaceAll. rewrite (replaceAllGo_placeholder _ _ _ _ _ _ Hpre).
    rewrite (expandReplacement_plain _ _ _ _ Hdollar).
    by rewrite (replaceAllGo_no_match _ _ _ _ _ Hpost). }
  assert (Js.hasChar "%" (pre +:+ jsonDefines +:+ post) = false) as Hplain.
  { by rewrite !hasChar_append, Hpre, Hd, Hpost. }
  unfold Js.replaceAll.
  by rewrite !(replaceAllGo_no_match _ _ _ _ _ Hplain).
Qed.

End Writing.

(** C7, as stated, fails: the tree is parsed, a cache is configured and
    its save fails by throwing; the failure is not logged, the callback
    receives it, and no artifact is written. *)
Lemma save_exception_is_propagated :
  parseOk (_parser cachedWriter) = inr rootModule
  ∧ _cache cachedWriter = Some "cache.json"
  ∧ saveThrows "cache.json" = SaveThrown "ENOSPC"
  ∧ build stubStringify stubDirname stubResolve stubRelative
      placeholderWrapper writeOk parseOk saveThrows cachedWriter
    = {| logged := []; attempted := []; reported := Some "ENOSPC" |}.
Proof. by split_and!. Qed.

Lemma artifacts_written_serially_parent_first_witness :
  _createDepFiles stubStringify stubDirname stubResolve stubRelative
    placeholderWrapper writeRootFails cachedWriter rootModule []
  = ([("out/R.js",
       "{}|{}|{}|R|/static/|[/static/src/f1.js,/static/src/f2.js]")],
     Some "EACCES").
Proof.
  destruct (artifacts_written_serially_parent_first stubStringify stubDirname
              stubResolve stubRelative placeholderWrapper writeRootFails
              cachedWriter rootModule []) as (_ & -> & _).
  by vm_compute.
Defined.

Lemma save_callback_failure_logged_not_propagated_witness :
  build stubStringify stubDirname stubResolve stubRelative
    placeholderWrapper writeOk parseOk saveFails cachedWriter
  = {| logged := ["ENOSPC"];
       attempted :=
         [("out/R.js",
           "{}|{}|{}|R|/static/|[/static/src/f1.js,/static/src/f2.js]");
          ("out/C.js",
           "{}|{}|{}|C|/static/|[/static/src/f1.js,/static/src/f2.js,/static/src/f3.js]")];
       reported := None |}.
Proof.
  pose proof (save_callback_failure_logged_not_propagated stubStringify
                stubDirname stubResolve stubRelative placeholderWrapper
                writeOk parseOk saveFails cachedWriter rootModule "cache.json"
                eq_refl eq_refl) as H.
  cbv zeta in H. unfold saveFails at 1 in H. rewrite H. by vm_compute.
Defined.

Lemma custom_wrapper_output_is_substituted_witness :
  _getDepFileContent stubStringify stubDirname stubResolve stubRelative
    placeholderWrapper cachedWriter rootModule
  = "{}|{}|{}|R|/static/|[/static/src/f1.js,/static/src/f2.js]".
Proof.
  destruct (custom_wrapper_output_is_substituted stubStringify stubDirname
              stubResolve stubRelative placeholderWrapper writeOk cachedWriter
              rootModule "w" [] eq_refl) as [-> _].
  by vm_compute.
Defined.

End WriterSpec.

(** * Further properties of the code *)

Module UsageProps.
Import Js JsFacts ReplaceFacts RequireChecker ScanFacts MatchFacts.
Import Examples.

Lemma isDot_not_identifier (t : Token) :
  isDot t = true → isIdentifier t = false.
Proof.
  unfold isDot, isIdentifier. intros [Hp _]%andb_true_iff.
  apply String.eqb_eq in Hp as <-. done.
Qed.

Lemma scanToken_dot (st : ScanState) (t : Token) :
  isDot t = true → scanToken st t = st.
Proof.
  intros Hd. destruct st as [m id]. unfold scanToken.
  by rewrite (isDot_not_identifier t Hd), Hd.
Qed.

(** X1: the [.] punctuators do not matter to [getFileIdsMap]: a token
    stream and the same stream without them yield the same keys, so
    identifiers that merely follow one another are joined like a dotted
    chain. *)
Theorem getFileIdsMap_ignores_dots (toks : list Token) :
  getFileIdsMap (filter (λ t, isDot t = false) toks) = getFileIdsMap toks.
Proof.
  unfold getFileIdsMap. f_equal. generalize (([], []) : ScanState).
  induction toks as [|t toks IH]; intros st; [done|].
  rewrite filter_cons. destruct (isDot t) eqn:Hd.
  - rewrite decide_False by done. rewrite IH.
    change (scanTokens st (t :: toks)) with (scanTokens (scanToken st t) toks).
    by rewrite scanToken_dot.
  - rewrite decide_True by done.
    change (scanTokens st (t :: ?l)) with (scanTokens (scanToken st t) l).
    apply IH.
Qed.

(** The keys found from a state are those it held and those found from
    the same pending chain with no key held. *)
Lemma scanTokens_keys_base (m id : list string) (toks : list Token) :
  (scanTokens (m, id) toks).2 = (scanTokens ([], id) toks).2
  ∧ ∀ k, k ∈ (scanTokens (m, id) toks).1
         ↔ k ∈ m ∨ k ∈ (scanTokens ([], id) toks).1.
Proof.
  induction toks as [|t toks [IHp IHk]] using rev_ind.
  - split; [done|]. intros k. simpl. rewrite elem_of_nil. tauto.
  - rewrite !scanTokens_snoc.
    destruct (scanTokens (m, id) toks) as [m1 id1].
    destruct (scanTokens ([], id) toks) as [m2 id2].
    cbn [fst snd] in *. subst id2. unfold scanToken.
    destruct (isIdentifier t); [done|].
    destruct (negb (isDot t) && negb (length id1 =? 0)); [|done].
    cbn [fst snd]. split; [done|]. intros k.
    rewrite !elem_of_recordId, IHk. tauto.
Qed.

(** X2: a terminator cuts the stream in two parts that are scanned
    independently: the keys of the whole are the keys of the part up to
    and including the terminator together with the keys of the rest. *)
Theorem getFileIdsMap_split_at_terminator (pre post : list Token) (t : Token)
    (k : string) :
  isTerminator t = true →
  k ∈ getFileIdsMap (pre ++ t :: post)
  ↔ k ∈ getFileIdsMap (pre ++ [t]) ∨ k ∈ getFileIdsMap post.
Proof.
  intros Ht. unfold getFileIdsMap.
  rewrite (cons_middle t pre post), app_assoc, scanTokens_app.
  rewrite scanTokens_snoc.
  destruct (scanTokens ([], []) pre) as [m id].
  rewrite (scanToken_terminator _ _ _ Ht).
  destruct id as [|x id]; cbn [fst snd];
    match goal with
    | |- context [scanTokens (?M, []) post] =>
        by destruct (scanTokens_keys_base M [] post) as [_ ->]
    end.
Qed.

Lemma getFileIdsMap_split_at_terminator_witness :
  "b" ∈ getFileIdsMap ([ident "a"] ++ punct ";" :: [ident "b"; punct ";"]).
Proof.
  apply (getFileIdsMap_split_at_terminator [ident "a"] [ident "b"; punct ";"]
           (punct ";") "b").
  - reflexivity.
  - right. vm_compute. apply list_elem_of_here.
Defined.

(** X3: in a descending candidate array a usage resolves to a candidate
    exactly when that candidate is one of the accepted candidates and no
    accepted candidate is longer: the most specific namespace wins. *)
Theorem firstMatch_iff_longest_accepted (provides' : list string)
    (id p : string) :
  StronglySorted (flip String.le) provides' →
  firstMatch jsMatches provides' id = Some p
  ↔ p ∈ provides' ∧ jsMatches id p = true
    ∧ ∀ q, q ∈ provides' → jsMatches id q = true →
           String.length q ≤ String.length p.
Proof.
  intros Hs. split.
  - intros Hf. destruct (firstMatch_elem_of _ _ _ _ Hf) as [Hin Hm].
    split_and!; [done..|]. intros q Hq Hqm.
    by apply (firstMatch_longest provides' id p q).
  - intros (Hin & Hm & Hmax).
    destruct (firstMatch jsMatches provides' id) as [p'|] eqn:Hf.
    + pose proof (firstMatch_longest _ _ _ _ Hs Hf Hin Hm) as Hle.
      destruct (firstMatch_elem_of _ _ _ _ Hf) as [Hin' Hm'].
      pose proof (Hmax p' Hin' Hm') as Hle'.
      apply jsMatches_spec in Hm as [[r ->] _].
      apply jsMatches_spec in Hm' as [[r' Hr'] _].
      f_equal. clear -Hle Hle' Hr'.
      revert p r r' Hle Hle' Hr'.
      induction p' as [|a p' IH]; intros [|b p] r r' Hle Hle' Hr';
        simpl in *; try lia; [done|].
      rewrite !append_cons in Hr'. injection Hr' as -> Hr'.
      f_equal. apply (IH p r r'); [lia|lia|done].
    + rewrite firstMatch_None in Hf. by rewrite (Hf p Hin) in Hm.
Qed.

Lemma firstMatch_iff_longest_accepted_witness :
  firstMatch jsMatches ["a.b.C"; "a.b"; "a"] "a.b.C.d" = Some "a.b.C".
Proof.
  apply firstMatch_iff_longest_accepted.
  - repeat constructor.
  - split_and!; [apply list_elem_of_here|reflexivity|].
    intros q Hq _.
    repeat (apply elem_of_cons in Hq as [->|Hq]; [simpl; lia|]).
    by apply elem_of_nil in Hq.
Defined.

Lemma replaceFirstChar_absent (c : ascii) (repl s : string) :
  hasChar c s = false → replaceFirstChar c repl s = s.
Proof.
  induction s as [|a s IH]; [done|]. simpl.
  intros [Ha Hs]%orb_false_iff. rewrite Ha. f_equal. by apply IH.
Qed.

Lemma replaceFirstChar_first (c : ascii) (repl a rest : string) :
  hasChar c a = false →
  replaceFirstChar c repl (a +:+ String c rest) = a +:+ repl +:+ rest.
Proof.
  induction a as [|x a IH]; simpl.
  - intros _. rewrite append_nil. simpl. by rewrite Ascii.eqb_refl.
  - intros [Hx Ha]%orb_false_iff. rewrite !append_cons. simpl.
    rewrite Hx. f_equal. by apply IH.
Qed.

(** X4: of the characters of a candidate only the first [.] is escaped
    in its pattern; every later [.] reaches the regular expression as a
    wildcard.  (Likewise only the first [$] is escaped.) *)
Theorem escapeProvide_first_dot_only (a rest : string) :
  hasChar "." a = false →
  hasChar "$" (a +:+ "." +:+ rest) = false →
  docRegExpSource (a +:+ "." +:+ rest)
  = "[^A-Za-z0-9_.$]" +:+ a +:+ "\." +:+ rest +:+ "[^A-Za-z0-9_$]".
Proof.
  intros Ha Hd. unfold docRegExpSource, escapeProvide.
  change ("." +:+ rest) with (String "." rest) in *.
  rewrite (replaceFirstChar_first "." "\." a rest Ha).
  rewrite replaceFirstChar_absent.
  - by rewrite !append_assoc.
  - rewrite !hasChar_append in *. simpl in *.
    apply orb_false_iff in Hd as [-> Hd]. simpl in Hd. by rewrite Hd.
Qed.

Lemma escapeProvide_first_dot_only_witness :
  docRegExpSource "ns.sub.Foo"
  = "[^A-Za-z0-9_.$]ns\.sub.Foo[^A-Za-z0-9_$]".
Proof.
  apply (escapeProvide_first_dot_only "ns" "sub.Foo"); reflexivity.
Defined.

End UsageProps.

Module CheckProps.
Import Js JsFacts RequireChecker ScanFacts MatchFacts ResolveFacts CheckerFacts.
Import Examples.

Lemma sort_Permutation (l1 l2 : list string) : l1 ≡ₚ l2 → sort l1 = sort l2.
Proof.
  intros Hp.
  apply (StronglySorted_unique String.le); [apply sort_sorted..|].
  unfold sort. by rewrite !merge_sort_Permutation.
Qed.

Section Resolve.

Context (matches : string → string → bool) (provides' : list string).

Lemma resolveUsage_NoDup (st : Cache * list string) (id : string) :
  NoDup st.2 → NoDup (resolveUsage matches provides' st id).2.
Proof.
  destruct st as [c m]. cbn [snd]. intros Hnd. unfold resolveUsage.
  destruct (readMemo c id) as [| |cached|k];
    [destruct (firstMatch matches provides' id)| |destruct (truthy cached)|];
    cbn [snd]; try done; by apply NoDup_setKey.
Qed.

Lemma resolveUsages_NoDup (cache : Cache) (ids : list string) :
  NoDup (resolveUsages matches provides' cache ids).2.
Proof.
  unfold resolveUsages.
  assert (∀ st, NoDup st.2 →
            NoDup (foldl (resolveUsage matches provides') st ids).2) as H.
  { induction ids as [|id ids IH]; intros st Hst; [done|].
    cbn [foldl]. by apply IH, resolveUsage_NoDup. }
  apply H. apply NoDup_nil_2.
Qed.

Lemma resolveUsage_memo (st : Cache * list string) (id : string) :
  (∀ i v, st.1 !! i = Some v →
          (resolveUsage matches provides' st id).1 !! i = Some v)
  ∧ (inherited id = false →
     is_Some ((resolveUsage matches provides' st id).1 !! id)).
Proof.
  destruct st as [c m]. cbn [fst]. unfold resolveUsage, readMemo.
  destruct (c !! id) as [[cached|]|] eqn:Hc.
  - destruct (truthy cached); cbn [fst]; split; try done; by rewrite Hc.
  - cbn [fst]. split; [done|]. by rewrite Hc.
  - destruct (inherited id); [by split|].
    destruct (firstMatch matches provides' id); cbn [fst];
      (split; [|by rewrite lookup_insert_eq]);
      intros i v Hi; rewrite lookup_insert_ne; [done| |done|];
      intros ->; congruence.
Qed.

Lemma resolveUsages_memo (cache : Cache) (ids : list string) :
  (∀ i v, cache !! i = Some v →
          (resolveUsages matches provides' cache ids).1 !! i = Some v)
  ∧ ∀ id, id ∈ ids → inherited id = false →
          is_Some ((resolveUsages matches provides' cache ids).1 !! id).
Proof.
  unfold resolveUsages. generalize (@nil string).
  revert cache. induction ids as [|id ids IH]; intros cache m.
  - split; [done|]. intros id Hid. by apply elem_of_nil in Hid.
  - cbn [foldl]. destruct (resolveUsage_memo (cache, m) id) as [Hkeep Hid].
    destruct (resolveUsage matches provides' (cache, m) id) as [c' m'].
    cbn [fst] in *. destruct (IH c' m') as [Hkeep' Hids]. split.
    + intros i v Hi. by apply Hkeep', Hkeep.
    + intros i [->|Hi]%elem_of_cons Hplain; [|by apply Hids].
      destruct (Hid Hplain) as [v Hv]. exists v. by apply Hkeep'.
Qed.

End Resolve.

Section Checking.

Context (getTypes : string → list string).
Context (regExpSearch : string → string → bool).

Abbreviation check := (getWrongRequiresInFile getTypes regExpSearch).

(** X5: both lists of a report are in ascending order. *)
Theorem report_lists_sorted (this : Checker) (jsSource : Source)
    (provides' : list string) :
  StronglySorted String.le
    (missingRequires (snd (check this jsSource provides')))
  ∧ StronglySorted String.le
      (unnecessaryRequires (snd (check this jsSource provides'))).
Proof.
  unfold getWrongRequiresInFile.
  destruct (syntaxTree jsSource) as [tree|]; [|by split; constructor].
  destruct (match tokens tree with Some _ => _ | None => _ end) as [jc used].
  destruct (match comments tree with Some _ => _ | None => _ end) as [dc docs].
  cbn [snd missingRequires unnecessaryRequires]. split; apply sort_sorted.
Qed.

(** When the code memo agrees with the candidates, every namespace in
    [missing] is one of the candidates. *)
Lemma missing_are_candidates (this : Checker) (jsSource : Source)
    (provides' : list string) :
  cacheAgrees jsMatches provides' (_jsCache this) →
  ∀ p, p ∈ missingRequires (snd (check this jsSource provides')) →
       p ∈ provides'.
Proof.
  intros Hag p. unfold getWrongRequiresInFile.
  destruct (syntaxTree jsSource) as [tree|];
    [|intros Hp; by apply elem_of_nil in Hp].
  pose proof (resolveUsages_candidates jsMatches provides' (_jsCache this))
    as Hc.
  destruct (tokens tree) as [toks|];
    [specialize (Hc (getFileIdsMap toks) p Hag (getFileIdsMap_plain toks));
     destruct (resolveUsages jsMatches _ _ _) as [jc used]|];
    destruct (match comments tree with Some _ => _ | None => _ end)
      as [dc docs];
    cbn [snd missingRequires] in *;
    rewrite elem_of_sort, list_elem_of_filter; intros [_ Hp];
    [by apply Hc|by apply elem_of_nil in Hp].
Qed.

(** X6: a namespace is listed at most once in [missing], and, when the
    entries of the code memo are what the loop over the candidate array
    finds, every namespace in [missing] is one of the candidates: a
    namespace that is not in the array is never reported. *)
Theorem missing_distinct_candidates (this : Checker) (jsSource : Source)
    (provides' : list string) :
  NoDup (missingRequires (snd (check this jsSource provides')))
  ∧ (cacheAgrees jsMatches provides' (_jsCache this) →
     ∀ p, p ∈ missingRequires (snd (check this jsSource provides')) →
          p ∈ provides').
Proof.
  split; [|apply missing_are_candidates].
  unfold getWrongRequiresInFile.
  destruct (syntaxTree jsSource) as [tree|]; [|apply NoDup_nil_2].
  pose proof (resolveUsages_NoDup jsMatches provides' (_jsCache this)) as Hnd.
  destruct (tokens tree) as [toks|];
    [specialize (Hnd (getFileIdsMap toks));
     destruct (resolveUsages jsMatches _ _ _) as [jc used]|];
    destruct (match comments tree with Some _ => _ | None => _ end)
      as [dc docs];
    cbn [snd missingRequires] in *; unfold sort;
    rewrite merge_sort_Permutation; apply NoDup_filter;
    [done|apply NoDup_nil_2].
Qed.

(** X7: [unnecessary] is taken from the declared requires, each as often
    as it is declared at most: it is a sorted sub-multiset of them. *)
Theorem unnecessary_from_requires (this : Checker) (jsSource : Source)
    (provides' : list string) :
  unnecessaryRequires (snd (check this jsSource provides'))
    ⊆+ requires jsSource.
Proof.
  unfold getWrongRequiresInFile.
  destruct (syntaxTree jsSource) as [tree|]; [|apply submseteq_nil_l].
  destruct (match tokens tree with Some _ => _ | None => _ end) as [jc used].
  destruct (match comments tree with Some _ => _ | None => _ end) as [dc docs].
  cbn [snd unnecessaryRequires]. unfold sort.
  rewrite merge_sort_Permutation. apply sublist_submseteq, sublist_filter.
Qed.

(** X8: memoisation does not change a report: from memo objects whose
    entries are what the loop over the candidate array finds and of which
    none is the empty string, a file whose doc comments name no member of
    [Object.prototype] as a type gets the report it gets from a checker
    that has resolved nothing yet. *)
Theorem report_independent_of_memo (this : Checker) (jsSource : Source)
    (provides' : list string) :
  checkerCoherent regExpSearch provides' this →
  (∀ tree type, syntaxTree jsSource = Some tree →
                docTypeOf getTypes tree type → inherited type = false) →
  snd (check this jsSource provides')
  = snd (check newChecker jsSource provides').
Proof.
  intros [Hjs Hdoc] Htypes.
  assert (Forall (λ type, inherited type = false)
            (docUsages getTypes jsSource)) as Hplain.
  { apply Forall_forall. intros type Ht.
    destruct (syntaxTree jsSource) as [tree|] eqn:Htree.
    - apply (Htypes tree type eq_refl).
      by apply (elem_of_docUsages getTypes jsSource tree type Htree) in Ht
        as [_ Ht].
    - unfold docUsages in Ht. rewrite Htree in Ht.
      by apply elem_of_nil in Ht. }
  clear Htypes.
  destruct (newChecker_coherent regExpSearch provides') as [Hjs0 Hdoc0].
  unfold getWrongRequiresInFile. unfold docUsages in Hplain.
  destruct (syntaxTree jsSource) as [tree|]; [|done].
  assert (∀ (matches : string → string → bool) c1 c2 ids,
            cacheCoherent matches provides' c1 →
            cacheCoherent matches provides' c2 →
            Forall (λ id, inherited id = false) ids →
            (resolveUsages matches provides' c1 ids).2
            ≡ₚ (resolveUsages matches provides' c2 ids).2) as Hperm.
  { intros matches c1 c2 ids H1 H2 Hids.
    apply NoDup_Permutation; [apply resolveUsages_NoDup..|].
    intros p. by rewrite !resolveUsages_keys. }
  assert ((match tokens tree with
           | Some toks =>
               resolveUsages jsMatches provides' (_jsCache this)
                 (getFileIdsMap toks)
           | None => (_jsCache this, [])
           end).2
          ≡ₚ (match tokens tree with
              | Some toks =>
                  resolveUsages jsMatches provides' (_jsCache newChecker)
                    (getFileIdsMap toks)
              | None => (_jsCache newChecker, [])
              end).2) as Hused.
  { destruct (tokens tree);
      [apply Hperm; [done..|apply getFileIdsMap_plain]|done]. }
  assert ((match comments tree with
           | Some cs =>
               resolveUsages (docMatches regExpSearch) provides'
                 (_docCache this) (collectTypes getTypes cs)
           | None => (_docCache this, [])
           end).2
          ≡ₚ (match comments tree with
              | Some cs =>
                  resolveUsages (docMatches regExpSearch) provides'
                    (_docCache newChecker) (collectTypes getTypes cs)
              | None => (_docCache newChecker, [])
              end).2) as Hdocs.
  { destruct (comments tree); [by apply Hperm|done]. }
  destruct (match tokens tree with
            | Some toks => resolveUsages jsMatches provides' (_jsCache this) _
            | None => _ end) as [jc used].
  destruct (match comments tree with
            | Some cs => resolveUsages _ provides' (_docCache this) _
            | None => _ end) as [dc docs].
  destruct (match tokens tree with Some _ => _ | None => _ end)
    as [jc0 used0].
  destruct (match comments tree with Some _ => _ | None => _ end)
    as [dc0 docs0].
  cbn [fst snd] in *. f_equal.
  - apply sort_Permutation. by rewrite Hused.
  - f_equal. apply list_filter_iff. intros r.
    rewrite !Is_true_true, !andb_true_iff, !negb_true_iff, !hasKey_false.
    by rewrite Hused, Hdocs.
Qed.

(** X9: a memo entry, once made, is never changed by checking a file;
    after a file every key recorded by [getFileIdsMap] has an entry in the
    code memo, and every type of the doc comments that is not the name of
    a member of [Object.prototype] has an entry in the doc memo. *)
Theorem memo_entries_kept_and_filled (this : Checker) (jsSource : Source)
    (provides' : list string) :
  let this' := fst (check this jsSource provides') in
  (∀ id v, _jsCache this !! id = Some v → _jsCache this' !! id = Some v)
  ∧ (∀ id v, _docCache this !! id = Some v → _docCache this' !! id = Some v)
  ∧ (∀ tree toks id,
       syntaxTree jsSource = Some tree → tokens tree = Some toks →
       id ∈ getFileIdsMap toks → is_Some (_jsCache this' !! id))
  ∧ (∀ tree id,
       syntaxTree jsSource = Some tree →
       docTypeOf getTypes tree id → inherited id = false →
       is_Some (_docCache this' !! id)).
Proof.
  cbv zeta. unfold getWrongRequiresInFile.
  destruct (syntaxTree jsSource) as [tree|] eqn:Htree; [|by split_and!].
  pose proof (resolveUsages_memo jsMatches provides' (_jsCache this)) as Hj.
  pose proof (resolveUsages_memo (docMatches regExpSearch) provides'
                (_docCache this)) as Hd.
  pose proof (elem_of_docUsages getTypes jsSource tree) as Hdocs.
  unfold docUsages in Hdocs. rewrite Htree in Hdocs.
  destruct (tokens tree) as [toks|] eqn:Htoks;
    [specialize (Hj (getFileIdsMap toks));
     destruct (resolveUsages jsMatches _ _ _) as [jc used]|clear Hj];
    (destruct (comments tree) as [cs|] eqn:Hcs;
     [specialize (Hd (collectTypes getTypes cs));
      destruct (resolveUsages (docMatches regExpSearch) _ _ _) as [dc docs]
     |clear Hd]);
    cbn [fst snd _jsCache _docCache from_option] in *;
    (split_and!;
     [try done; by apply Hj
     |try done; by apply Hd
     |intros tree' toks' id [= <-] Ht Hid; rewrite Htoks in Ht;
      first [done
            |injection Ht as <-;
             by apply Hj, (proj1 (Forall_forall _ _)
                             (getFileIdsMap_plain toks))]
     |intros tree' id [= <-] Hid Hplain;
      pose proof (proj2 (Hdocs id eq_refl)
                    (conj (inherited_not_proto _ Hplain) Hid)) as Hin;
      first [by apply elem_of_nil in Hin|by apply Hd]]).
Qed.

(** X27: a name of a member of [Object.prototype] is never recorded as
    a used identifier chain, and is never reported, neither as missing
    nor as unnecessary: the reads [idsMap[fullId]],
    [provideRequireMap[id]] and [usedNamespacesMap[require]] find the
    inherited member. *)
Theorem member_names_never_flagged (this : Checker) (jsSource : Source)
    (provides' : list string) (toks : list Token) (p : string) :
  inherited p = true →
  (p ∉ getFileIdsMap toks)
  ∧ (p ∉ missingRequires (snd (check this jsSource provides')))
  ∧ (p ∉ unnecessaryRequires (snd (check this jsSource provides'))).
Proof.
  intros Hp. split_and!.
  - intros Hin.
    apply (proj1 (Forall_forall _ _) (getFileIdsMap_plain toks)) in Hin.
    congruence.
  - unfold getWrongRequiresInFile.
    destruct (syntaxTree jsSource) as [tree|]; [|apply not_elem_of_nil].
    destruct (match tokens tree with Some _ => _ | None => _ end)
      as [jc used].
    destruct (match comments tree with Some _ => _ | None => _ end)
      as [dc docs].
    cbn [snd missingRequires]. rewrite elem_of_sort, list_elem_of_filter.
    rewrite Is_true_true, negb_true_iff, hasKey_false.
    intros [[_ Hi] _]. congruence.
  - unfold getWrongRequiresInFile.
    destruct (syntaxTree jsSource) as [tree|]; [|apply not_elem_of_nil].
    destruct (match tokens tree with Some _ => _ | None => _ end)
      as [jc used].
    destruct (match comments tree with Some _ => _ | None => _ end)
      as [dc docs].
    cbn [snd unnecessaryRequires]. rewrite elem_of_sort, list_elem_of_filter.
    rewrite Is_true_true, andb_true_iff, !negb_true_iff, !hasKey_false.
    intros [[[_ Hi] _] _]. congruence.
Qed.

End Checking.

Lemma missing_distinct_candidates_witness :
  cacheAgrees jsMatches ["a.b.C"; "a.b"] (_jsCache newChecker)
  ∧ Forall (λ p, p ∈ ["a.b.C"; "a.b"])
      (missingRequires
         (snd (getWrongRequiresInFile bracedTypes RegExp.search newChecker
                 prototypeSource ["a.b.C"; "a.b"]))).
Proof.
  assert (cacheAgrees jsMatches ["a.b.C"; "a.b"] (_jsCache newChecker))
    as Hag by apply (newChecker_coherent RegExp.search).
  split; [exact Hag|].
  destruct (missing_distinct_candidates bracedTypes RegExp.search newChecker
              prototypeSource ["a.b.C"; "a.b"]) as [_ Hsub].
  apply Forall_forall. apply Hsub. exact Hag.
Defined.

Lemma report_independent_of_memo_witness :
  snd (getWrongRequiresInFile bracedTypes RegExp.search
         (fst (getWrongRequiresInFile bracedTypes RegExp.search newChecker
                 docRequireSource ["ns.Used"; "ns.Unused"; "ns.DocOnly"]))
         docRequireSource ["ns.Used"; "ns.Unused"; "ns.DocOnly"])
  = snd (getWrongRequiresInFile bracedTypes RegExp.search newChecker
           docRequireSource ["ns.Used"; "ns.Unused"; "ns.DocOnly"]).
Proof.
  apply report_independent_of_memo.
  - apply getWrongRequiresInFile_coherent.
    + intros Hin. repeat (apply elem_of_cons in Hin as [Hin|Hin]; [done|]).
      by apply elem_of_nil in Hin.
    + apply newChecker_coherent.
  - intros tree type [= <-]
      (cs & c & c1 & rest & [= <-] & Hc & Hb & Hv & Hc1 & Ht).
    apply elem_of_cons in Hc as [->|Hc].
    { vm_compute in Ht. by apply list_elem_of_singleton in Ht as ->. }
    apply elem_of_cons in Hc as [->|Hc].
    { injection Hv as <- _. done. }
    by apply list_elem_of_singleton in Hc as ->.
Defined.

Lemma member_names_never_flagged_witness :
  getFileIdsMap
    [keyword "this"; punct "."; ident "constructor"; punct ".";
     ident "prototype"; punct "."; ident "x"; punct "=";
     mkToken "Numeric" "1"; punct ";";
     ident "toString"; punct "."; ident "x"; punct ";"]
  = ["toString.x"]
  ∧ snd (getWrongRequiresInFile bracedTypes RegExp.search newChecker
           memberNamesSource ["valueOf"; "toString"])
    = {| missingRequires := []; unnecessaryRequires := [] |}
  ∧ ("toString" ∉ missingRequires
       (snd (getWrongRequiresInFile bracedTypes RegExp.search newChecker
               memberNamesSource ["valueOf"; "toString"]))).
Proof.
  split_and!; [by vm_compute..|].
  by destruct (member_names_never_flagged bracedTypes RegExp.search
                 newChecker memberNamesSource ["valueOf"; "toString"]
                 [] "toString" eq_refl) as (_ & H & _).
Defined.

End CheckProps.

Module RunProps.
Import Js JsFacts RequireChecker ScanFacts MatchFacts ResolveFacts CheckerFacts.
Import CheckProps Examples RunExamples.

Lemma collectProvides_spec (sources : list Source) :
  NoDup (collectProvides sources)
  ∧ ∀ p, p ∈ collectProvides sources
         ↔ p ≠ "__proto__" ∧ ∃ src, src ∈ sources ∧ p ∈ provides src.
Proof.
  unfold collectProvides.
  assert (∀ m0, NoDup m0 →
            NoDup (foldl (λ m src,
                            foldl (λ m' provide, setKey provide m') m
                              (provides src)) m0 sources)
            ∧ ∀ p, p ∈ foldl (λ m src,
                                foldl (λ m' provide, setKey provide m') m
                                  (provides src)) m0 sources
                   ↔ p ∈ m0
                     ∨ (p ≠ "__proto__"
                        ∧ ∃ src, src ∈ sources ∧ p ∈ provides src)) as H.
  { induction sources as [|src sources IH]; intros m0 Hnd.
    - split; [done|]. intros p. split; [auto|].
      intros [?|(_ & src & Hsrc & _)]; [done|]. by apply elem_of_nil in Hsrc.
    - cbn [foldl].
      destruct (IH (foldl (λ m' provide, setKey provide m') m0 (provides src)))
        as [Hnd' Hk]; [by apply NoDup_foldl_setKey|].
      split; [done|]. intros p. rewrite Hk, elem_of_foldl_setKey. split.
      + intros [[[? ?]|?]|(? & s & Hs & Hp)];
          [right; split; [done|]; exists src|by left
          |right; split; [done|]; exists s];
          (split; [|done]);
          [apply list_elem_of_here|by apply list_elem_of_further].
      + intros [?|(? & s & [->|Hs]%elem_of_cons & Hp)]; [auto|auto|].
        right. split; [done|]. by exists s. }
  destruct (H [] ltac:(constructor)) as [Hnd Hk]. split; [done|].
  intros p. rewrite Hk, elem_of_nil. tauto.
Qed.

Lemma exclude_spec (excluded m0 : list string) :
  let m := foldl (λ m provide,
                    if hasKey m provide then deleteKey provide m else m)
                 m0 excluded in
  (NoDup m0 → NoDup m) ∧ ∀ p, p ∈ m ↔ p ∈ m0 ∧ p ∉ excluded.
Proof.
  revert m0. induction excluded as [|e excluded IH]; intros m0; cbn [foldl].
  - split; [done|]. intros p. split; [|tauto]. intros Hp. split; [done|].
    apply not_elem_of_nil.
  - assert (∀ p, p ∈ (if hasKey m0 e then deleteKey e m0 else m0)
                 ↔ p ∈ m0 ∧ p ≠ e) as Hstep.
    { intros p. destruct (hasKey m0 e) eqn:He.
      - unfold deleteKey. rewrite list_elem_of_filter. tauto.
      - apply hasKey_false in He as [He _]. split; [|tauto]. intros Hp.
        split; [done|]. by intros ->. }
    destruct (IH (if hasKey m0 e then deleteKey e m0 else m0)) as [Hnd Hk].
    split.
    + intros Hnd0. apply Hnd. destruct (hasKey m0 e); [|done].
      by apply NoDup_filter.
    + intros p. rewrite Hk, Hstep, not_elem_of_cons. tauto.
Qed.

(** The members of the candidate array. *)
Lemma provideRegistry_spec (this : Checker) (sources : list Source) :
  NoDup (provideRegistry this sources)
  ∧ ∀ p, p ∈ provideRegistry this sources
         ↔ p ≠ "__proto__"
           ∧ (∃ src, src ∈ sources ∧ p ∈ provides src)
           ∧ ∀ excluded, _excludeProvides this = Some excluded →
                         p ∉ excluded.
Proof.
  unfold provideRegistry.
  destruct (collectProvides_spec sources) as [Hnd Hk].
  destruct (_excludeProvides this) as [excluded|].
  - destruct (exclude_spec excluded (collectProvides sources)) as [Hnd' Hk'].
    split.
    + unfold sortDescending. rewrite merge_sort_Permutation. by apply Hnd'.
    + intros p. rewrite elem_of_sortDescending, Hk', Hk. split.
      * intros [[Hp Hsrc] Hex]. split_and!; [done..|]. by intros ? [= <-].
      * intros (Hp & Hsrc & Hex). split; [done|]. by apply Hex.
  - split.
    + unfold sortDescending. by rewrite merge_sort_Permutation.
    + intros p. rewrite elem_of_sortDescending, Hk. split; [|tauto].
      intros [Hp Hsrc]. split_and!; [done..|]. by intros ? [=].
Qed.

(** X10: the candidate array of a run is in descending order and holds
    every namespace that some analysed file provides and that is not
    excluded, each once, and nothing else.  The one exception is the
    namespace [__proto__], which is never a candidate: the assignment
    that would enter it in [providesMap] runs the inherited setter. *)
Theorem provideRegistry_members (this : Checker) (sources : list Source) :
  StronglySorted (flip String.le) (provideRegistry this sources)
  ∧ NoDup (provideRegistry this sources)
  ∧ ∀ p, p ∈ provideRegistry this sources
         ↔ p ≠ "__proto__"
           ∧ (∃ src, src ∈ sources ∧ p ∈ provides src)
           ∧ ∀ excluded, _excludeProvides this = Some excluded →
                         p ∉ excluded.
Proof.
  destruct (provideRegistry_spec this sources) as [Hnd Hk].
  split_and!; [apply provideRegistry_sorted|exact Hnd|exact Hk].
Qed.

(** X11: the candidate array does not depend on the order in which the
    files were found. *)
Theorem provideRegistry_order_independent (this : Checker)
    (sources1 sources2 : list Source) :
  sources1 ≡ₚ sources2 →
  provideRegistry this sources1 = provideRegistry this sources2.
Proof.
  intros Hperm.
  assert (AntiSymm eq (flip String.le)) as Ha.
  { intros x y Hxy Hyx. unfold flip in *. by apply (anti_symm String.le). }
  apply (StronglySorted_unique (flip String.le));
    [apply provideRegistry_sorted..|].
  destruct (provideRegistry_spec this sources1) as [Hnd1 Hk1].
  destruct (provideRegistry_spec this sources2) as [Hnd2 Hk2].
  apply NoDup_Permutation; [done..|].
  intros p. rewrite Hk1, Hk2.
  split; intros (Hn & (src & Hsrc & Hp) & Hex); (split_and!; [done| |done]);
    exists src; (split; [|done]); [by rewrite <-Hperm|by rewrite Hperm].
Qed.

Lemma provideRegistry_order_independent_witness :
  provideRegistry newChecker (reverse providerSources)
  = provideRegistry newChecker providerSources.
Proof.
  apply provideRegistry_order_independent.
  unfold providerSources. simpl. apply Permutation_swap.
Defined.

Lemma elem_of_setProp (k : string) (v : list string)
    (obj : list (string * list string)) (e : string * list string) :
  e ∈ setProp k v obj → e = (k, v) ∨ e ∈ obj.
Proof.
  unfold setProp. destruct (String.eqb k "__proto__"); [auto|].
  induction obj as [|[k' v'] obj IH]; simpl.
  - intros ->%list_elem_of_singleton. by left.
  - destruct (String.eqb k' k).
    + intros [->|He]%elem_of_cons; [by left|].
      right. by apply list_elem_of_further.
    + intros [->|He]%elem_of_cons; [right; apply list_elem_of_here|].
      destruct (IH He) as [?|?]; [by left|].
      right. by apply list_elem_of_further.
Qed.

Lemma setOwnProp_keys (k : string) (v : list string)
    (obj : list (string * list string)) :
  (setOwnProp k v obj).*1
  = if decide (k ∈ obj.*1) then obj.*1 else obj.*1 ++ [k].
Proof.
  induction obj as [|[k' v'] obj IH].
  - rewrite decide_False; [done|]. apply not_elem_of_nil.
  - cbn [setOwnProp]. rewrite (fmap_cons fst (k', v') obj). cbn [fst].
    destruct (String.eqb_spec k' k) as [->|Hne].
    + rewrite fmap_cons. cbn [fst].
      rewrite decide_True; [done|]. apply list_elem_of_here.
    + rewrite fmap_cons, IH. cbn [fst].
      destruct (decide (k ∈ obj.*1)) as [Hin|Hout].
      * rewrite decide_True; [done|]. by apply list_elem_of_further.
      * rewrite decide_False; [done|]. rewrite not_elem_of_cons. split; auto.
Qed.

Lemma setProp_keys_NoDup (k : string) (v : list string)
    (obj : list (string * list string)) :
  NoDup obj.*1 → NoDup (setProp k v obj).*1.
Proof.
  intros Hnd. unfold setProp. destruct (String.eqb k "__proto__"); [done|].
  rewrite setOwnProp_keys. case_decide as Hk; [done|].
  apply NoDup_app. split_and!; [done| |apply NoDup_singleton].
  intros x Hx ->%list_elem_of_singleton. done.
Qed.

Section Run.

Context (getTypes : string → list string).
Context (regExpSearch : string → string → bool).
Context {Err : Type} (findSourcesByJsFiles : list string → Err + list Source).

Abbreviation check := (getWrongRequiresInFile getTypes regExpSearch).
Abbreviation checkAll provides' :=
  (foldl (checkSource getTypes regExpSearch provides')).
Abbreviation run :=
  (getWrongRequires getTypes regExpSearch findSourcesByJsFiles).

(** What the loop over the files keeps true of the two maps, given a
    property of every list that a file contributes to each. *)
Lemma checkSources_maps (provides' : list string)
    (I : Checker → Prop) (Qm Qu : list string → Prop)
    (all : list Source) :
  (∀ this src, I this → I (fst (check this src provides'))) →
  (∀ this src, I this → src ∈ all →
     Qm (missingRequires (snd (check this src provides')))
     ∧ Qu (unnecessaryRequires (snd (check this src provides')))) →
  ∀ jsSources st,
    jsSources ⊆ all → I st.1 →
    let inv (Q : list string → Prop) (obj : list (string * list string)) :=
      NoDup obj.*1
      ∧ ∀ k l, (k, l) ∈ obj →
               l ≠ [] ∧ Q l ∧ ∃ src, src ∈ all ∧ path src = k in
    inv Qm (missingRequiresMap st.2) → inv Qu (unnecessaryRequiresMap st.2) →
    inv Qm (missingRequiresMap (checkAll provides' st jsSources).2)
    ∧ inv Qu (unnecessaryRequiresMap (checkAll provides' st jsSources).2).
Proof.
  intros HI HQ jsSources.
  induction jsSources as [|src jsSources IH]; intros st Hsub Hst inv Hm Hu;
    [done|].
  cbn [foldl]. apply IH.
  - intros s Hs. apply Hsub. by apply list_elem_of_further.
  - destruct st as [this maps]. unfold checkSource.
    pose proof (HI this src Hst) as HI'.
    by destruct (check this src provides') as [this' info].
  - destruct st as [this maps]. unfold checkSource.
    assert (src ∈ all) as Hsrc by (apply Hsub, list_elem_of_here).
    destruct (HQ this src Hst Hsrc) as [HQm _].
    destruct (check this src provides') as [this' info].
    cbn [fst snd missingRequiresMap] in *.
    destruct (missingRequires info) as [|x l] eqn:Hl; [done|].
    cbn [length Nat.eqb]. destruct Hm as [Hnd Hall]. split.
    + by apply setProp_keys_NoDup.
    + intros k l' [[= -> ->]|Hin]%elem_of_setProp.
      * split_and!; [done|done|by exists src].
      * by apply Hall.
  - destruct st as [this maps]. unfold checkSource.
    assert (src ∈ all) as Hsrc by (apply Hsub, list_elem_of_here).
    destruct (HQ this src Hst Hsrc) as [_ HQu].
    destruct (check this src provides') as [this' info].
    cbn [fst snd unnecessaryRequiresMap] in *.
    destruct (unnecessaryRequires info) as [|x l] eqn:Hl; [done|].
    cbn [length Nat.eqb]. destruct Hu as [Hnd Hall]. split.
    + by apply setProp_keys_NoDup.
    + intros k l' [[= -> ->]|Hin]%elem_of_setProp.
      * split_and!; [done|done|by exists src].
      * by apply Hall.
Qed.

(** X12: the two maps that a run hands to the callback are keyed by
    paths of the files to check, each path once, and hold no empty list:
    a file without a flagged namespace has no entry. *)
Theorem run_maps_flagged_files_only (this : Checker)
    (jsFiles externFiles : list string) (jsSources : list Source)
    (maps : WrongRequiresMaps) :
  findSourcesByJsFiles jsFiles = inr jsSources →
  snd (run this jsFiles externFiles) = inr maps →
  ∀ obj, obj = missingRequiresMap maps ∨ obj = unnecessaryRequiresMap maps →
    NoDup obj.*1
    ∧ ∀ k l, (k, l) ∈ obj →
             l ≠ [] ∧ ∃ src, src ∈ jsSources ∧ path src = k.
Proof.
  intros Hjs. unfold getWrongRequires. rewrite Hjs.
  destruct (if length externFiles =? 0 then inr [] else _)
    as [e|externSources]; [done|].
  set (provides' := provideRegistry this (jsSources ++ externSources)).
  pose proof (checkSources_maps provides' (λ _, True) (λ _, True) (λ _, True)
                jsSources) as H.
  specialize (H (λ _ _ _, I) (λ _ _ _ _, conj I I) jsSources
                (this, mkWrongRequiresMaps [] [])).
  destruct H as [Hm Hu]; [done|done| | |].
  { split; [apply NoDup_nil_2|]. intros k l Hin. by apply elem_of_nil in Hin. }
  { split; [apply NoDup_nil_2|]. intros k l Hin. by apply elem_of_nil in Hin. }
  destruct (foldl _ _ jsSources) as [this' maps'].
  cbn [snd]. intros [= <-] obj [->| ->].
  - destruct Hm as [Hnd Hall]. split; [done|]. intros k l Hin.
    destruct (Hall k l Hin) as (? & _ & ?). done.
  - destruct Hu as [Hnd Hall]. split; [done|]. intros k l Hin.
    destruct (Hall k l Hin) as (? & _ & ?). done.
Qed.

(** X13: in a run of a checker that has resolved nothing yet, over
    files none of which provides the empty namespace, every namespace
    reported missing is provided by one of the analysed files (to check
    or extern) and is not excluded. *)
Theorem run_missing_are_provided (this : Checker)
    (jsFiles externFiles : list string) (jsSources externSources : list Source)
    (maps : WrongRequiresMaps) :
  _jsCache this = ∅ → _docCache this = ∅ →
  findSourcesByJsFiles jsFiles = inr jsSources →
  (if length externFiles =? 0 then inr []
   else findSourcesByJsFiles externFiles) = inr externSources →
  (∀ src, src ∈ jsSources ++ externSources → EmptyString ∉ provides src) →
  snd (run this jsFiles externFiles) = inr maps →
  ∀ k l p, (k, l) ∈ missingRequiresMap maps → p ∈ l →
    (∃ src, src ∈ jsSources ++ externSources ∧ p ∈ provides src)
    ∧ ∀ excluded, _excludeProvides this = Some excluded → p ∉ excluded.
Proof.
  intros Hjc Hdc Hjs Hex Hne. unfold getWrongRequires. rewrite Hjs, Hex.
  set (provides' := provideRegistry this (jsSources ++ externSources)).
  destruct (provideRegistry_spec this (jsSources ++ externSources))
    as [_ Hreg]. fold provides' in Hreg.
  assert (EmptyString ∉ provides') as Hne'.
  { intros (_ & (src & Hsrc & Hp) & _)%Hreg. by apply (Hne src). }
  pose proof (checkSources_maps provides'
                (checkerCoherent regExpSearch provides')
                (λ l, ∀ p, p ∈ l → p ∈ provides') (λ _, True) jsSources) as H.
  destruct (H (λ this0 src, getWrongRequiresInFile_coherent getTypes
                              regExpSearch this0 src provides' Hne')
              (λ this0 src Hc _,
                 conj (missing_are_candidates getTypes regExpSearch
                         this0 src provides' (proj1 (proj1 Hc))) I)
              jsSources (this, mkWrongRequiresMaps [] [])) as [[_ Hm] _].
  - done.
  - split; (split; [intros id v Hv|intros id Hv]); cbn in Hv;
      rewrite ?Hjc, ?Hdc in Hv; by rewrite lookup_empty in Hv.
  - split; [constructor|]. intros k l Hin. by apply elem_of_nil in Hin.
  - split; [constructor|]. intros k l Hin. by apply elem_of_nil in Hin.
  - destruct (foldl _ _ jsSources) as [this' maps'].
    cbn [snd] in *. intros [= <-] k l p Hin Hp.
    destruct (Hm k l Hin) as (_ & Hsub & _).
    by destruct (proj1 (Hreg p) (Hsub p Hp)) as (_ & ? & ?).
Qed.

End Run.

Lemma run_maps_flagged_files_only_witness :
  snd (getWrongRequires bracedTypes RegExp.search findSample newChecker
         ["src"] ["externs"])
  = inr {| missingRequiresMap := [("proto.js", ["a.b.C"])];
           unnecessaryRequiresMap :=
             [("unused.js", ["ns.Unused"; "ns.Used"])] |}
  ∧ NoDup [("proto.js", ["a.b.C"])].*1
  ∧ Forall (λ e, e.2 ≠ []
                 ∧ ∃ src, src ∈ [prototypeSource; unusedRequireSource;
                                 docOnlySource] ∧ path src = e.1)
           [("proto.js", ["a.b.C"])].
Proof.
  assert (snd (getWrongRequires bracedTypes RegExp.search findSample
                 newChecker ["src"] ["externs"])
          = inr {| missingRequiresMap := [("proto.js", ["a.b.C"])];
                   unnecessaryRequiresMap :=
                     [("unused.js", ["ns.Unused"; "ns.Used"])] |}) as Hrun
    by (by vm_compute).
  destruct (run_maps_flagged_files_only bracedTypes RegExp.search findSample
              newChecker ["src"] ["externs"]
              [prototypeSource; unusedRequireSource; docOnlySource]
              {| missingRequiresMap := [("proto.js", ["a.b.C"])];
                 unnecessaryRequiresMap :=
                   [("unused.js", ["ns.Unused"; "ns.Used"])] |}
              eq_refl Hrun
              [("proto.js", ["a.b.C"])] (or_introl eq_refl)) as [Hnd H].
  split_and!; [exact Hrun|exact Hnd|].
  apply Forall_forall. intros [k l] Hin. by apply H.
Defined.

Lemma run_missing_are_provided_witness :
  ∃ src, src ∈ [prototypeSource; unusedRequireSource; docOnlySource]
               ++ providerSources
         ∧ "a.b.C" ∈ provides src.
Proof.
  destruct (run_missing_are_provided bracedTypes RegExp.search findSample
              newChecker ["src"] ["externs"]
              [prototypeSource; unusedRequireSource; docOnlySource]
              providerSources
              {| missingRequiresMap := [("proto.js", ["a.b.C"])];
                 unnecessaryRequiresMap :=
                   [("unused.js", ["ns.Unused"; "ns.Used"])] |}
              eq_refl eq_refl eq_refl eq_refl)
    with (k := "proto.js") (l := ["a.b.C"]) (p := "a.b.C") as [H _].
  - intros src Hsrc Hin. simpl in Hsrc.
    repeat (apply elem_of_cons in Hsrc as [->|Hsrc];
            [simpl in Hin;
             repeat (apply elem_of_cons in Hin as [Hin|Hin]; [done|]);
             by apply elem_of_nil in Hin|]).
    by apply elem_of_nil in Hsrc.
  - by vm_compute.
  - apply list_elem_of_here.
  - apply list_elem_of_here.
  - exact H.
Defined.

End RunProps.

Module ReportProps.
Import Report RunExamples.

Lemma byPath_trans : Transitive byPath.
Proof. intros a b c Hab Hbc. unfold byPath in *. by etrans. Qed.

Lemma byPath_total : Total byPath.
Proof. intros a b. unfold byPath. apply (total String.le). Qed.

Lemma infoOf_sorted (map : list Item) : StronglySorted byPath (infoOf map).
Proof.
  pose proof byPath_trans. pose proof byPath_total.
  by apply StronglySorted_merge_sort.
Qed.

Lemma infoOf_Permutation (map : list Item) : infoOf map ≡ₚ map.
Proof. apply merge_sort_Permutation. Qed.

Lemma NoDup_keys_eq (l : list Item) (x y : Item) :
  NoDup l.*1 → x ∈ l → y ∈ l → x.1 = y.1 → x = y.
Proof.
  induction l as [|z l IH]; intros Hnd Hx Hy Hxy.
  - by apply elem_of_nil in Hx.
  - rewrite fmap_cons in Hnd. apply NoDup_cons in Hnd as [Hz Hnd].
    apply elem_of_cons in Hx as [->|Hx]; apply elem_of_cons in Hy as [->|Hy].
    + done.
    + exfalso. apply Hz. rewrite Hxy. apply list_elem_of_fmap. by exists y.
    + exfalso. apply Hz. rewrite <-Hxy. apply list_elem_of_fmap. by exists x.
    + by apply IH.
Qed.

Lemma infoOf_order_independent (m1 m2 : list Item) :
  NoDup m1.*1 → m1 ≡ₚ m2 → infoOf m1 = infoOf m2.
Proof.
  intros Hnd Hperm.
  apply (StronglySorted_unique_strong byPath);
    [|apply infoOf_sorted..|by rewrite !infoOf_Permutation].
  intros x y Hx Hy Hxy Hyx. rewrite infoOf_Permutation in Hx, Hy.
  rewrite <-Hperm in Hy.
  apply (NoDup_keys_eq m1); [done..|].
  unfold byPath in *. by apply (anti_symm String.le).
Qed.

(** X15: the report does not depend on the order in which the files
    were entered into the two maps: maps with the same entries, each path
    once, print the same lines. *)
Theorem _printResult_order_independent (m1 m2 u1 u2 : list Item) :
  NoDup m1.*1 → NoDup u1.*1 → m1 ≡ₚ m2 → u1 ≡ₚ u2 →
  _printResult m1 u1 = _printResult m2 u2.
Proof.
  intros Hm Hu Hpm Hpu. unfold _printResult.
  by rewrite (infoOf_order_independent m1 m2 Hm Hpm),
             (infoOf_order_independent u1 u2 Hu Hpu).
Qed.

Lemma _printResult_order_independent_witness :
  _printResult sampleMissing sampleUnnecessary
  = _printResult sampleMissingReordered sampleUnnecessary.
Proof.
  apply _printResult_order_independent.
  - apply (bool_decide_unpack _). by vm_compute.
  - apply (bool_decide_unpack _). by vm_compute.
  - apply Permutation_swap.
  - reflexivity.
Defined.

(** X16: the items of a report are the entries of the map, none lost
    and none repeated, in ascending order of their paths, and every path
    and every namespace of the two maps is printed, the namespace after a
    tab. *)
Theorem _printResult_sorted_complete (m u : list Item) :
  StronglySorted byPath (infoOf m)
  ∧ infoOf m ≡ₚ m
  ∧ ∀ k l, (k, l) ∈ m ∨ (k, l) ∈ u →
           k ∈ _printResult m u
           ∧ ∀ r, r ∈ l → tab +:+ r ∈ _printResult m u.
Proof.
  split_and!; [apply infoOf_sorted|apply infoOf_Permutation|].
  assert (∀ (info : list Item) k l, (k, l) ∈ info →
            k ∈ flat_map itemLines info
            ∧ ∀ r, r ∈ l → tab +:+ r ∈ flat_map itemLines info) as Hitems.
  { intros info k l Hin. split.
    - apply list_elem_of_In, in_flat_map. exists (k, l).
      split; [by apply list_elem_of_In|]. by left.
    - intros r Hr. apply list_elem_of_In, in_flat_map. exists (k, l).
      split; [by apply list_elem_of_In|]. right.
      apply in_map. by apply list_elem_of_In. }
  intros k l [Hin|Hin]; unfold _printResult.
  - destruct (Hitems (infoOf m) k l) as [Hk Hl];
      [by rewrite infoOf_Permutation|].
    split; [|intros r Hr; specialize (Hl r Hr)];
      rewrite !elem_of_app; auto 10.
  - destruct (Hitems (infoOf u) k l) as [Hk Hl];
      [by rewrite infoOf_Permutation|].
    split; [|intros r Hr; specialize (Hl r Hr)];
      rewrite !elem_of_app; auto 10.
Qed.

End ReportProps.

Module LoaderProps.
Import Loader LoaderViews LoaderFacts Examples.

Lemma writeScript_app (l : list Event) (text : option string) (s : string)
    (m : bool) :
  writeScript l text s m = l ++ writeScript [] text s m.
Proof.
  unfold writeScript. destruct text as [t|]; [|by rewrite app_nil_r].
  destruct (Js.truthy t); [done|by rewrite app_nil_r].
Qed.

Lemma writesFrom_flat (l : list Event) (entries : list (Slot * Dep)) :
  writesFrom l entries = l ++ flat_map entryScripts entries.
Proof.
  revert l. induction entries as [|[s d] entries IH]; intros l.
  - by rewrite app_nil_r.
  - cbn [Loader.writesFrom foldl flat_map]. fold (Loader.writesFrom).
    change (foldl _ ?a entries) with (writesFrom a entries).
    rewrite IH. unfold entryScripts at 2. cbn [fst snd].
    destruct s as [|text]; [done|].
    unfold scriptsOf. by rewrite (writeScript_app l), <-app_assoc.
Qed.

Lemma loadSync_scripts_in_list_order_aux (xhr : string → option Response)
    (deps : list Dep) :
  loadSync xhr deps
  = flat_map (λ dep, scriptsOf (loadFileSync xhr (src dep)) dep) deps.
Proof.
  unfold loadSync. rewrite <-(app_nil_l (flat_map _ deps)).
  generalize (@nil Event).
  induction deps as [|dep deps IH]; intros l; [by rewrite app_nil_r|].
  cbn [foldl flat_map]. rewrite IH, (writeScript_app l), <-app_assoc.
  done.
Qed.

(** One call of [writeScript] injects the script of the dependency when
    the text is not empty, and nothing otherwise. *)
Lemma scriptsOf_text (text : string) (dep : Dep) :
  scriptsOf (Some text) dep
  = if Js.truthy text then [scriptFor dep text] else [].
Proof.
  unfold scriptsOf, writeScript, scriptFor.
  destruct (Js.truthy text); [|done]. by destruct (isModule dep).
Qed.

(** X17: under the synchronous strategy the scripts are injected in the
    order of the dependency list: for each dependency whose request ends
    with status 0 or 200 and a text that is not empty, one script element
    with that text (wrapped for a module) and the source comment; nothing
    for a request that throws, ends with another status, or returns an
    empty text.  The completion hook is never called. *)
Theorem loadSync_scripts_in_list_order (xhr : string → option Response)
    (deps : list Dep) :
  loadSync xhr deps
  = flat_map
      (λ dep,
         match xhr (src dep) with
         | Some r =>
             if ((status r =? 0)%Z || (status r =? 200)%Z)
                && Js.truthy (responseText r)
             then [scriptFor dep (responseText r)] else []
         | None => []
         end) deps
  ∧ SourceLoadHook ∉ loadSync xhr deps.
Proof.
  split.
  - rewrite loadSync_scripts_in_list_order_aux.
    induction deps as [|dep deps IH]; [done|]. cbn [flat_map]. rewrite IH.
    f_equal. unfold loadFileSync. destruct (xhr (src dep)) as [r|]; [|done].
    destruct ((status r =? 0)%Z || (status r =? 200)%Z); [|done].
    apply scriptsOf_text.
  - unfold loadSync.
    assert (∀ l, SourceLoadHook ∉ l →
              SourceLoadHook ∉ foldl (λ log dep,
                writeScript log (loadFileSync xhr (src dep)) (src dep)
                  (isModule dep)) l deps) as H.
    { induction deps as [|dep deps IH]; intros l Hl; [done|].
      cbn [foldl]. apply IH. by apply writeScript_no_hook. }
    apply H, not_elem_of_nil.
Qed.

Lemma loadSync_scripts_in_list_order_witness :
  loadSync xhrSample threeDeps
  = [ScriptInjected ("var a;" +:+ Js.nl +:+ "//# sourceURL=/js/a.js");
     ScriptInjected
       ("goog.loadModule(function(exports) {" +:+ Js.dq +:+ "use strict"
        +:+ Js.dq +:+ ";var b;" +:+ Js.nl +:+ ";return exports});"
        +:+ Js.nl +:+ "//# sourceURL=/js/b.js" +:+ Js.nl);
     ScriptInjected ("var c;" +:+ Js.nl +:+ "//# sourceURL=/js/c.js")].
Proof.
  destruct (loadSync_scripts_in_list_order xhrSample threeDeps) as [-> _].
  reflexivity.
Defined.

Lemma imap_pair_indices {A : Type} (l : list A) :
  (imap (λ i x, (i, x)) l).*1 = seq 0 (length l).
Proof.
  apply list_eq. intros i.
  rewrite list_lookup_fmap, list_lookup_imap.
  destruct (l !! i) as [x|] eqn:Hx; simpl.
  - apply lookup_lt_Some in Hx. by rewrite lookup_seq_lt.
  - apply lookup_ge_None in Hx. by rewrite lookup_seq_ge.
Qed.

Section Async.

Context (deps : list Dep) (hookIsFunction : bool).

(** Once every request has completed, every slot holds the text of its
    response. *)
Lemma slotsAfter_complete (completions : list (nat * Response))
    (responses : list Response) :
  length responses = length deps →
  completions ≡ₚ imap (λ i r, (i, r)) responses →
  (∀ i, i ∈ completions.*1 → i < length deps)
  ∧ NoDup completions.*1
  ∧ slotsAfter deps completions
    = (λ r, Stored (responseTextOrNull r)) <$> responses.
Proof.
  intros Hlen Hperm.
  assert (completions.*1 ≡ₚ seq 0 (length deps)) as Hidx.
  { rewrite Hperm, imap_pair_indices. by rewrite Hlen. }
  assert (∀ i, i ∈ completions.*1 → i < length deps) as Hr.
  { intros i Hi. rewrite Hidx in Hi. apply elem_of_seq in Hi. lia. }
  assert (NoDup completions.*1) as Hnd.
  { rewrite Hidx. apply NoDup_seq. }
  split_and!; [done..|].
  apply list_eq_same_length with (length deps);
    [by rewrite length_fmap|by apply slotsAfter_length|].
  intros i x y Hi Hx Hy.
  destruct (lookup_lt_is_Some_2 responses i) as [r Hri]; [lia|].
  rewrite list_lookup_fmap, Hri in Hy. injection Hy as <-.
  rewrite (slotsAfter_stored deps completions i r Hr Hnd) in Hx;
    [congruence|].
  rewrite Hperm. apply elem_of_lookup_imap. by exists i, r.
Qed.

Lemma available_all_stored (responses : list Response) :
  available ((λ r, Stored (responseTextOrNull r)) <$> responses)
  = length responses.
Proof.
  induction responses as [|r l IH]; [done|]. rewrite fmap_cons. simpl.
  by rewrite IH.
Qed.

Lemma flat_map_entryScripts_stored (responses : list Response) :
  length responses = length deps →
  flat_map entryScripts
    (zip ((λ r, Stored (responseTextOrNull r)) <$> responses) deps)
  = scriptsInOrder deps responses.
Proof.
  unfold scriptsInOrder. generalize deps. clear deps.
  induction responses as [|r rs IH]; intros [|d ds] Hlen; try done.
  rewrite fmap_cons. cbn [zip zip_with flat_map].
  fold (zip ((λ r, Stored (responseTextOrNull r)) <$> rs) ds).
  fold (zip ds rs). rewrite IH by (simpl in Hlen; lia). done.
Qed.

Lemma run_complete_log (completions : list (nat * Response))
    (responses : list Response) :
  length responses = length deps →
  completions ≡ₚ imap (λ i r, (i, r)) responses →
  log (run deps hookIsFunction completions)
  = scriptsInOrder deps responses
    ++ (if hookIsFunction && (0 <? length deps)
        then [SourceLoadHook] else []).
Proof.
  intros Hlen Hperm.
  destruct (slotsAfter_complete completions responses Hlen Hperm)
    as (Hr & Hnd & Hslots).
  rewrite (run_spec deps _ _ Hr Hnd). cbn [log]. rewrite Hslots.
  rewrite available_all_stored, Hlen. unfold logUpTo.
  rewrite writesFrom_flat, app_nil_l, Nat.leb_refl, andb_true_r.
  f_equal. rewrite firstn_all2.
  - by apply flat_map_entryScripts_stored.
  - rewrite length_zip_with, length_fmap. lia.
Qed.

(** X18: under the asynchronous strategy, once every request has
    completed, in whatever order, the log holds the scripts in the order
    of the dependency list: for each dependency whose response has a
    status below 400 and a text that is not empty, one script element
    with that text (wrapped for a module) and the source comment; nothing
    for the others, which hold nothing back.  The call of the hook
    follows when there is one and the list is not empty. *)
Theorem async_complete_log (completions : list (nat * Response))
    (responses : list Response) :
  length responses = length deps →
  completions ≡ₚ imap (λ i r, (i, r)) responses →
  log (run deps hookIsFunction completions)
  = flat_map
      (λ e : Dep * Response,
         if (status e.2 <? 400)%Z && Js.truthy (responseText e.2)
         then [scriptFor e.1 (responseText e.2)] else [])
      (zip deps responses)
    ++ (if hookIsFunction && (0 <? length deps)
        then [SourceLoadHook] else []).
Proof.
  intros Hlen Hperm. rewrite (run_complete_log _ _ Hlen Hperm). f_equal.
  unfold scriptsInOrder. apply flat_map_ext. intros [dep r].
  cbn [fst snd]. unfold responseTextOrNull.
  destruct ((status r <? 400)%Z && Js.truthy (responseText r)) eqn:Hok;
    [|done].
  rewrite scriptsOf_text. by apply andb_true_iff in Hok as [_ ->].
Qed.

(** X19: the two strategies inject the same scripts: when every request
    ends with status 0 or 200, the log of the asynchronous routine, once
    all requests have completed in whatever order, is the log of the
    synchronous routine followed by the call of the hook. *)
Theorem async_log_is_sync_log (xhr : string → option Response)
    (completions : list (nat * Response)) (responses : list Response) :
  Forall2 (λ dep r,
             xhr (src dep) = Some r ∧ (status r = 0 ∨ status r = 200)%Z)
          deps responses →
  completions ≡ₚ imap (λ i r, (i, r)) responses →
  log (run deps hookIsFunction completions)
  = loadSync xhr deps
    ++ (if hookIsFunction && (0 <? length deps)
        then [SourceLoadHook] else []).
Proof.
  intros Hall Hperm.
  rewrite (run_complete_log completions responses);
    [|symmetry; by eapply Forall2_length|done].
  f_equal.
  rewrite (loadSync_scripts_in_list_order_aux xhr deps).
  unfold scriptsInOrder. clear Hperm.
  induction Hall as [|dep r ds rs [Hx Hst] _ IH]; [done|].
  cbn [zip zip_with flat_map fst snd]. fold (zip ds rs). rewrite IH.
  f_equal. unfold loadFileSync, responseTextOrNull. rewrite Hx.
  assert (((status r =? 0)%Z || (status r =? 200)%Z) = true) as ->.
  { destruct Hst as [-> | ->]; done. }
  assert ((status r <? 400)%Z = true) as ->.
  { destruct Hst as [-> | ->]; done. }
  cbn [andb]. destruct (Js.truthy (responseText r)) eqn:Ht; [done|].
  unfold scriptsOf, writeScript. by rewrite Ht.
Qed.

(** X20: the completion hook is called at most once, after every
    script of the log, and only when [loadedIndex] has reached the end of
    the list; it is never called for an empty dependency list. *)
Theorem hook_called_once_at_the_end (completions : list (nat * Response)) :
  NoDup completions.*1 →
  (∀ i, i ∈ completions.*1 → i < length deps) →
  let st := run deps hookIsFunction completions in
  ∃ scripts,
    (SourceLoadHook ∉ scripts)
    ∧ (log st = scripts
       ∨ (log st = scripts ++ [SourceLoadHook]
          ∧ hookIsFunction = true
          ∧ loadedIndex st = length deps
          ∧ 0 < length deps)).
Proof.
  intros Hnd Hr st. unfold st. rewrite (run_spec deps _ _ Hr Hnd).
  cbn [log loadedIndex]. unfold logUpTo.
  eexists. split; [apply writesFrom_no_hook, not_elem_of_nil|].
  destruct (hookIsFunction
            && (length deps <=? available (slotsAfter deps completions))
            && (0 <? length deps)) eqn:Hh.
  - right. apply andb_true_iff in Hh as [[Hh Hle]%andb_true_iff Hn].
    apply Nat.leb_le in Hle. apply Nat.ltb_lt in Hn.
    pose proof (available_le (slotsAfter deps completions)) as Ha.
    rewrite (slotsAfter_length deps completions Hr) in Ha.
    split_and!; [done|done|lia|done].
  - left. by rewrite app_nil_r.
Qed.

(** How one more completion changes the state: the log is extended and
    [loadedIndex] does not go back. *)
Lemma run_snoc_grows (completions : list (nat * Response))
    (i : nat) (r : Response) :
  NoDup (completions ++ [(i, r)]).*1 →
  (∀ j, j ∈ (completions ++ [(i, r)]).*1 → j < length deps) →
  log (run deps hookIsFunction completions)
    `prefix_of` log (run deps hookIsFunction (completions ++ [(i, r)]))
  ∧ loadedIndex (run deps hookIsFunction completions)
    ≤ loadedIndex (run deps hookIsFunction (completions ++ [(i, r)])).
Proof.
  intros Hnd Hr.
  rewrite (run_spec deps _ _ Hr Hnd). rewrite fmap_app in Hr, Hnd.
  pose proof Hnd as Hnd'. apply NoDup_app in Hnd' as (Hnd0 & Hdis & _).
  assert (∀ j, j ∈ completions.*1 → j < length deps) as Hr'.
  { intros j Hj. apply Hr, elem_of_app. by left. }
  assert (i < length deps) as Hi.
  { apply Hr, elem_of_app. right. apply list_elem_of_here. }
  assert (i ∉ completions.*1) as Hfresh.
  { intros Hin. apply (Hdis i Hin), list_elem_of_here. }
  rewrite (run_spec deps _ _ Hr' Hnd0). cbn [log loadedIndex].
  pose proof (slotsAfter_length deps completions Hr') as Hlen.
  pose proof (slotsAfter_undefined deps completions i Hr' Hfresh Hi) as Hslot.
  rewrite slotsAfter_snoc, store_in_range by lia.
  set (arr := slotsAfter deps completions) in *.
  set (arr' := <[i := Stored (responseTextOrNull r)]> arr).
  assert (available arr ≤ i) as HAi.
  { destruct (decide (available arr ≤ i)) as [|Hgt]; [done|].
    destruct (available_stored arr i) as [t Ht]; [lia|]. congruence. }
  assert (available arr ≤ available arr') as Hmono.
  { apply available_ge. intros j Hj. unfold arr'.
    rewrite list_lookup_insert_ne by lia. by apply available_stored. }
  split; [|done]. unfold logUpTo.
  assert ((length deps <=? available arr) = false) as ->
    by (apply Nat.leb_gt; lia).
  rewrite andb_false_r, app_nil_r.
  assert (take (available arr) (zip arr deps)
          = take (available arr) (zip arr' deps)) as ->.
  { unfold arr'. rewrite !zip_with_take. f_equal. by rewrite take_insert_ge. }
  replace (available arr') with (available arr + (available arr' - available arr))
    at 1 by lia.
  rewrite <-take_take_drop, writesFrom_app, (writesFrom_flat (writesFrom _ _)).
  rewrite <-app_assoc. by eexists.
Qed.

(** X21: what has been injected stays: as further requests complete the
    log is only ever extended at its end, and [loadedIndex] never goes
    back. *)
Theorem log_only_grows (completions later : list (nat * Response)) :
  NoDup (completions ++ later).*1 →
  (∀ i, i ∈ (completions ++ later).*1 → i < length deps) →
  log (run deps hookIsFunction completions)
    `prefix_of` log (run deps hookIsFunction (completions ++ later))
  ∧ loadedIndex (run deps hookIsFunction completions)
    ≤ loadedIndex (run deps hookIsFunction (completions ++ later)).
Proof.
  induction later as [|[i r] later IH] using rev_ind; intros Hnd Hr.
  - by rewrite app_nil_r.
  - rewrite app_assoc in Hnd, Hr |- *.
    destruct (run_snoc_grows (completions ++ later) i r Hnd Hr) as [Hp Hl].
    destruct IH as [Hp' Hl'].
    + rewrite fmap_app in Hnd. by apply NoDup_app in Hnd as (Hnd & _).
    + intros j Hj. apply Hr. rewrite fmap_app. apply elem_of_app. by left.
    + split; [by etrans|lia].
Qed.

End Async.

Lemma completions201_Permutation :
  completions201 ≡ₚ imap (λ i r, (i, r)) threeResponses.
Proof.
  unfold completions201, threeResponses. simpl.
  etrans; [apply Permutation_swap|]. apply perm_skip, Permutation_swap.
Qed.

Lemma async_complete_log_witness :
  log (run threeDeps true completions201)
  = [ScriptInjected ("var a;" +:+ Js.nl +:+ "//# sourceURL=/js/a.js");
     ScriptInjected
       ("goog.loadModule(function(exports) {" +:+ Js.dq +:+ "use strict"
        +:+ Js.dq +:+ ";var b;" +:+ Js.nl +:+ ";return exports});"
        +:+ Js.nl +:+ "//# sourceURL=/js/b.js" +:+ Js.nl);
     ScriptInjected ("var c;" +:+ Js.nl +:+ "//# sourceURL=/js/c.js");
     SourceLoadHook].
Proof.
  rewrite (async_complete_log threeDeps true completions201 threeResponses).
  - reflexivity.
  - reflexivity.
  - apply completions201_Permutation.
Defined.

Lemma async_log_is_sync_log_witness :
  log (run threeDeps true completions201)
  = loadSync xhrSample threeDeps ++ [SourceLoadHook].
Proof.
  apply (async_log_is_sync_log threeDeps true xhrSample completions201
           threeResponses).
  - repeat (constructor; [split; [reflexivity|by right]|]). constructor.
  - apply completions201_Permutation.
Defined.

Lemma hook_called_once_at_the_end_witness :
  ∃ scripts,
    (SourceLoadHook ∉ scripts)
    ∧ (log (run threeDeps true completions201) = scripts
       ∨ (log (run threeDeps true completions201) = scripts ++ [SourceLoadHook]
          ∧ true = true
          ∧ loadedIndex (run threeDeps true completions201) = 3
          ∧ 0 < 3)).
Proof.
  apply (hook_called_once_at_the_end threeDeps true completions201).
  - apply (bool_decide_unpack _). by vm_compute.
  - intros i Hi. simpl in Hi.
    repeat (apply elem_of_cons in Hi as [->|Hi]; [simpl; lia|]).
    by apply elem_of_nil in Hi.
Defined.

Lemma log_only_grows_witness :
  log (run threeDeps true (take 2 completions201))
    `prefix_of` log (run threeDeps true completions201).
Proof.
  destruct (log_only_grows threeDeps true (take 2 completions201)
              (drop 2 completions201)) as [H _].
  - apply (bool_decide_unpack _). by vm_compute.
  - intros i Hi. simpl in Hi.
    repeat (apply elem_of_cons in Hi as [->|Hi]; [simpl; lia|]).
    by apply elem_of_nil in Hi.
  - exact H.
Defined.

End LoaderProps.

Module WriterProps.
Import Js JsFacts ReplaceFacts ModuleDepsWriter WriterFacts Examples.
Import Templates.

(** A text without the first character of the pattern is passed over,
    whatever follows it. *)
Lemma replaceAllGo_plain_app (c : ascii) (pat' repl before s1 s2 : string) :
  hasChar c s1 = false →
  replaceAllGo (String c pat') repl before 0 (s1 +:+ s2)
  = s1 +:+ replaceAllGo (String c pat') repl (before +:+ s1) 0 s2.
Proof.
  revert before. induction s1 as [|a s1 IH]; intros before Hs1.
  - by rewrite !append_nil, append_empty_r.
  - simpl in Hs1. apply orb_false_iff in Hs1 as [Ha Hs1].
    rewrite !append_cons. cbn [replaceAllGo String.prefix].
    destruct (ascii_dec c a) as [->|_]; [by rewrite Ascii.eqb_refl in Ha|].
    f_equal. rewrite (IH _ Hs1).
    by rewrite !append_assoc, !append_cons, !append_nil.
Qed.

(** A character at which the pattern does not start is passed over. *)
Lemma replaceAllGo_pass (pat repl before : string) (a : ascii) (s : string) :
  String.prefix pat (String a s) = false →
  replaceAllGo pat repl before 0 (String a s)
  = String a (replaceAllGo pat repl (before +:+ String a EmptyString) 0 s).
Proof. intros Hp. cbn [replaceAllGo]. by rewrite Hp. Qed.

(** Another placeholder is passed over when the pattern starts neither
    at its first nor at its last character. *)
Lemma replaceAllGo_foreign (c : ascii) (pat' repl before f tail : string) :
  hasChar c f = false →
  String.prefix (String c pat') (String c (f +:+ String c tail)) = false →
  String.prefix (String c pat') (String c tail) = false →
  ∃ before',
    replaceAllGo (String c pat') repl before 0 (String c (f +:+ String c tail))
    = String c (f +:+ String c
                  (replaceAllGo (String c pat') repl before' 0 tail)).
Proof.
  intros Hf Hp1 Hp2. rewrite (replaceAllGo_pass _ _ _ _ _ Hp1).
  rewrite (replaceAllGo_plain_app _ _ _ _ _ _ Hf).
  rewrite (replaceAllGo_pass _ _ _ _ _ Hp2). by eexists.
Qed.

Lemma unmatched_plain (c : ascii) (pat' s : string) :
  hasChar c s = false → unmatched (String c pat') s.
Proof. intros Hs repl before. by apply replaceAllGo_no_match. Qed.

Lemma unmatched_plain_app (c : ascii) (pat' s1 s2 : string) :
  hasChar c s1 = false →
  unmatched (String c pat') s2 →
  unmatched (String c pat') (s1 +:+ s2).
Proof.
  intros Hs1 Hs2 repl before.
  by rewrite (replaceAllGo_plain_app _ _ _ _ _ _ Hs1), Hs2.
Qed.

Lemma unmatched_foreign (c : ascii) (pat' f tail : string) :
  hasChar c f = false →
  String.prefix (String c pat') (String c (f +:+ String c tail)) = false →
  String.prefix (String c pat') (String c tail) = false →
  unmatched (String c pat') tail →
  unmatched (String c pat') (String c (f +:+ String c tail)).
Proof.
  intros Hf Hp1 Hp2 Htail repl before.
  destruct (replaceAllGo_foreign c pat' repl before f tail Hf Hp1 Hp2)
    as [before' ->].
  by rewrite Htail.
Qed.

(** The one match of a pattern is replaced by a replacement without
    [$], and the rest is kept. *)
Lemma replaceAll_one_hole (c : ascii) (pat' repl pre post : string) :
  hasChar c pre = false →
  hasChar "$" repl = false →
  unmatched (String c pat') post →
  replaceAll (String c pat') repl (pre +:+ String c pat' +:+ post)
  = pre +:+ repl +:+ post.
Proof.
  intros Hpre Hrepl Hpost. unfold replaceAll.
  rewrite (replaceAllGo_placeholder _ _ _ _ _ _ Hpre).
  by rewrite (expandReplacement_plain _ _ _ _ Hrepl), Hpost.
Qed.

Lemma prefix_hasChar (c : ascii) (p s : string) :
  String.prefix p s = true → hasChar c p = true → hasChar c s = true.
Proof.
  revert s. induction p as [|a p IH]; intros s; [done|].
  destruct s as [|b s]; [done|]. cbn [String.prefix hasChar].
  destruct (ascii_dec a b) as [->|_]; [|done].
  intros Hp [->|Hc]%orb_true_iff; [done|].
  rewrite (IH _ Hp Hc). by rewrite orb_true_r.
Qed.

Lemma substitute_tail (a b text : string) :
  hasChar "%" text = false →
  replaceAll "%files%" a (replaceAll "%productionUri%" b text) = text.
Proof.
  intros Hplain. unfold replaceAll.
  by rewrite !(replaceAllGo_no_match _ _ _ _ _ Hplain).
Qed.

Section Writing.

Context (JSON_stringify : Json → string).
Context (path_dirname path_resolve : string → string).
Context (path_relative : string → string → string).
Context (runWrapper : string → Writer → JsModule → string).
Context {Err : Type}.
Context (writeFile : list Attempt → string → string → option Err).
Context (parse : ModuleParser → Err + JsModule).
Context (save : string → SaveOutcome Err).

Abbreviation content :=
  (_getDepFileContent JSON_stringify path_dirname path_resolve path_relative
     runWrapper).
Abbreviation internal :=
  (_getDepFileContentInternal JSON_stringify path_dirname path_resolve
     path_relative).
Abbreviation create :=
  (_createDepFiles JSON_stringify path_dirname path_resolve path_relative
     runWrapper writeFile).
Abbreviation art :=
  (artifact JSON_stringify path_dirname path_resolve path_relative runWrapper).
Abbreviation subst :=
  (substitute JSON_stringify path_dirname path_resolve path_relative).

(** X22: a text without any [%] goes through the six substitutions
    unchanged, whatever the defines, the graphs, the name, the production
    URI and the files are. *)
Theorem substitute_plain_text (this : Writer) (module : JsModule)
    (text : string) :
  hasChar "%" text = false → subst this module text = text.
Proof.
  intros Hplain. unfold substitute, replaceAll.
  by rewrite !(replaceAllGo_no_match _ _ _ _ _ Hplain).
Qed.


(** The text after the header, for a given JSON of the dependencies. *)
Lemma internal_body_plain (async : bool) (depsArr : string) :
  hasChar "%" depsArr = false →
  hasChar "%"
    (scriptPrologue +:+ (if async then asyncLoader else syncLoader)
     +:+ "})(" +:+ depsArr +:+ ");" +:+ nl) = false.
Proof.
  intros Hd. rewrite !hasChar_append, Hd.
  assert (hasChar "%" scriptPrologue = false) as -> by (by vm_compute).
  assert (hasChar "%" asyncLoader = false) as Ha by (by vm_compute).
  assert (hasChar "%" syncLoader = false) as Hs by (by vm_compute).
  destruct async; by rewrite ?Ha, ?Hs.
Qed.

(** X23: the artifact of a module that has a parent and no wrapper is
    the loader routine alone, without the header of defines and graphs,
    and the substitutions leave it as it is, provided the JSON of its
    dependency list holds no [%]. *)
Theorem child_artifact_is_plain_routine (this : Writer) (module : JsModule)
    (p : string) :
  wrapper module = None →
  parent module = Some p →
  let depsArr :=
    JSON_stringify
      (JArray
         (map (λ source,
                 JArray
                   [JString
                      (path_dirname
                         (productionUri (_parser this) +:+ name module
                          +:+ ".js")
                       +:+ "/"
                       +:+ path_relative
                             (path_dirname
                                (path_resolve
                                   (outputPathPrefix (_parser this)
                                    +:+ name module +:+ ".js")))
                             (spath source));
                    JBool (sIsModule source)])
              (deps module))) in
  hasChar "%" depsArr = false →
  content this module
  = scriptPrologue
    +:+ (if _loadAsync this then asyncLoader else syncLoader)
    +:+ "})(" +:+ depsArr +:+ ");" +:+ nl.
Proof.
  intros Hw Hp depsArr Hd. unfold _getDepFileContent. rewrite Hw.
  unfold _getDepFileContentInternal. rewrite Hp. fold depsArr.
  rewrite append_nil.
  pose proof (internal_body_plain (_loadAsync this) depsArr Hd) as Hplain.
  generalize dependent (scriptPrologue
                        +:+ (if _loadAsync this then asyncLoader
                             else syncLoader)
                        +:+ "})(" +:+ depsArr +:+ ");" +:+ nl).
  intros text Hplain. unfold substitute, replaceAll.
  by rewrite !(replaceAllGo_no_match _ _ _ _ _ Hplain).
Qed.


Lemma writeSerial_all_succeed (history artifacts : list Attempt) :
  (∀ h c f, writeFile h c f = None) →
  writeSerial writeFile history artifacts = (history ++ artifacts, None).
Proof.
  intros Hok. revert history.
  induction artifacts as [|a rest IH]; intros history.
  - by rewrite app_nil_r.
  - cbn [writeSerial]. rewrite Hok, IH. by rewrite <-app_assoc.
Qed.

(** X24: when the tree is parsed, the save of the cache does not throw
    and no write fails, a build attempts exactly one write per module of
    the tree, in preorder, and reports success. *)
Theorem build_succeeds_when_writes_succeed (this : Writer)
    (rootModule : JsModule) :
  parse (_parser this) = inr rootModule →
  (∀ file e, _cache this = Some file → save file ≠ SaveThrown e) →
  (∀ h c f, writeFile h c f = None) →
  let result :=
    build JSON_stringify path_dirname path_resolve path_relative runWrapper
      writeFile parse save this in
  attempted result = art this <$> preorder rootModule
  ∧ reported result = None
  ∧ length (attempted result) = length (preorder rootModule).
Proof.
  intros Hparse Hsave Hok result.
  assert (_build JSON_stringify path_dirname path_resolve path_relative
            runWrapper writeFile this rootModule
          = (art this <$> preorder rootModule, None)) as Hb.
  { unfold _build. rewrite _createDepFiles_serial.
    by rewrite (writeSerial_all_succeed _ _ Hok). }
  unfold result, build. rewrite Hparse.
  destruct (_cache this) as [file|] eqn:Hc.
  - specialize (Hsave file). destruct (save file) as [|e|e].
    + rewrite Hb. cbn. by rewrite length_fmap.
    + rewrite Hb. cbn. by rewrite length_fmap.
    + by destruct (Hsave e).
  - rewrite Hb. cbn. by rewrite length_fmap.
Qed.

(** X25: the artifact of a root module without a wrapper starts with
    the header in which the JSON of the defines, of the module graph and
    of the module URIs stand in the place of their placeholders, followed
    by the loader routine; this for JSON texts without [%] and [$]. *)
Theorem root_artifact_header_filled (this : Writer) (module : JsModule) :
  wrapper module = None →
  parent module = None →
  let jsonDefines :=
    JSON_stringify (default (JObject []) (_definesMap this)) in
  let jsonInfo := JSON_stringify (jsonModuleInfo (_parser this)) in
  let jsonUris := JSON_stringify (jsonModuleUris (_parser this)) in
  let depsArr :=
    JSON_stringify
      (JArray
         (map (λ source,
                 JArray
                   [JString
                      (path_dirname
                         (productionUri (_parser this) +:+ name module
                          +:+ ".js")
                       +:+ "/"
                       +:+ path_relative
                             (path_dirname
                                (path_resolve
                                   (outputPathPrefix (_parser this)
                                    +:+ name module +:+ ".js")))
                             (spath source));
                    JBool (sIsModule source)])
              (deps module))) in
  hasChar "%" jsonDefines = false → hasChar "$" jsonDefines = false →
  hasChar "%" jsonInfo = false → hasChar "$" jsonInfo = false →
  hasChar "%" jsonUris = false → hasChar "$" jsonUris = false →
  hasChar "%" depsArr = false →
  content this module
  = "CLOSURE_DEFINES=" +:+ jsonDefines +:+ ";" +:+ nl
    +:+ "CLOSURE_NO_DEPS=true;" +:+ nl
    +:+ "MODULE_USE_DEBUG_MODE=true;" +:+ nl
    +:+ "MODULE_INFO=" +:+ jsonInfo +:+ ";" +:+ nl
    +:+ "MODULE_URIS=" +:+ jsonUris +:+ ";" +:+ nl +:+ nl
    +:+ scriptPrologue
    +:+ (if _loadAsync this then asyncLoader else syncLoader)
    +:+ "})(" +:+ depsArr +:+ ");" +:+ nl.
Proof.
  intros Hw Hp D I U depsArr HD HD' HI HI' HU HU' Hdeps.
  unfold _getDepFileContent. rewrite Hw.
  unfold _getDepFileContentInternal. rewrite Hp. fold depsArr.
  pose proof (internal_body_plain (_loadAsync this) depsArr Hdeps) as HB.
  set (B := scriptPrologue +:+ _) in *.
  set (H1 := ";" +:+ nl +:+ "CLOSURE_NO_DEPS=true;" +:+ nl
             +:+ "MODULE_USE_DEBUG_MODE=true;" +:+ nl +:+ "MODULE_INFO=").
  set (H2 := ";" +:+ nl +:+ "MODULE_URIS=").
  set (H3 := ";" +:+ nl +:+ nl).
  assert (hasChar "%" H1 = false) as HH1 by reflexivity.
  assert (hasChar "%" H2 = false) as HH2 by reflexivity.
  assert (hasChar "%" H3 = false) as HH3 by reflexivity.
  assert (replaceAll "%defines%" D (rootHeader +:+ B)
          = "CLOSURE_DEFINES=" +:+ D +:+ H1 +:+ "%moduleInfo%" +:+ H2
            +:+ "%moduleUris%" +:+ H3 +:+ B) as E1.
  { apply (replaceAll_one_hole "%" "defines%" D "CLOSURE_DEFINES="
             (H1 +:+ "%moduleInfo%" +:+ H2 +:+ "%moduleUris%" +:+ H3 +:+ B));
      [reflexivity|exact HD'|].
    apply unmatched_plain_app; [exact HH1|].
    apply (unmatched_foreign "%" "defines%" "moduleInfo");
      [reflexivity..|].
    apply unmatched_plain_app; [exact HH2|].
    apply (unmatched_foreign "%" "defines%" "moduleUris");
      [reflexivity..|].
    apply unmatched_plain. by rewrite hasChar_append, HH3, HB. }
  assert (replaceAll "%moduleInfo%" I
            ("CLOSURE_DEFINES=" +:+ D +:+ H1 +:+ "%moduleInfo%" +:+ H2
             +:+ "%moduleUris%" +:+ H3 +:+ B)
          = "CLOSURE_DEFINES=" +:+ D +:+ H1 +:+ I +:+ H2
            +:+ "%moduleUris%" +:+ H3 +:+ B) as E2.
  { pose proof (replaceAll_one_hole "%" "moduleInfo%" I
                  ("CLOSURE_DEFINES=" +:+ D +:+ H1)
                  (H2 +:+ "%moduleUris%" +:+ H3 +:+ B)) as Hone.
    rewrite !append_assoc in Hone. apply Hone; [|exact HI'|].
    - by rewrite !hasChar_append, HD, HH1.
    - apply unmatched_plain_app; [exact HH2|].
      apply (unmatched_foreign "%" "moduleInfo%" "moduleUris");
        [reflexivity..|].
      apply unmatched_plain. by rewrite hasChar_append, HH3, HB. }
  assert (replaceAll "%moduleUris%" U
            ("CLOSURE_DEFINES=" +:+ D +:+ H1 +:+ I +:+ H2
             +:+ "%moduleUris%" +:+ H3 +:+ B)
          = "CLOSURE_DEFINES=" +:+ D +:+ H1 +:+ I +:+ H2 +:+ U
            +:+ H3 +:+ B) as E3.
  { pose proof (replaceAll_one_hole "%" "moduleUris%" U
                  ("CLOSURE_DEFINES=" +:+ D +:+ H1 +:+ I +:+ H2)
                  (H3 +:+ B)) as Hone.
    rewrite !append_assoc in Hone. apply Hone; [|exact HU'|].
    - by rewrite !hasChar_append, HD, HH1, HI, HH2.
    - apply unmatched_plain. by rewrite hasChar_append, HH3, HB. }
  assert (hasChar "%"
            ("CLOSURE_DEFINES=" +:+ D +:+ H1 +:+ I +:+ H2 +:+ U
             +:+ H3 +:+ B) = false) as Hplain.
  { by rewrite !hasChar_append, HD, HH1, HI, HH2, HU, HH3, HB. }
  unfold substitute. cbv zeta. fold D I U. rewrite E1, E2, E3.
  unfold replaceAll. rewrite !(replaceAllGo_no_match _ _ _ _ _ Hplain).
  unfold H1, H2, H3. by rewrite !append_assoc.
Qed.

(** X26: a text put in by an earlier replacement is scanned by the later
    ones: when the wrapper returns [%defines%] and the JSON of the defines
    holds [%name%], the artifact holds the name of the module there. *)
Theorem inserted_defines_are_scanned_for_name (this : Writer)
    (module : JsModule) (w pre post : string) :
  wrapper module = Some w →
  runWrapper w this module = "%defines%" →
  JSON_stringify (default (JObject []) (_definesMap this))
  = pre +:+ "%name%" +:+ post →
  hasChar "%" pre = false → hasChar "$" pre = false →
  hasChar "%" post = false → hasChar "$" post = false →
  hasChar "%" (name module) = false → hasChar "$" (name module) = false →
  content this module = pre +:+ name module +:+ post.
Proof.
  intros Hw Hrun HD Hpre Hpre' Hpost Hpost' Hname Hname'.
  unfold _getDepFileContent. rewrite Hw, Hrun.
  unfold substitute. cbv zeta. rewrite HD.
  assert (∀ pat', hasChar "%" pat' = true →
            String.prefix (String "%" pat') (String "%" post) = false)
    as Hlast.
  { intros pat' Hpat. destruct (String.prefix _ _) eqn:Hp; [|done].
    cbn [String.prefix] in Hp. destruct (ascii_dec _ _); [|done].
    by rewrite (prefix_hasChar "%" _ _ Hp Hpat) in Hpost. }
  assert (replaceAll "%defines%" (pre +:+ "%name%" +:+ post) "%defines%"
          = pre +:+ "%name%" +:+ post) as ->.
  { pose proof (replaceAll_one_hole "%" "defines%"
                  (pre +:+ "%name%" +:+ post) EmptyString EmptyString)
      as Hone.
    rewrite !append_nil, !append_empty_r in Hone.
    apply Hone; [done| |done].
    by rewrite !hasChar_append, Hpre', Hpost'. }
  assert (∀ pat', hasChar "%" pat' = true →
            String.prefix (String "%" pat')
              (String "%" ("name" +:+ String "%" post)) = false →
            unmatched (String "%" pat') (pre +:+ "%name%" +:+ post))
    as Hother.
  { intros pat' Hpat Hp. apply unmatched_plain_app; [exact Hpre|].
    apply (unmatched_foreign "%" pat' "name"); [done|exact Hp| |].
    - by apply Hlast.
    - by apply unmatched_plain. }
  unfold replaceAll at 5. rewrite (Hother "moduleInfo%"); [|done..].
  unfold replaceAll at 4. rewrite (Hother "moduleUris%"); [|done..].
  rewrite (replaceAll_one_hole "%" "name%" (name module) pre post);
    [|done|done|by apply unmatched_plain].
  apply substitute_tail.
  by rewrite !hasChar_append, Hpre, Hname, Hpost.
Qed.

End Writing.

Lemma substitute_plain_text_witness :
  substitute stubStringify stubDirname stubResolve stubRelative cachedWriter
    rootModule "var loaded = true;"
  = "var loaded = true;".
Proof. apply substitute_plain_text. reflexivity. Defined.

Lemma child_artifact_is_plain_routine_witness :
  _getDepFileContent stubStringify stubDirname stubResolve stubRelative
    placeholderWrapper cachedWriter
    (mkJsModule "C" (Some "R") [mkDepSource "src/f3.js" true] None [])
  = scriptPrologue +:+ syncLoader +:+ "})([?]);" +:+ nl.
Proof.
  apply (child_artifact_is_plain_routine stubStringify stubDirname
           stubResolve stubRelative placeholderWrapper cachedWriter
           (mkJsModule "C" (Some "R") [mkDepSource "src/f3.js" true] None [])
           "R"); reflexivity.
Defined.

Lemma root_artifact_header_filled_witness :
  _getDepFileContent stubStringify stubDirname stubResolve stubRelative
    placeholderWrapper cachedWriter
    (mkJsModule "R" None [mkDepSource "src/f1.js" false] None [])
  = "CLOSURE_DEFINES={};" +:+ nl
    +:+ "CLOSURE_NO_DEPS=true;" +:+ nl
    +:+ "MODULE_USE_DEBUG_MODE=true;" +:+ nl
    +:+ "MODULE_INFO={};" +:+ nl
    +:+ "MODULE_URIS={};" +:+ nl +:+ nl
    +:+ scriptPrologue +:+ syncLoader +:+ "})([?]);" +:+ nl.
Proof.
  apply (root_artifact_header_filled stubStringify stubDirname stubResolve
           stubRelative placeholderWrapper cachedWriter
           (mkJsModule "R" None [mkDepSource "src/f1.js" false] None []));
    reflexivity.
Defined.

Lemma inserted_defines_are_scanned_for_name_witness :
  _getDepFileContent stubStringify stubDirname stubResolve stubRelative
    (λ _ _ _, "%defines%")
    (mkWriter false None (Some (JArray [JString "app=%name%"]))
       (mkModuleParser "out/" "/static/" (JObject []) (JObject [])))
    (mkJsModule "R" None [] (Some "w") [])
  = "[app=R]".
Proof.
  apply (inserted_defines_are_scanned_for_name stubStringify stubDirname
           stubResolve stubRelative (λ _ _ _, "%defines%")
           (mkWriter false None (Some (JArray [JString "app=%name%"]))
              (mkModuleParser "out/" "/static/" (JObject []) (JObject [])))
           (mkJsModule "R" None [] (Some "w") []) "w" "[app=" "]");
    reflexivity.
Defined.

Lemma build_succeeds_when_writes_succeed_witness :
  reported
    (build stubStringify stubDirname stubResolve stubRelative
       placeholderWrapper writeOk parseOk saveFails cachedWriter)
  = None.
Proof.
  destruct (build_succeeds_when_writes_succeed stubStringify stubDirname
              stubResolve stubRelative placeholderWrapper writeOk parseOk
              saveFails cachedWriter rootModule) as (_ & H & _).
  - reflexivity.
  - intros file e _. discriminate.
  - reflexivity.
  - exact H.
Defined.

End WriterProps.
